(** * XShaderCompiler: output versions, AST helpers and the offline translator

    A shallow embedding of
    - [inc/Xsc/Targets.h]           (the [OutputShaderVersion] enumeration),
    - [src/Compiler/AST/AST.cpp]    (typed AST nodes and their type denoters),
    - [tool/main.cpp]               (the command line of the offline translator),
    followed by the properties the specification states about them. *)

From Stdlib Require Import List String Ascii Bool Arith ZArith Lia.
Import ListNotations.

Local Open Scope string_scope.
#[local] Set Warnings "-register-all".

(* ================================================================= *)
(** ** Targets.h *)

(** [enum class OutputShaderVersion]. *)
Inductive OutputShaderVersion : Type :=
| GLSL110 | GLSL120 | GLSL130 | GLSL140 | GLSL150 | GLSL330
| GLSL400 | GLSL410 | GLSL420 | GLSL430 | GLSL440 | GLSL450
| GLSL
| ESSL100 | ESSL300 | ESSL310 | ESSL320
| ESSL
| VKSL450
| VKSL.

(** The enumerator values as written in the header. *)
Definition OutputShaderVersion_value (v : OutputShaderVersion) : Z :=
  match v with
  | GLSL110 => 110
  | GLSL120 => 120
  | GLSL130 => 130
  | GLSL140 => 140
  | GLSL150 => 150
  | GLSL330 => 330
  | GLSL400 => 400
  | GLSL410 => 410
  | GLSL420 => 420
  | GLSL430 => 430
  | GLSL440 => 440
  | GLSL450 => 450
  | GLSL    => 0x0000ffff
  | ESSL100 => 0x00010000 + 100
  | ESSL300 => 0x00010000 + 300
  | ESSL310 => 0x00010000 + 310
  | ESSL320 => 0x00010000 + 320
  | ESSL    => 0x0001ffff
  | VKSL450 => 0x00020000 + 450
  | VKSL    => 0x0002ffff
  end%Z.

Definition all_OutputShaderVersions : list OutputShaderVersion :=
  [ GLSL110; GLSL120; GLSL130; GLSL140; GLSL150; GLSL330;
    GLSL400; GLSL410; GLSL420; GLSL430; GLSL440; GLSL450; GLSL;
    ESSL100; ESSL300; ESSL310; ESSL320; ESSL;
    VKSL450; VKSL ].

(** The shading-language family an enumerator is named after. *)
Inductive ShaderFamily : Type := FamilyGLSL | FamilyESSL | FamilyVKSL.

Definition family_of (v : OutputShaderVersion) : ShaderFamily :=
  match v with
  | GLSL110 | GLSL120 | GLSL130 | GLSL140 | GLSL150 | GLSL330
  | GLSL400 | GLSL410 | GLSL420 | GLSL430 | GLSL440 | GLSL450 | GLSL => FamilyGLSL
  | ESSL100 | ESSL300 | ESSL310 | ESSL320 | ESSL => FamilyESSL
  | VKSL450 | VKSL => FamilyVKSL
  end.

Definition family_tag (f : ShaderFamily) : Z :=
  match f with
  | FamilyGLSL => 0x0000
  | FamilyESSL => 0x0001
  | FamilyVKSL => 0x0002
  end%Z.

(** The auto-detect enumerators carry no version number in their name. *)
Definition is_auto_detect (v : OutputShaderVersion) : bool :=
  match v with
  | GLSL | ESSL | VKSL => true
  | _ => false
  end.

(** The version number an enumerator is named after; the auto-detect
    enumerators have none and carry the marker 0xFFFF instead. *)
Definition version_number (v : OutputShaderVersion) : Z :=
  match v with
  | GLSL110 => 110 | GLSL120 => 120 | GLSL130 => 130 | GLSL140 => 140
  | GLSL150 => 150 | GLSL330 => 330 | GLSL400 => 400 | GLSL410 => 410
  | GLSL420 => 420 | GLSL430 => 430 | GLSL440 => 440 | GLSL450 => 450
  | ESSL100 => 100 | ESSL300 => 300 | ESSL310 => 310 | ESSL320 => 320
  | VKSL450 => 450
  | GLSL | ESSL | VKSL => 0xFFFF
  end%Z.

(** Upper and lower half of the 32-bit value. *)
Definition upper16 (x : Z) : Z := Z.shiftr x 16.
Definition lower16 (x : Z) : Z := Z.land x 0xFFFF.

(* ================================================================= *)
(** ** tool/main.cpp: the offline translator's command line *)

(** The double-quote character, for the messages that quote an argument. *)
Definition dquote : string := String (ascii_of_nat 34) EmptyString.

(** [std::string::find(c)]: position of the first [c], if any. *)
Fixpoint string_find (c : ascii) (s : string) : option nat :=
  match s with
  | EmptyString => None
  | String d s' =>
      if Ascii.eqb d c then Some 0
      else match string_find c s' with
           | Some n => Some (S n)
           | None => None
           end
  end.

(** [std::string::find_last_of(c)]: position of the last [c], if any. *)
Fixpoint string_find_last_of (c : ascii) (s : string) : option nat :=
  match s with
  | EmptyString => None
  | String d s' =>
      match string_find_last_of c s' with
      | Some n => Some (S n)
      | None => if Ascii.eqb d c then Some 0 else None
      end
  end.

(** [s.substr(pos)]: the tail of [s] from [pos] on. *)
Definition substr_from (pos : nat) (s : string) : string :=
  substring pos (String.length s - pos) s.

Definition string_empty (s : string) : bool :=
  match s with EmptyString => true | _ => false end.

Record PredefinedMacro : Type := {
  macro_ident : string;
  macro_value : string
}.

(** The fields of [Options] that main.cpp writes ([HT/Translator.h] declares
    the structure and its defaults; it is not among the sources, so the
    default [Options] value is an argument of [main]). *)
Record Options : Type := {
  indent : string;
  prefix : string;
  warnings : bool;
  blanks : bool;
  lineMarks : bool;
  dumpAST : bool;
  preprocessOnly : bool;
  keepComments : bool
}.

Record Config : Type := {
  entry : string;
  target : string;
  shaderIn : string;
  shaderOut : string;
  output : string;
  predefinedMacros : list PredefinedMacro;
  options : Options
}.

(** [static Config g_config;] with its member initialisers. *)
Definition initial_config (defaults : Options) : Config :=
  {| entry := ""; target := ""; shaderIn := "HLSL5"; shaderOut := "GLSL330";
     output := ""; predefinedMacros := []; options := defaults |}.

Definition set_entry (x : string) (c : Config) : Config :=
  {| entry := x; target := target c; shaderIn := shaderIn c;
     shaderOut := shaderOut c; output := output c;
     predefinedMacros := predefinedMacros c; options := options c |}.
Definition set_target (x : string) (c : Config) : Config :=
  {| entry := entry c; target := x; shaderIn := shaderIn c;
     shaderOut := shaderOut c; output := output c;
     predefinedMacros := predefinedMacros c; options := options c |}.
Definition set_shaderIn (x : string) (c : Config) : Config :=
  {| entry := entry c; target := target c; shaderIn := x;
     shaderOut := shaderOut c; output := output c;
     predefinedMacros := predefinedMacros c; options := options c |}.
Definition set_shaderOut (x : string) (c : Config) : Config :=
  {| entry := entry c; target := target c; shaderIn := shaderIn c;
     shaderOut := x; output := output c;
     predefinedMacros := predefinedMacros c; options := options c |}.
Definition set_output (x : string) (c : Config) : Config :=
  {| entry := entry c; target := target c; shaderIn := shaderIn c;
     shaderOut := shaderOut c; output := x;
     predefinedMacros := predefinedMacros c; options := options c |}.
Definition set_predefinedMacros (x : list PredefinedMacro) (c : Config) : Config :=
  {| entry := entry c; target := target c; shaderIn := shaderIn c;
     shaderOut := shaderOut c; output := output c;
     predefinedMacros := x; options := options c |}.
Definition set_options (x : Options) (c : Config) : Config :=
  {| entry := entry c; target := target c; shaderIn := shaderIn c;
     shaderOut := shaderOut c; output := output c;
     predefinedMacros := predefinedMacros c; options := x |}.

Definition set_indent (x : string) (o : Options) : Options :=
  {| indent := x; prefix := prefix o; warnings := warnings o; blanks := blanks o;
     lineMarks := lineMarks o; dumpAST := dumpAST o;
     preprocessOnly := preprocessOnly o; keepComments := keepComments o |}.
Definition set_prefix (x : string) (o : Options) : Options :=
  {| indent := indent o; prefix := x; warnings := warnings o; blanks := blanks o;
     lineMarks := lineMarks o; dumpAST := dumpAST o;
     preprocessOnly := preprocessOnly o; keepComments := keepComments o |}.
Definition set_warnings (x : bool) (o : Options) : Options :=
  {| indent := indent o; prefix := prefix o; warnings := x; blanks := blanks o;
     lineMarks := lineMarks o; dumpAST := dumpAST o;
     preprocessOnly := preprocessOnly o; keepComments := keepComments o |}.
Definition set_blanks (x : bool) (o : Options) : Options :=
  {| indent := indent o; prefix := prefix o; warnings := warnings o; blanks := x;
     lineMarks := lineMarks o; dumpAST := dumpAST o;
     preprocessOnly := preprocessOnly o; keepComments := keepComments o |}.
Definition set_lineMarks (x : bool) (o : Options) : Options :=
  {| indent := indent o; prefix := prefix o; warnings := warnings o;
     blanks := blanks o; lineMarks := x; dumpAST := dumpAST o;
     preprocessOnly := preprocessOnly o; keepComments := keepComments o |}.
Definition set_dumpAST (x : bool) (o : Options) : Options :=
  {| indent := indent o; prefix := prefix o; warnings := warnings o;
     blanks := blanks o; lineMarks := lineMarks o; dumpAST := x;
     preprocessOnly := preprocessOnly o; keepComments := keepComments o |}.
Definition set_preprocessOnly (x : bool) (o : Options) : Options :=
  {| indent := indent o; prefix := prefix o; warnings := warnings o;
     blanks := blanks o; lineMarks := lineMarks o; dumpAST := dumpAST o;
     preprocessOnly := x; keepComments := keepComments o |}.
Definition set_keepComments (x : bool) (o : Options) : Options :=
  {| indent := indent o; prefix := prefix o; warnings := warnings o;
     blanks := blanks o; lineMarks := lineMarks o; dumpAST := dumpAST o;
     preprocessOnly := preprocessOnly o; keepComments := x |}.

(** A C++ call either returns a value or throws [std::runtime_error]. *)
Inductive outcome (A : Type) : Type :=
| Return (a : A)
| Throw (what : string).
Arguments Return {A} a.
Arguments Throw {A} what.

(** [argv[i]]; the callers only read below [argc]. *)
Definition argv_at (argv : list string) (i : nat) : string := nth i argv "".

(** [NextArg(i, argc, argv, flag)]: the value and the advanced index. *)
Definition NextArg (i argc : nat) (argv : list string) (flag : string)
  : outcome (string * nat) :=
  if (argc <=? i + 1)%nat
  then Throw ("missing next argument after flag " ++ dquote ++ flag ++ dquote)
  else Return (argv_at argv (S i), S i).

(** [BoolArg(i, argc, argv, flag)]: the flag's value and the index after the
    call ([i] is passed by reference). *)
Definition BoolArg (i argc : nat) (argv : list string) (flag : string)
  : bool * nat :=
  let value := true in
  if (i + 1 <? argc)%nat then
    let arg := argv_at argv (i + 1) in
    if arg =? "on" then (true, S i)
    else if arg =? "off" then (false, S i)
    else (true, i)
  else (value, i).

(** [PredefinedMacroArg(arg)]; main only calls it on arguments longer than
    three characters that start with [-D].  For these a [=] is found at
    position two or later, so the unsigned [pos - 2] does not wrap around,
    and [substr(2)] starts inside the string; the definition is the code on
    these arguments (on a shorter argument [substr(2)] would throw, and
    with a [=] before position two [pos - 2] would wrap). *)
Definition PredefinedMacroArg (arg : string) : PredefinedMacro :=
  match string_find "="%char arg with
  | Some pos =>
      if (pos + 1 <? String.length arg)%nat
      then {| macro_ident := substring 2 (pos - 2) arg;
              macro_value := substr_from (pos + 1) arg |}
      else {| macro_ident := substr_from 2 arg; macro_value := "" |}
  | None => {| macro_ident := substr_from 2 arg; macro_value := "" |}
  end.

Definition ExtractFilename (filename : string) : string :=
  match string_find_last_of "."%char filename with
  | None => filename
  | Some pos => substring 0 pos filename
  end.

(** What [Translate(filename)] does to [g_config] before it opens the files.
    The translation itself (file streams, [TranslateHLSLtoGLSL], the log) is
    input/output behind a [try]/[catch] that swallows every
    [std::exception]; it neither changes [g_config] nor leaves [Translate]
    early. *)
Definition Translate_config (filename : string) (c : Config) : Config :=
  let c :=
    if string_empty (output c) then
      let out := ExtractFilename filename in
      let out := if negb (string_empty (target c))
                 then out ++ "." ++ target c else out in
      set_output (out ++ ".glsl") c
    else c in
  let c :=
    if prefix (options c) =? "<none>"
    then set_options (set_prefix "" (options c)) c
    else c in
  if string_empty (entry c) || string_empty (target c)
  then set_target "" (set_entry "" c)
  else c.

(** One call of [Translate]: the file name and the configuration the
    translation is run with. *)
Record Translation : Type := {
  tr_filename : string;
  tr_config : Config
}.

(** The locals of [main] together with [g_config]. *)
Record MainState : Type := {
  g_config : Config;
  translationCounter : nat;
  showHelp : bool;
  showVersion : bool;
  pauseApp : bool
}.

Definition with_config (f : Config -> Config) (st : MainState) : MainState :=
  {| g_config := f (g_config st); translationCounter := translationCounter st;
     showHelp := showHelp st; showVersion := showVersion st;
     pauseApp := pauseApp st |}.
Definition with_option (f : Options -> Options) (st : MainState) : MainState :=
  with_config (fun c => set_options (f (options c)) c) st.
Definition set_showHelp (st : MainState) : MainState :=
  {| g_config := g_config st; translationCounter := translationCounter st;
     showHelp := true; showVersion := showVersion st; pauseApp := pauseApp st |}.
Definition set_showVersion (st : MainState) : MainState :=
  {| g_config := g_config st; translationCounter := translationCounter st;
     showHelp := showHelp st; showVersion := true; pauseApp := pauseApp st |}.
Definition set_pauseApp (st : MainState) : MainState :=
  {| g_config := g_config st; translationCounter := translationCounter st;
     showHelp := showHelp st; showVersion := showVersion st; pauseApp := true |}.
Definition incr_translationCounter (st : MainState) : MainState :=
  {| g_config := g_config st; translationCounter := S (translationCounter st);
     showHelp := showHelp st; showVersion := showVersion st;
     pauseApp := pauseApp st |}.

(** The three [clear()] calls after [Translate]. *)
Definition reset_translation_options (c : Config) : Config :=
  set_entry "" (set_target "" (set_output "" c)).

(** The last branch of the argument chain: translate [arg] as an input file. *)
Definition translate_branch (arg : string) (st : MainState)
  : MainState * list Translation :=
  let c := Translate_config arg (g_config st) in
  let st := with_config (fun _ => c) st in
  let st := incr_translationCounter st in
  (with_config reset_translation_options st,
   [ {| tr_filename := arg; tr_config := c |} ]).

(** A boolean option: [g_config.options.X = BoolArg(i, argc, argv, arg)]. *)
Definition bool_option (set : bool -> Options -> Options)
           (i argc : nat) (argv : list string) (arg : string) (st : MainState)
  : outcome (MainState * nat * list Translation) :=
  let '(v, i') := BoolArg i argc argv arg in
  Return (with_option (set v) st, i', []).

(** A valued option: [X = NextArg(i, argc, argv, arg)]. *)
Definition valued_option (set : string -> MainState -> MainState)
           (i argc : nat) (argv : list string) (arg : string) (st : MainState)
  : outcome (MainState * nat * list Translation) :=
  match NextArg i argc argv arg with
  | Return (v, i') => Return (set v st, i', [])
  | Throw w => Throw w
  end.

(** The body of the [for] loop of [main] at index [i]: the state and index
    after the [if]/[else if] chain and the calls of [Translate] it made, or
    the exception the [catch] clause receives. *)
Definition loop_body (i argc : nat) (argv : list string) (st : MainState)
  : outcome (MainState * nat * list Translation) :=
  let arg := argv_at argv i in
  if (arg =? "help") || (arg =? "--help") || (arg =? "-h") then
    Return (set_showHelp st, i, [])
  else if (arg =? "--version") || (arg =? "-v") then
    Return (set_showVersion st, i, [])
  else if arg =? "--pause" then
    Return (set_pauseApp st, i, [])
  else if arg =? "-warn" then bool_option set_warnings i argc argv arg st
  else if arg =? "-blanks" then bool_option set_blanks i argc argv arg st
  else if arg =? "-line-marks" then bool_option set_lineMarks i argc argv arg st
  else if arg =? "-dump-ast" then bool_option set_dumpAST i argc argv arg st
  else if arg =? "-pponly" then bool_option set_preprocessOnly i argc argv arg st
  else if arg =? "-comments" then bool_option set_keepComments i argc argv arg st
  else if arg =? "-entry" then
    valued_option (fun v => with_config (set_entry v)) i argc argv arg st
  else if arg =? "-target" then
    valued_option (fun v => with_config (set_target v)) i argc argv arg st
  else if arg =? "-shaderin" then
    valued_option (fun v => with_config (set_shaderIn v)) i argc argv arg st
  else if arg =? "-shaderout" then
    valued_option (fun v => with_config (set_shaderOut v)) i argc argv arg st
  else if arg =? "-indent" then
    valued_option (fun v => with_option (set_indent v)) i argc argv arg st
  else if arg =? "-prefix" then
    valued_option (fun v => with_option (set_prefix v)) i argc argv arg st
  else if arg =? "-output" then
    valued_option (fun v => with_config (set_output v)) i argc argv arg st
  else if (3 <? String.length arg)%nat && (substring 0 2 arg =? "-D") then
    Return (with_config
              (fun c => set_predefinedMacros
                          (predefinedMacros c ++ [PredefinedMacroArg arg]) c) st,
            i, [])
  else
    let '(st', trs) := translate_branch arg st in
    Return (st', i, trs).

(** How the argument loop ended. *)
Inductive LoopEnd : Type :=
| Completed          (* [i < argc] became false *)
| ReturnedEarly (what : string)  (* the [catch] clause printed and returned 0 *)
| OutOfFuel.

Record LoopResult : Type := {
  loop_end : LoopEnd;
  final_state : MainState;
  translations : list Translation
}.

Definition add_translations (trs : list Translation) (r : LoopResult) : LoopResult :=
  {| loop_end := loop_end r; final_state := final_state r;
     translations := trs ++ translations r |}.

(** [for (int i = ...; i < argc; ++i) { try { ... } catch { return 0; } }],
    started at index [i]; every iteration advances [i], so [argc] iterations
    are always enough. *)
Fixpoint for_loop (fuel : nat) (i argc : nat) (argv : list string)
         (st : MainState) : LoopResult :=
  if (i <? argc)%nat then
    match fuel with
    | O => {| loop_end := OutOfFuel; final_state := st; translations := [] |}
    | S fuel' =>
        match loop_body i argc argv st with
        | Return (st', i', trs) =>
            add_translations trs (for_loop fuel' (S i') argc argv st')
        | Throw w =>
            {| loop_end := ReturnedEarly w; final_state := st;
               translations := [] |}
        end
    end
  else {| loop_end := Completed; final_state := st; translations := [] |}.

Definition initial_state (defaults : Options) : MainState :=
  {| g_config := initial_config defaults; translationCounter := 0;
     showHelp := false; showVersion := false; pauseApp := false |}.

(** [main(argc, argv)] up to the end of the argument loop, with
    [argc = length argv]. *)
Definition main (defaults : Options) (argv : list string) : LoopResult :=
  for_loop (List.length argv) 1 (List.length argv) argv (initial_state defaults).

(** The arguments the command line grammar reads as flags. *)
Definition is_plain_flag (arg : string) : bool :=
  (arg =? "help") || (arg =? "--help") || (arg =? "-h") ||
  (arg =? "--version") || (arg =? "-v") || (arg =? "--pause").
Definition is_bool_flag (arg : string) : bool :=
  (arg =? "-warn") || (arg =? "-blanks") || (arg =? "-line-marks") ||
  (arg =? "-dump-ast") || (arg =? "-pponly") || (arg =? "-comments").
Definition is_valued_flag (arg : string) : bool :=
  (arg =? "-entry") || (arg =? "-target") || (arg =? "-shaderin") ||
  (arg =? "-shaderout") || (arg =? "-indent") || (arg =? "-prefix") ||
  (arg =? "-output").
Definition is_macro_flag (arg : string) : bool :=
  (3 <? String.length arg)%nat && (substring 0 2 arg =? "-D").
Definition is_flag (arg : string) : bool :=
  is_plain_flag arg || is_bool_flag arg || is_valued_flag arg || is_macro_flag arg.

(** The positional arguments of a command line, as the specification words
    it: a valued flag takes the argument after it, a boolean flag takes a
    following [on] or [off], and every remaining argument that is not a flag
    is an input file. *)
Fixpoint positional_files (args : list string) : list string :=
  match args with
  | [] => []
  | arg :: rest =>
      if is_valued_flag arg then
        match rest with
        | [] => []
        | _ :: rest' => positional_files rest'
        end
      else if is_bool_flag arg then
        match rest with
        | v :: rest' =>
            if (v =? "on") || (v =? "off")
            then positional_files rest' else positional_files rest
        | [] => []
        end
      else if is_flag arg then positional_files rest
      else arg :: positional_files rest
  end.

(* ================================================================= *)
(** ** src/Compiler/AST/AST.cpp: type denoters *)

Module DataType.
(** Modelled from the spec: [ASTEnums.h] is not among the sources.  The
    enumerators are the ones AST.cpp names ([String] and the scalar types of
    a base type denoter); every enumerator AST.cpp does not name (undefined,
    vector and matrix types) is an [Other]. *)
Inductive t : Type :=
| String | Bool | Int | UInt | Half | Float | Double
| Other (code : nat).

Definition eq_dec (a b : t) : {a = b} + {a <> b}.
Proof. decide equality. apply Nat.eq_dec. Defined.

Definition eqb (a b : t) : bool := if eq_dec a b then true else false.
End DataType.

(** A non-owning reference to another node of the tree (a declaration a
    symbol resolves to, an array dimension expression). *)
Definition Handle : Type := nat.

(** [TypeDenoterPtr] is a [std::shared_ptr<TypeDenoter>]: the address of the
    instance together with the (immutable) denoter stored there.  Two
    pointers denote the same instance when they are equal. *)
Inductive TypeDenoter : Type :=
| BaseTypeDenoter (dataType : DataType.t)
| ArrayTypeDenoter (baseTypeDenoter : TypeDenoterPtr)
                   (arrayDims : list (option Handle))
| StructTypeDenoter (structDeclRef : Handle)
| BufferTypeDenoter (bufferDeclRef : Handle)
| SamplerTypeDenoter (samplerDeclRef : Handle)
| AliasTypeDenoter (aliasDeclRef : Handle)
with TypeDenoterPtr : Type :=
| SharedPtr (address : nat) (pointee : TypeDenoter).

Definition address_of (p : TypeDenoterPtr) : nat :=
  match p with SharedPtr a _ => a end.
Definition pointee_of (p : TypeDenoterPtr) : TypeDenoter :=
  match p with SharedPtr _ d => d end.

(** The allocator: the next free address.  [std::make_shared] returns a new
    instance at that address. *)
Definition Heap : Type := nat.

Definition make_shared (d : TypeDenoter) (h : Heap) : TypeDenoterPtr * Heap :=
  (SharedPtr h d, S h).

(** The result of a call that may mutate the node it is called on: what the
    call returned or threw, the node afterwards, and the allocator. *)
Definition Derived (Node : Type) : Type :=
  (outcome TypeDenoterPtr * Node * Heap)%type.

(** *** TypedAST *)

Section TypedAST_methods.
Context {Node : Type}.
(** The private member [bufferedTypeDenoter_] (null is [None]) and the
    virtual [DeriveTypeDenoter]. *)
Variable buffered : Node -> option TypeDenoterPtr.
Variable set_buffered : option TypeDenoterPtr -> Node -> Node.
Variable derive : Node -> Heap -> Derived Node.

(** [TypedAST::GetTypeDenoter]. *)
Definition TypedAST_GetTypeDenoter (n : Node) (h : Heap) : Derived Node :=
  match buffered n with
  | Some p => (Return p, n, h)
  | None =>
      match derive n h with
      | (Return p, n', h') => (Return p, set_buffered (Some p) n', h')
      | (Throw w, n', h') => (Throw w, n', h')
      end
  end.

(** [TypedAST::ResetBufferedTypeDenoter]. *)
Definition TypedAST_ResetBufferedTypeDenoter (n : Node) : Node :=
  set_buffered None n.
End TypedAST_methods.

(** The interface of a typed node: its memo field and how its class derives
    the type denoter. *)
Class TypedAST (Node : Type) : Type := {
  bufferedTypeDenoter_ : Node -> option TypeDenoterPtr;
  set_bufferedTypeDenoter_ : option TypeDenoterPtr -> Node -> Node;
  DeriveTypeDenoter : Node -> Heap -> Derived Node;
  bufferedTypeDenoter_set :
    forall p n, bufferedTypeDenoter_ (set_bufferedTypeDenoter_ p n) = p
}.

Definition GetTypeDenoter {Node : Type} `{TypedAST Node}
  : Node -> Heap -> Derived Node :=
  TypedAST_GetTypeDenoter bufferedTypeDenoter_ set_bufferedTypeDenoter_
                          DeriveTypeDenoter.

Definition ResetBufferedTypeDenoter {Node : Type} `{TypedAST Node}
  : Node -> Node :=
  TypedAST_ResetBufferedTypeDenoter set_bufferedTypeDenoter_.

(** [k] calls of [GetTypeDenoter] in a row on the same node: what each call
    returned or threw, and the node and allocator after the last. *)
Fixpoint GetTypeDenoter_times {Node : Type} `{TypedAST Node}
         (k : nat) (n : Node) (h : Heap)
  : list (outcome TypeDenoterPtr) * Node * Heap :=
  match k with
  | O => ([], n, h)
  | S k' =>
      let '(r, n1, h1) := GetTypeDenoter n h in
      let '(rs, n2, h2) := GetTypeDenoter_times k' n1 h1 in
      (r :: rs, n2, h2)
  end.

(** To observe how often [GetTypeDenoter] enters a node's
    [DeriveTypeDenoter], the node is paired with a counter that the
    derivation increments.  The memo field is the node's own, and
    [GetTypeDenoter] is run as it is on the pair. *)
Section Derivation_counter.
Context {Node : Type} `{TypedAST Node}.

Definition counted_DeriveTypeDenoter (nc : Node * nat) (h : Heap)
  : Derived (Node * nat) :=
  let '(r, n', h') := DeriveTypeDenoter (fst nc) h in
  (r, (n', S (snd nc)), h').

Definition counted_TypedAST : TypedAST (Node * nat) := {|
  bufferedTypeDenoter_ := fun nc => bufferedTypeDenoter_ (fst nc);
  set_bufferedTypeDenoter_ :=
    fun p nc => (set_bufferedTypeDenoter_ p (fst nc), snd nc);
  DeriveTypeDenoter := counted_DeriveTypeDenoter;
  bufferedTypeDenoter_set := fun p nc => bufferedTypeDenoter_set p (fst nc)
|}.

(** [k] calls of [GetTypeDenoter] in a row on node [n], with the counter at
    [c] before the first. *)
Definition GetTypeDenoter_times_counted (k : nat) (n : Node) (c : nat)
           (h : Heap)
  : list (outcome TypeDenoterPtr) * (Node * nat) * Heap :=
  @GetTypeDenoter_times (Node * nat) counted_TypedAST k (n, c) h.
End Derivation_counter.

(** The calls of a run that threw. *)
Fixpoint count_throws {A : Type} (rs : list (outcome A)) : nat :=
  match rs with
  | [] => 0
  | Throw _ :: rs' => S (count_throws rs')
  | Return _ :: rs' => count_throws rs'
  end.

(** *** Declarations the sources use but do not contain *)

(** [ASTEnums.h]: the operator enumerations and their classification. *)
Class ASTEnums : Type := {
  UnaryOp : Type;
  BinaryOp : Type;
  IsLogicalOp : UnaryOp -> bool;
  IsBooleanOp : BinaryOp -> bool;
  BinaryOpToString : BinaryOp -> string
}.

(** [TypeDenoter.h]: the methods of a type denoter AST.cpp calls on the
    expression nodes below. *)
Class TypeDenoterOps : Type := {
  IsCastableTo : TypeDenoter -> TypeDenoter -> bool;
  ToString : TypeDenoter -> string
}.

(** [Variant.h]: parsing a literal, converting it in place and printing it. *)
Class VariantOps : Type := {
  Variant : Type;
  Variant_ParseFrom : string -> Variant;
  Variant_ToBool : Variant -> Variant;
  Variant_ToInt : Variant -> Variant;
  Variant_ToReal : Variant -> Variant;
  Variant_ToString : Variant -> string
}.

(* ================================================================= *)
(** ** src/Compiler/AST/AST.cpp: expressions *)

(** [LiteralExpr]: a typed node with a data type and the literal's text. *)
Record LiteralExpr : Type := {
  LiteralExpr_bufferedTypeDenoter_ : option TypeDenoterPtr;
  dataType : DataType.t;
  value : string
}.

Definition LiteralExpr_set_buffered (p : option TypeDenoterPtr)
           (e : LiteralExpr) : LiteralExpr :=
  {| LiteralExpr_bufferedTypeDenoter_ := p;
     dataType := dataType e; value := value e |}.

(** [LiteralExpr::DeriveTypeDenoter]. *)
Definition LiteralExpr_DeriveTypeDenoter (e : LiteralExpr) (h : Heap)
  : Derived LiteralExpr :=
  let '(p, h') := make_shared (BaseTypeDenoter (dataType e)) h in
  (Return p, e, h').

#[export] Instance LiteralExpr_TypedAST : TypedAST LiteralExpr := {|
  bufferedTypeDenoter_ := LiteralExpr_bufferedTypeDenoter_;
  set_bufferedTypeDenoter_ := LiteralExpr_set_buffered;
  DeriveTypeDenoter := LiteralExpr_DeriveTypeDenoter;
  bufferedTypeDenoter_set := fun p n => eq_refl
|}.

Section LiteralExpr_methods.
Context `{VariantOps}.

(** [LiteralExpr::ConvertDataType]. *)
Definition ConvertDataType (type : DataType.t) (e : LiteralExpr)
  : LiteralExpr :=
  if negb (DataType.eqb (dataType e) type) then
    let variant := Variant_ParseFrom (value e) in
    let value' :=
      match type with
      | DataType.Bool => Variant_ToString (Variant_ToBool variant)
      | DataType.Int => Variant_ToString (Variant_ToInt variant)
      | DataType.UInt => Variant_ToString (Variant_ToInt variant) ++ "u"
      | DataType.Half | DataType.Float | DataType.Double =>
          Variant_ToString (Variant_ToReal variant)
      | _ => value e
      end in
    ResetBufferedTypeDenoter
      {| LiteralExpr_bufferedTypeDenoter_ := LiteralExpr_bufferedTypeDenoter_ e;
         dataType := type; value := value' |}
  else e.
End LiteralExpr_methods.

(** [LiteralExpr::GetStringValue]. *)
Definition GetStringValue (e : LiteralExpr) : string :=
  let n := String.length (value e) in
  if DataType.eqb (dataType e) DataType.String
     && (2 <=? n)%nat
     && (substring 0 1 (value e) =? dquote)
     && (substring (n - 1) 1 (value e) =? dquote)
  then substring 1 (n - 2) (value e)
  else "".

(** [TypeNameExpr]: a typed node holding the denoter the parser built. *)
Record TypeNameExpr : Type := {
  TypeNameExpr_bufferedTypeDenoter_ : option TypeDenoterPtr;
  typeDenoter : TypeDenoterPtr
}.

Section Expressions.
Context `{ASTEnums} `{TypeDenoterOps}.

(** The expression classes of AST.cpp whose type derivation needs nothing
    but their sub-expressions.  Each carries the [bufferedTypeDenoter_]
    member it inherits from [TypedAST] as [buf].  ([FunctionCallExpr],
    [SuffixExpr], [ArrayAccessExpr] and [VarAccessExpr] derive their type
    from declarations and denoter methods outside AST.cpp and are left
    out.) *)
Inductive Expr : Type :=
| NullExpr (buf : option TypeDenoterPtr)
| ListExpr (buf : option TypeDenoterPtr) (firstExpr nextExpr : Expr)
| Literal (lit : LiteralExpr)
| TypeName (tn : TypeNameExpr)
| TernaryExpr (buf : option TypeDenoterPtr) (condExpr thenExpr elseExpr : Expr)
| BinaryExpr (buf : option TypeDenoterPtr) (lhsExpr : Expr) (op : BinaryOp)
             (rhsExpr : Expr)
| UnaryExpr (buf : option TypeDenoterPtr) (op : UnaryOp) (expr : Expr)
| PostUnaryExpr (buf : option TypeDenoterPtr) (expr : Expr) (op : UnaryOp)
| BracketExpr (buf : option TypeDenoterPtr) (expr : Expr)
| CastExpr (buf : option TypeDenoterPtr) (typeExpr : Expr) (expr : Expr)
| InitializerExpr (buf : option TypeDenoterPtr) (exprs : list Expr).

Definition Expr_bufferedTypeDenoter_ (e : Expr) : option TypeDenoterPtr :=
  match e with
  | NullExpr buf | ListExpr buf _ _ | TernaryExpr buf _ _ _
  | BinaryExpr buf _ _ _ | UnaryExpr buf _ _ | PostUnaryExpr buf _ _
  | BracketExpr buf _ | CastExpr buf _ _ | InitializerExpr buf _ => buf
  | Literal lit => LiteralExpr_bufferedTypeDenoter_ lit
  | TypeName tn => TypeNameExpr_bufferedTypeDenoter_ tn
  end.

Definition Expr_set_buffered (p : option TypeDenoterPtr) (e : Expr) : Expr :=
  match e with
  | NullExpr _ => NullExpr p
  | ListExpr _ a b => ListExpr p a b
  | Literal lit => Literal (LiteralExpr_set_buffered p lit)
  | TypeName tn =>
      TypeName {| TypeNameExpr_bufferedTypeDenoter_ := p;
                  typeDenoter := typeDenoter tn |}
  | TernaryExpr _ c t f => TernaryExpr p c t f
  | BinaryExpr _ l o r => BinaryExpr p l o r
  | UnaryExpr _ o x => UnaryExpr p o x
  | PostUnaryExpr _ x o => PostUnaryExpr p x o
  | BracketExpr _ x => BracketExpr p x
  | CastExpr _ t x => CastExpr p t x
  | InitializerExpr _ xs => InitializerExpr p xs
  end.

(** The messages of the [RuntimeErr] calls. *)
Definition ternary_condition_error (condTypeDen : TypeDenoterPtr) : string :=
  "can not cast '" ++ ToString (pointee_of condTypeDen) ++ "' to '" ++
  ToString (BaseTypeDenoter DataType.Bool) ++
  "' in condition of ternary expression".
Definition ternary_error (elseTypeDen thenTypeDen : TypeDenoterPtr) : string :=
  "can not cast '" ++ ToString (pointee_of elseTypeDen) ++ "' to '" ++
  ToString (pointee_of thenTypeDen) ++ "' in ternary expression".
Definition binary_error (rhsTypeDen lhsTypeDen : TypeDenoterPtr)
           (op : BinaryOp) : string :=
  "can not cast '" ++ ToString (pointee_of rhsTypeDen) ++ "' to '" ++
  ToString (pointee_of lhsTypeDen) ++ "' in binary expression '" ++
  BinaryOpToString op ++ "'".
Definition cast_error (valueTypeDen castTypeDen : TypeDenoterPtr) : string :=
  "can not cast '" ++ ToString (pointee_of valueTypeDen) ++ "' to '" ++
  ToString (pointee_of castTypeDen) ++ "' in cast expression".
Definition initializer_error : string :=
  "can not derive type of initializer list with no elements".

(** The [DeriveTypeDenoter] overrides of the expression classes.  A call
    [x->GetTypeDenoter()] on a sub-expression may fill that
    sub-expression's memo, so every branch returns the node with its
    sub-expressions as the calls left them, also when it throws. *)
Fixpoint Expr_DeriveTypeDenoter (e : Expr) (h : Heap) {struct e}
  : Derived Expr :=
  let Get := TypedAST_GetTypeDenoter Expr_bufferedTypeDenoter_
               Expr_set_buffered Expr_DeriveTypeDenoter in
  match e with
  | NullExpr buf =>
      let '(p, h1) := make_shared (BaseTypeDenoter DataType.Int) h in
      (Return p, NullExpr buf, h1)
  | ListExpr buf firstExpr nextExpr =>
      let '(r, firstExpr', h1) := Get firstExpr h in
      (r, ListExpr buf firstExpr' nextExpr, h1)
  | Literal lit =>
      let '(r, lit', h1) := LiteralExpr_DeriveTypeDenoter lit h in
      (r, Literal lit', h1)
  | TypeName tn => (Return (typeDenoter tn), TypeName tn, h)
  | TernaryExpr buf condExpr thenExpr elseExpr =>
      let '(rc, condExpr', h1) := Get condExpr h in
      match rc with
      | Throw w => (Throw w, TernaryExpr buf condExpr' thenExpr elseExpr, h1)
      | Return condTypeDen =>
          if negb (IsCastableTo (pointee_of condTypeDen)
                                (BaseTypeDenoter DataType.Bool))
          then (Throw (ternary_condition_error condTypeDen),
                TernaryExpr buf condExpr' thenExpr elseExpr, h1)
          else
            let '(rt, thenExpr', h2) := Get thenExpr h1 in
            match rt with
            | Throw w =>
                (Throw w, TernaryExpr buf condExpr' thenExpr' elseExpr, h2)
            | Return thenTypeDen =>
                let '(re, elseExpr', h3) := Get elseExpr h2 in
                let e' := TernaryExpr buf condExpr' thenExpr' elseExpr' in
                match re with
                | Throw w => (Throw w, e', h3)
                | Return elseTypeDen =>
                    if negb (IsCastableTo (pointee_of elseTypeDen)
                                          (pointee_of thenTypeDen))
                    then (Throw (ternary_error elseTypeDen thenTypeDen), e', h3)
                    else (Return thenTypeDen, e', h3)
                end
            end
      end
  | BinaryExpr buf lhsExpr op rhsExpr =>
      let '(rl, lhsExpr', h1) := Get lhsExpr h in
      match rl with
      | Throw w => (Throw w, BinaryExpr buf lhsExpr' op rhsExpr, h1)
      | Return lhsTypeDen =>
          let '(rr, rhsExpr', h2) := Get rhsExpr h1 in
          let e' := BinaryExpr buf lhsExpr' op rhsExpr' in
          match rr with
          | Throw w => (Throw w, e', h2)
          | Return rhsTypeDen =>
              if negb (IsCastableTo (pointee_of rhsTypeDen)
                                    (pointee_of lhsTypeDen))
                 || negb (IsCastableTo (pointee_of lhsTypeDen)
                                       (pointee_of rhsTypeDen))
              then (Throw (binary_error rhsTypeDen lhsTypeDen op), e', h2)
              else if IsBooleanOp op then
                let '(p, h3) := make_shared (BaseTypeDenoter DataType.Bool) h2 in
                (Return p, e', h3)
              else (Return lhsTypeDen, e', h2)
          end
      end
  | UnaryExpr buf op expr =>
      let '(r, expr', h1) := Get expr h in
      let e' := UnaryExpr buf op expr' in
      match r with
      | Throw w => (Throw w, e', h1)
      | Return typeDen =>
          if IsLogicalOp op then
            let '(p, h2) := make_shared (BaseTypeDenoter DataType.Bool) h1 in
            (Return p, e', h2)
          else (Return typeDen, e', h1)
      end
  | PostUnaryExpr buf expr op =>
      let '(r, expr', h1) := Get expr h in
      (r, PostUnaryExpr buf expr' op, h1)
  | BracketExpr buf expr =>
      let '(r, expr', h1) := Get expr h in
      (r, BracketExpr buf expr', h1)
  | CastExpr buf typeExpr expr =>
      let '(rt, typeExpr', h1) := Get typeExpr h in
      match rt with
      | Throw w => (Throw w, CastExpr buf typeExpr' expr, h1)
      | Return castTypeDen =>
          let '(rv, expr', h2) := Get expr h1 in
          let e' := CastExpr buf typeExpr' expr' in
          match rv with
          | Throw w => (Throw w, e', h2)
          | Return valueTypeDen =>
              if negb (IsCastableTo (pointee_of valueTypeDen)
                                    (pointee_of castTypeDen))
              then (Throw (cast_error valueTypeDen castTypeDen), e', h2)
              else (Return castTypeDen, e', h2)
          end
      end
  | InitializerExpr buf exprs =>
      match exprs with
      | [] => (Throw initializer_error, InitializerExpr buf [], h)
      | front :: others =>
          let '(r, front', h1) := Get front h in
          let e' := InitializerExpr buf (front' :: others) in
          match r with
          | Throw w => (Throw w, e', h1)
          | Return frontTypeDen =>
              let '(p, h2) :=
                make_shared (ArrayTypeDenoter frontTypeDen [None]) h1 in
              (Return p, e', h2)
          end
      end
  end.

#[export] Instance Expr_TypedAST : TypedAST Expr := {|
  bufferedTypeDenoter_ := Expr_bufferedTypeDenoter_;
  set_bufferedTypeDenoter_ := Expr_set_buffered;
  DeriveTypeDenoter := Expr_DeriveTypeDenoter;
  bufferedTypeDenoter_set :=
    fun p n => match n with
               | NullExpr _ | ListExpr _ _ _ | Literal _ | TypeName _
               | TernaryExpr _ _ _ _ | BinaryExpr _ _ _ _ | UnaryExpr _ _ _
               | PostUnaryExpr _ _ _ | BracketExpr _ _ | CastExpr _ _ _
               | InitializerExpr _ _ => eq_refl
               end
|}.

(** [InitializerExpr::NumElements]: nested initializer lists count by
    their own elements, every other expression counts one.  Only
    [InitializerExpr] has the method; the other classes are given 0 and
    never asked.  ([unsigned int] arithmetic; the count of a list that
    fits in memory does not wrap.) *)
Fixpoint NumElements (e : Expr) : nat :=
  match e with
  | InitializerExpr _ exprs =>
      (fix loop (es : list Expr) (n : nat) {struct es} : nat :=
         match es with
         | [] => n
         | x :: es' =>
             match x with
             | InitializerExpr _ _ => loop es' (n + NumElements x)
             | _ => loop es' (n + 1)
             end
         end) exprs 0
  | _ => 0
  end.

(** What one element adds to [NumElements]. *)
Definition element_count (x : Expr) : nat :=
  match x with
  | InitializerExpr _ _ => NumElements x
  | _ => 1
  end.

End Expressions.

(* ================================================================= *)
(** ** src/Compiler/AST/AST.cpp: identifiers and declarations *)

Section Declarations.
Context `{ASTEnums}.

(** [VarIdent]: a chain of identifier segments.  It is a typed node, so it
    has the memo field too. *)
Inductive VarIdent : Type :=
| Build_VarIdent (buf : option TypeDenoterPtr)
                 (ident : string)
                 (arrayIndices : list Expr)
                 (next : option VarIdent)
                 (symbolRef : option Handle).

Definition VarIdent_bufferedTypeDenoter_ (v : VarIdent) : option TypeDenoterPtr :=
  match v with Build_VarIdent buf _ _ _ _ => buf end.
Definition VarIdent_ident (v : VarIdent) : string :=
  match v with Build_VarIdent _ ident _ _ _ => ident end.
Definition VarIdent_arrayIndices (v : VarIdent) : list Expr :=
  match v with Build_VarIdent _ _ arrayIndices _ _ => arrayIndices end.
Definition VarIdent_next (v : VarIdent) : option VarIdent :=
  match v with Build_VarIdent _ _ _ next _ => next end.
Definition VarIdent_symbolRef (v : VarIdent) : option Handle :=
  match v with Build_VarIdent _ _ _ _ symbolRef => symbolRef end.

(** [VarIdent::PopFront]. *)
Definition PopFront (v : VarIdent) : VarIdent :=
  match VarIdent_next v with
  | Some nextVarIdent =>
      Build_VarIdent (VarIdent_bufferedTypeDenoter_ v)
                     (VarIdent_ident nextVarIdent)
                     (VarIdent_arrayIndices nextVarIdent)
                     (VarIdent_next nextVarIdent)
                     (VarIdent_symbolRef nextVarIdent)
  | None => v
  end.

(** [VarIdent::ToString]. *)
Fixpoint VarIdent_ToString (v : VarIdent) : string :=
  match v with
  | Build_VarIdent _ ident _ next _ =>
      match next with
      | Some n => ident ++ "." ++ VarIdent_ToString n
      | None => ident
      end
  end.

(** [VarDecl]: one declared variable. *)
Record VarDecl : Type := {
  VarDecl_bufferedTypeDenoter_ : option TypeDenoterPtr;
  VarDecl_ident : string;
  arrayDims : list (option Expr);
  semantic : string;
  initializer : option Expr
}.

(** [VarDeclStmnt]: a declaration statement, also a function parameter. *)
Record VarDeclStmnt : Type := {
  varType : TypeDenoterPtr;
  varDecls : list VarDecl;
  isInput : bool;
  isOutput : bool;
  isUniform : bool
}.

(** The loop of [VarDeclStmnt::Fetch]. *)
Fixpoint VarDeclStmnt_Fetch_loop (vars : list VarDecl) (ident : string)
  : option VarDecl :=
  match vars with
  | [] => None
  | var :: vars' =>
      if VarDecl_ident var =? ident then Some var
      else VarDeclStmnt_Fetch_loop vars' ident
  end.

(** [VarDeclStmnt::Fetch]. *)
Definition VarDeclStmnt_Fetch (stmnt : VarDeclStmnt) (ident : string)
  : option VarDecl :=
  VarDeclStmnt_Fetch_loop (varDecls stmnt) ident.

(** [VarDeclStmnt::IsInput] and [VarDeclStmnt::IsOutput]. *)
Definition IsInput (stmnt : VarDeclStmnt) : bool :=
  isInput stmnt || negb (isOutput stmnt).
Definition IsOutput (stmnt : VarDeclStmnt) : bool := isOutput stmnt.

(** [StructDecl]: [baseStructRef] points to the declaration of the base
    structure, if there is one. *)
Inductive StructDecl : Type :=
| Build_StructDecl (buf : option TypeDenoterPtr)
                   (ident : string)
                   (baseStructRef : option StructDecl)
                   (members : list VarDeclStmnt).

Definition StructDecl_ident (s : StructDecl) : string :=
  match s with Build_StructDecl _ ident _ _ => ident end.
Definition baseStructRef (s : StructDecl) : option StructDecl :=
  match s with Build_StructDecl _ _ base _ => base end.
Definition members (s : StructDecl) : list VarDeclStmnt :=
  match s with Build_StructDecl _ _ _ members => members end.

(** The loop over [members] in [StructDecl::Fetch]. *)
Fixpoint StructDecl_Fetch_members (stmnts : list VarDeclStmnt) (ident : string)
  : option VarDecl :=
  match stmnts with
  | [] => None
  | varDeclStmnt :: stmnts' =>
      match VarDeclStmnt_Fetch varDeclStmnt ident with
      | Some symbol => Some symbol
      | None => StructDecl_Fetch_members stmnts' ident
      end
  end.

(** [StructDecl::Fetch]. *)
Fixpoint StructDecl_Fetch (s : StructDecl) (ident : string) {struct s}
  : option VarDecl :=
  match s with
  | Build_StructDecl _ _ base stmnts =>
      match match base with
            | Some b => StructDecl_Fetch b ident
            | None => None
            end with
      | Some varDecl => Some varDecl
      | None => StructDecl_Fetch_members stmnts ident
      end
  end.

(** [StructDecl::NumMembers]. *)
Fixpoint NumMembers (s : StructDecl) : nat :=
  match s with
  | Build_StructDecl _ _ base stmnts =>
      fold_left (fun n member => n + List.length (varDecls member)) stmnts
                (match base with
                 | Some b => NumMembers b
                 | None => 0
                 end)
  end.

(** [FunctionDecl]. *)
Record FunctionDecl : Type := {
  returnType : TypeDenoterPtr;
  FunctionDecl_ident : string;
  parameters : list VarDeclStmnt
}.

(** The condition under which the loop of [NumMinArgs] breaks. *)
Definition has_default_argument (param : VarDeclStmnt) : bool :=
  match varDecls param with
  | [] => false
  | front :: _ =>
      match initializer front with
      | Some _ => true
      | None => false
      end
  end.

(** The loop of [FunctionDecl::NumMinArgs] with its counter [n]. *)
Fixpoint NumMinArgs_loop (params : list VarDeclStmnt) (n : nat) : nat :=
  match params with
  | [] => n
  | param :: params' =>
      if has_default_argument param then n
      else NumMinArgs_loop params' (S n)
  end.

(** [FunctionDecl::NumMinArgs] and [FunctionDecl::NumMaxArgs]. *)
Definition NumMinArgs (f : FunctionDecl) : nat :=
  NumMinArgs_loop (parameters f) 0.
Definition NumMaxArgs (f : FunctionDecl) : nat :=
  List.length (parameters f).

(** The variables declared in a structure and its base structures, in the
    order [Fetch] searches them: those of the base structure chain first,
    then its own, statement by statement. *)
Fixpoint all_members (s : StructDecl) : list VarDecl :=
  match s with
  | Build_StructDecl _ _ base stmnts =>
      (match base with
       | Some b => all_members b
       | None => []
       end ++ flat_map varDecls stmnts)%list
  end.

(** The test of the loop in [VarDeclStmnt::Fetch]. *)
Definition has_ident (name : string) (v : VarDecl) : bool :=
  VarDecl_ident v =? name.

End Declarations.

(* ================================================================= *)
(** ** The calls a literal offers, and sample values *)

(** The public methods of a [LiteralExpr] that AST.cpp defines. *)
Inductive LiteralExpr_call : Type :=
| Call_GetTypeDenoter
| Call_ResetBufferedTypeDenoter
| Call_ConvertDataType (type : DataType.t)
| Call_GetStringValue.

(** The literal and the allocator after one such call. *)
Definition LiteralExpr_run `{VariantOps} (c : LiteralExpr_call)
           (e : LiteralExpr) (h : Heap) : LiteralExpr * Heap :=
  match c with
  | Call_GetTypeDenoter =>
      let '(_, e', h') := GetTypeDenoter e h in (e', h')
  | Call_ResetBufferedTypeDenoter => (ResetBufferedTypeDenoter e, h)
  | Call_ConvertDataType type => (ConvertDataType type e, h)
  | Call_GetStringValue => (e, h)
  end.

(** A parameter's first variable declaration carries an initializer. *)
Definition carries_initializer `{ASTEnums} (param : VarDeclStmnt) : Prop :=
  exists front others init,
    varDecls param = front :: others /\ initializer front = Some init.

(** Sample readings of the declarations the sources do not contain, to run
    the model on concrete trees: the unary and some binary operators of
    HLSL, of which logical negation is the logical unary operator. *)
Inductive SampleUnaryOp : Type :=
| LogicalNot | Not | Nop | Negate | Inc | Dec.

Inductive SampleBinaryOp : Type :=
| LogicalAnd | LogicalOr | Add | Sub | Mul | Div | Equal | NotEqual | Less | Greater.

#[export] Instance sample_ASTEnums : ASTEnums := {|
  UnaryOp := SampleUnaryOp;
  BinaryOp := SampleBinaryOp;
  IsLogicalOp := fun o => match o with LogicalNot => true | _ => false end;
  IsBooleanOp := fun o => match o with
                          | LogicalAnd | LogicalOr | Equal | NotEqual
                          | Less | Greater => true
                          | _ => false
                          end;
  BinaryOpToString := fun o => match o with
                               | LogicalAnd => "&&" | LogicalOr => "||"
                               | Add => "+" | Sub => "-" | Mul => "*"
                               | Div => "/" | Equal => "==" | NotEqual => "!="
                               | Less => "<" | Greater => ">"
                               end
|}.

(** A sample castability relation: base types cast to base types, arrays to
    arrays, everything else only within its own kind. *)
#[export] Instance sample_TypeDenoterOps : TypeDenoterOps := {|
  IsCastableTo := fun a b =>
    match a, b with
    | BaseTypeDenoter _, BaseTypeDenoter _ => true
    | ArrayTypeDenoter _ _, ArrayTypeDenoter _ _ => true
    | StructTypeDenoter x, StructTypeDenoter y => Nat.eqb x y
    | BufferTypeDenoter x, BufferTypeDenoter y => Nat.eqb x y
    | SamplerTypeDenoter x, SamplerTypeDenoter y => Nat.eqb x y
    | AliasTypeDenoter x, AliasTypeDenoter y => Nat.eqb x y
    | _, _ => false
    end;
  ToString := fun d =>
    match d with
    | BaseTypeDenoter _ => "base"
    | ArrayTypeDenoter _ _ => "array"
    | StructTypeDenoter _ => "struct"
    | BufferTypeDenoter _ => "buffer"
    | SamplerTypeDenoter _ => "sampler"
    | AliasTypeDenoter _ => "alias"
    end
|}.

(** A sample variant that keeps the literal's text through every
    conversion. *)
#[export] Instance sample_VariantOps : VariantOps := {|
  Variant := string;
  Variant_ParseFrom := fun s => s;
  Variant_ToBool := fun v => v;
  Variant_ToInt := fun v => v;
  Variant_ToReal := fun v => v;
  Variant_ToString := fun v => v
|}.

Definition sample_options : Options :=
  {| indent := "    "; prefix := "_"; warnings := false; blanks := true;
     lineMarks := false; dumpAST := false; preprocessOnly := false;
     keepComments := true |}.

Definition sample_argv : list string :=
  [ "xsc"; "-entry"; "VS"; "-target"; "vertex"; "a.hlsl"; "b.hlsl" ].

Definition int_literal (text : string) : LiteralExpr :=
  {| LiteralExpr_bufferedTypeDenoter_ := None;
     dataType := DataType.Int; value := text |}.

(** Sample declarations: a structure [Derived] with members [a], [c] over
    a base [Base] with members [a], [b]; and a function with a defaulted
    second parameter. *)
Definition sample_var (name sem : string) (init : option Expr) : VarDecl :=
  {| VarDecl_bufferedTypeDenoter_ := None; VarDecl_ident := name;
     arrayDims := []; semantic := sem; initializer := init |}.

Definition sample_stmnt (vars : list VarDecl) : VarDeclStmnt :=
  {| varType := SharedPtr 0 (BaseTypeDenoter DataType.Float);
     varDecls := vars; isInput := false; isOutput := false;
     isUniform := false |}.

Definition sample_base : StructDecl :=
  Build_StructDecl None "Base" None
    [ sample_stmnt [ sample_var "a" "base" None; sample_var "b" "base" None ] ].

Definition sample_derived : StructDecl :=
  Build_StructDecl None "Derived" (Some sample_base)
    [ sample_stmnt [ sample_var "a" "derived" None ];
      sample_stmnt [ sample_var "c" "derived" None ] ].

(** A structure whose only member redeclares [a] of its base. *)
Definition sample_hiding : StructDecl :=
  Build_StructDecl None "Hiding" (Some sample_base)
    [ sample_stmnt [ sample_var "a" "derived" None ] ].

Definition sample_function : FunctionDecl :=
  {| returnType := SharedPtr 0 (BaseTypeDenoter DataType.Float);
     FunctionDecl_ident := "f";
     parameters :=
       [ sample_stmnt [ sample_var "x" "" None ];
         sample_stmnt [ sample_var "y" ""
                          (Some (Literal (int_literal "1"))) ];
         sample_stmnt [ sample_var "z" "" None ] ] |}.

Definition sample_ident : VarIdent :=
  Build_VarIdent (Some (SharedPtr 0 (StructTypeDenoter 7))) "s" [] 
    (Some (Build_VarIdent None "pos" [Literal (int_literal "0")] None (Some 3)))
    (Some 2).

(* ================================================================= *)
(** ** Targets.h: the other enumerations *)

(** [enum class ShaderTarget]. *)
Inductive ShaderTarget : Type :=
| ShaderTarget_Undefined
| VertexShader
| TessellationControlShader
| TessellationEvaluationShader
| GeometryShader
| FragmentShader
| ComputeShader.

Definition ShaderTarget_eq_dec (a b : ShaderTarget) : {a = b} + {a <> b}.
Proof. decide equality. Defined.

Definition ShaderTarget_eqb (a b : ShaderTarget) : bool :=
  if ShaderTarget_eq_dec a b then true else false.

(** [enum class InputShaderVersion] and its enumerator values. *)
Inductive InputShaderVersion : Type := HLSL3 | HLSL4 | HLSL5.

Definition InputShaderVersion_value (v : InputShaderVersion) : Z :=
  match v with HLSL3 => 3 | HLSL4 => 4 | HLSL5 => 5 end%Z.

(* ================================================================= *)
(** ** src/Compiler/AST/AST.cpp: the remaining helpers *)

Section Registers.
(** [RegisterType] is declared in [ASTEnums.h]. *)
Context {RegisterType : Type}.

Record Register : Type := {
  registerType : RegisterType;
  slot : Z;
  Register_shaderTarget : ShaderTarget
}.

(** [Register::GetForTarget]. *)
Fixpoint GetForTarget (registers : list Register) (shaderTarget : ShaderTarget)
  : option Register :=
  match registers with
  | [] => None
  | slotRegister :: registers' =>
      if ShaderTarget_eqb (Register_shaderTarget slotRegister)
                          ShaderTarget_Undefined
         || ShaderTarget_eqb (Register_shaderTarget slotRegister) shaderTarget
      then Some slotRegister
      else GetForTarget registers' shaderTarget
  end.

(** The test of the loop in [Register::GetForTarget]. *)
Definition serves_target (shaderTarget : ShaderTarget) (r : Register) : bool :=
  ShaderTarget_eqb (Register_shaderTarget r) ShaderTarget_Undefined
  || ShaderTarget_eqb (Register_shaderTarget r) shaderTarget.
End Registers.
Arguments Register RegisterType : clear implicits.

(** [TypeDenoter.h]: [TypeDenoter::Equals]. *)
Class TypeDenoterEquals : Type := {
  Equals : TypeDenoter -> TypeDenoter -> bool
}.

Section More_declarations.
Context `{ASTEnums}.

(** The loop of [VarIdent::ToString]: [name] is the text so far, [ast] the
    segment the loop is at. *)
Fixpoint VarIdent_ToString_loop (ast : VarIdent) (name : string) : string :=
  match ast with
  | Build_VarIdent _ ident _ next _ =>
      let name := name ++ ident in
      match next with
      | Some n => VarIdent_ToString_loop n (name ++ ".")
      | None => name
      end
  end.

(** [VarIdent::ToString], as the loop computes it. *)
Definition VarIdent_ToString_while (v : VarIdent) : string :=
  VarIdent_ToString_loop v "".

(** [VarIdent::LastVarIdent]. *)
Fixpoint LastVarIdent (v : VarIdent) : VarIdent :=
  match v with
  | Build_VarIdent _ _ _ next _ =>
      match next with
      | Some n => LastVarIdent n
      | None => v
      end
  end.

(** The identifiers of a chain, first segment first. *)
Fixpoint segments (v : VarIdent) : list string :=
  match v with
  | Build_VarIdent _ ident _ next _ =>
      ident :: match next with
               | Some n => segments n
               | None => []
               end
  end.

(** [VarIdent::FirstConstVarIdent].  [symbol_IsConst ref] stands for the two
    calls on the symbol: [None] when [symbolRef->As<VarDecl>()] is null, and
    otherwise what [varDecl->declStmntRef->IsConst()] returns. *)
Fixpoint FirstConstVarIdent (symbol_IsConst : Handle -> option bool)
         (v : VarIdent) : option VarIdent :=
  match v with
  | Build_VarIdent _ _ _ next symbolRef =>
      match symbolRef with
      | Some ref =>
          match symbol_IsConst ref with
          | Some isConst =>
              if isConst then Some v
              else match next with
                   | Some n => FirstConstVarIdent symbol_IsConst n
                   | None => None
                   end
          | None => None
          end
      | None => None
      end
  end.

(** The chain as the list of its segments, each with the rest of the chain
    still attached. *)
Fixpoint chain (v : VarIdent) : list VarIdent :=
  match v with
  | Build_VarIdent _ _ _ next _ =>
      v :: match next with
           | Some n => chain n
           | None => []
           end
  end.

(** A segment refers to a variable that is constant, or is not. *)
Definition refers_to_variable (symbol_IsConst : Handle -> option bool)
           (isConst : bool) (v : VarIdent) : Prop :=
  exists ref, VarIdent_symbolRef v = Some ref /\
              symbol_IsConst ref = Some isConst.

(** The inner loop of [StructDecl::CollectMemberTypeDenoters]:
    [push_back] the statement's denoter once per declared variable. *)
Fixpoint push_back_times (count : nat) (typeDen : TypeDenoterPtr)
         (memberTypeDens : list TypeDenoterPtr) : list TypeDenoterPtr :=
  match count with
  | O => memberTypeDens
  | S count' => push_back_times count' typeDen (memberTypeDens ++ [typeDen])
  end.

(** [StructDecl::CollectMemberTypeDenoters], on the vector it appends to. *)
Fixpoint CollectMemberTypeDenoters (s : StructDecl)
         (memberTypeDens : list TypeDenoterPtr) : list TypeDenoterPtr :=
  match s with
  | Build_StructDecl _ _ base stmnts =>
      fold_left (fun acc member =>
                   push_back_times (List.length (varDecls member))
                                   (varType member) acc)
                stmnts
                (match base with
                 | Some b => CollectMemberTypeDenoters b memberTypeDens
                 | None => memberTypeDens
                 end)
  end.

(** [StructDecl::IsAnonymous] and [StructDecl::SignatureToString]. *)
Definition IsAnonymous (s : StructDecl) : bool :=
  string_empty (StructDecl_ident s).
Definition SignatureToString (s : StructDecl) : string :=
  "struct " ++ (if IsAnonymous s then "<anonymous>" else StructDecl_ident s).

(** [b] is [s] or one of the structures [s] inherits from. *)
Fixpoint inherits_from (s b : StructDecl) : Prop :=
  s = b \/
  match s with
  | Build_StructDecl _ _ (Some base) _ => inherits_from base b
  | Build_StructDecl _ _ None _ => False
  end.

Section Signatures.
Context `{TypeDenoterOps} `{TypeDenoterEquals}.

(** The loop of [FunctionDecl::EqualsSignature] over the parameters of both
    sides; the sizes are equal when it runs. *)
Fixpoint EqualsSignature_loop (lhs rhs : list VarDeclStmnt) : bool :=
  match lhs, rhs with
  | l :: lhs', r :: rhs' =>
      if negb (Equals (pointee_of (varType l)) (pointee_of (varType r)))
      then false
      else EqualsSignature_loop lhs' rhs'
  | _, _ => true
  end.

(** [FunctionDecl::EqualsSignature]. *)
Definition EqualsSignature (f rhs : FunctionDecl) : bool :=
  if negb (List.length (parameters f) =? List.length (parameters rhs))%nat
  then false
  else EqualsSignature_loop (parameters f) (parameters rhs).

(** [FunctionDecl::MatchParameterWithTypeDenoter]. *)
Definition MatchParameterWithTypeDenoter (f : FunctionDecl) (paramIndex : nat)
           (argType : TypeDenoter) (implicitConversion : bool) : bool :=
  match nth_error (parameters f) paramIndex with
  | None => false
  | Some param =>
      let paramTypeDen := pointee_of (varType param) in
      if negb (Equals argType paramTypeDen) then
        if implicitConversion then
          if negb (IsCastableTo argType paramTypeDen) then false else true
        else false
      else true
  end.
End Signatures.

End More_declarations.

(** Splitting a dotted name at its dots. *)
Fixpoint split_dots (s : string) : list string :=
  match s with
  | EmptyString => [ EmptyString ]
  | String c s' =>
      if Ascii.eqb c "."%char then EmptyString :: split_dots s'
      else match split_dots s' with
           | x :: xs => String c x :: xs
           | [] => [ String c EmptyString ]
           end
  end.

(** [c] does not occur in [s]. *)
Definition no_char (c : ascii) (s : string) : Prop := string_find c s = None.

(** The type denoters of all sub-expressions' memos, the node's own first. *)
Fixpoint memos `{ASTEnums} (e : Expr) : list (option TypeDenoterPtr) :=
  match e with
  | NullExpr buf => [ buf ]
  | ListExpr buf a b => buf :: (memos a ++ memos b)%list
  | Literal lit => [ LiteralExpr_bufferedTypeDenoter_ lit ]
  | TypeName tn => [ TypeNameExpr_bufferedTypeDenoter_ tn ]
  | TernaryExpr buf c t f => buf :: (memos c ++ memos t ++ memos f)%list
  | BinaryExpr buf l _ r => buf :: (memos l ++ memos r)%list
  | UnaryExpr buf _ x => buf :: memos x
  | PostUnaryExpr buf x _ => buf :: memos x
  | BracketExpr buf x => buf :: memos x
  | CastExpr buf t x => buf :: (memos t ++ memos x)%list
  | InitializerExpr buf xs =>
      buf :: (fix all (es : list Expr) : list (option TypeDenoterPtr) :=
                match es with
                | [] => []
                | x :: es' => (memos x ++ all es')%list
                end) xs
  end.

(** The expression with every memo emptied. *)
Fixpoint erase_memos `{ASTEnums} (e : Expr) : Expr :=
  match e with
  | NullExpr _ => NullExpr None
  | ListExpr _ a b => ListExpr None (erase_memos a) (erase_memos b)
  | Literal lit => Literal (LiteralExpr_set_buffered None lit)
  | TypeName tn =>
      TypeName {| TypeNameExpr_bufferedTypeDenoter_ := None;
                  typeDenoter := typeDenoter tn |}
  | TernaryExpr _ c t f =>
      TernaryExpr None (erase_memos c) (erase_memos t) (erase_memos f)
  | BinaryExpr _ l o r => BinaryExpr None (erase_memos l) o (erase_memos r)
  | UnaryExpr _ o x => UnaryExpr None o (erase_memos x)
  | PostUnaryExpr _ x o => PostUnaryExpr None (erase_memos x) o
  | BracketExpr _ x => BracketExpr None (erase_memos x)
  | CastExpr _ t x => CastExpr None (erase_memos t) (erase_memos x)
  | InitializerExpr _ xs =>
      InitializerExpr None
        ((fix all (es : list Expr) : list Expr :=
            match es with
            | [] => []
            | x :: es' => erase_memos x :: all es'
            end) xs)
  end.

(** A memo is filled or kept, never emptied or replaced. *)
Definition memo_kept (before after : option TypeDenoterPtr) : Prop :=
  before = None \/ before = after.

(** A literal's memo, when filled, is the base denoter of its data type. *)
Definition memo_consistent (lit : LiteralExpr) : Prop :=
  forall p, LiteralExpr_bufferedTypeDenoter_ lit = Some p ->
            pointee_of p = BaseTypeDenoter (dataType lit).

(* ================================================================= *)
(** ** tool/main.cpp: the string conversions of [Translate] *)

(** The shader targets main.cpp names ([HT/Translator.h] declares the
    enumeration; it is not among the sources). *)
Inductive CommandLineTarget : Type :=
| CommonShader
| GLSLVertexShader
| GLSLFragmentShader
| GLSLGeometryShader
| GLSLTessControlShader
| GLSLTessEvaluationShader
| GLSLComputeShader.

(** [TargetFromString]. *)
Definition TargetFromString (target : string) : outcome CommandLineTarget :=
  if string_empty target then Return CommonShader
  else if target =? "vertex" then Return GLSLVertexShader
  else if target =? "fragment" then Return GLSLFragmentShader
  else if target =? "geometry" then Return GLSLGeometryShader
  else if target =? "tess-control" then Return GLSLTessControlShader
  else if target =? "tess-evaluation" then Return GLSLTessEvaluationShader
  else if target =? "compute" then Return GLSLComputeShader
  else Throw ("invalid shader target " ++ dquote ++ target ++ dquote).

(** [InputVersionFromString], with the enumerators of Targets.h. *)
Definition InputVersionFromString (version : string)
  : outcome InputShaderVersion :=
  if version =? "HLSL3" then Return HLSL3
  else if version =? "HLSL4" then Return HLSL4
  else if version =? "HLSL5" then Return HLSL5
  else Throw ("invalid input shader version " ++ dquote ++ version ++ dquote).

(** [OutputVersionFromString].  main.cpp takes the enumerators from
    [HT/Translator.h], which is not among the sources; they are read as the
    enumerators of the same names in Targets.h. *)
Definition OutputVersionFromString (version : string)
  : outcome OutputShaderVersion :=
  if version =? "GLSL110" then Return GLSL110
  else if version =? "GLSL120" then Return GLSL120
  else if version =? "GLSL130" then Return GLSL130
  else if version =? "GLSL140" then Return GLSL140
  else if version =? "GLSL150" then Return GLSL150
  else if version =? "GLSL330" then Return GLSL330
  else if version =? "GLSL400" then Return GLSL400
  else if version =? "GLSL410" then Return GLSL410
  else if version =? "GLSL420" then Return GLSL420
  else if version =? "GLSL430" then Return GLSL430
  else if version =? "GLSL440" then Return GLSL440
  else if version =? "GLSL450" then Return GLSL450
  else Throw ("invalid output shader version " ++ dquote ++ version ++ dquote).

(** The message [NextArg] throws for [flag]. *)
Definition missing_argument (flag : string) : string :=
  "missing next argument after flag " ++ dquote ++ flag ++ dquote.

(** The last argument of a command line. *)
Definition last_argument (argv : list string) : string := last argv "".

(** The enumerator names of the versions, as Targets.h spells them. *)
Definition OutputShaderVersion_name (v : OutputShaderVersion) : string :=
  match v with
  | GLSL110 => "GLSL110" | GLSL120 => "GLSL120" | GLSL130 => "GLSL130"
  | GLSL140 => "GLSL140" | GLSL150 => "GLSL150" | GLSL330 => "GLSL330"
  | GLSL400 => "GLSL400" | GLSL410 => "GLSL410" | GLSL420 => "GLSL420"
  | GLSL430 => "GLSL430" | GLSL440 => "GLSL440" | GLSL450 => "GLSL450"
  | GLSL => "GLSL"
  | ESSL100 => "ESSL100" | ESSL300 => "ESSL300" | ESSL310 => "ESSL310"
  | ESSL320 => "ESSL320" | ESSL => "ESSL"
  | VKSL450 => "VKSL450" | VKSL => "VKSL"
  end.

Definition InputShaderVersion_name (v : InputShaderVersion) : string :=
  match v with HLSL3 => "HLSL3" | HLSL4 => "HLSL4" | HLSL5 => "HLSL5" end.

(** The words [TargetFromString] knows. *)
Definition CommandLineTarget_name (t : CommandLineTarget) : string :=
  match t with
  | CommonShader => ""
  | GLSLVertexShader => "vertex"
  | GLSLFragmentShader => "fragment"
  | GLSLGeometryShader => "geometry"
  | GLSLTessControlShader => "tess-control"
  | GLSLTessEvaluationShader => "tess-evaluation"
  | GLSLComputeShader => "compute"
  end.

Ltac split_ifs :=
  repeat match goal with
         | |- context [if ?c then _ else _] => destruct c eqn:?
         end.

(** More sample readings: denoters are equal when of the same kind, and
    the symbols 2 and 3 are a plain and a constant variable. *)
Definition denoter_kind (d : TypeDenoter) : nat :=
  match d with
  | BaseTypeDenoter _ => 0
  | ArrayTypeDenoter _ _ => 1
  | StructTypeDenoter _ => 2
  | BufferTypeDenoter _ => 3
  | SamplerTypeDenoter _ => 4
  | AliasTypeDenoter _ => 5
  end.

#[export] Instance sample_TypeDenoterEquals : TypeDenoterEquals := {|
  Equals := fun a b => Nat.eqb (denoter_kind a) (denoter_kind b)
|}.

Definition sample_symbol_IsConst (ref : Handle) : option bool :=
  match ref with
  | 2 => Some false
  | 3 => Some true
  | _ => None
  end.

(** What a derivation may do to the expression it runs on: fill memos, and
    take addresses from the allocator. *)
Definition only_memos_filled `{ASTEnums} (e : Expr) (h : Heap)
           (res : Derived Expr) : Prop :=
  erase_memos (snd (fst res)) = erase_memos e /\
  h <= snd res /\
  Forall2 memo_kept (memos e) (memos (snd (fst res))).

Ltac name_cases :=
  repeat match goal with
         | |- context [?s =? ?lit] =>
             destruct (String.eqb_spec s lit)
         end.

(* ================================================================= *)
(** ** src/Compiler/AST/AST.cpp: system values *)

Section System_values.
Context `{ASTEnums}.
(** [semantic.IsSystemValue()] on a declaration's semantic, and the flag
    [VarDecl::isSystemValue] of a declaration ([AST.h] and the semantic
    class are not among the sources). *)
Variable IsSystemValue : string -> bool.
Variable flag_isSystemValue : VarDecl -> bool.

(** The two loops of [StructDecl::HasNonSystemValueMembers] over the
    structure's own members. *)
Fixpoint has_non_system_value (vars : list VarDecl) : bool :=
  match vars with
  | [] => false
  | varDecl :: vars' =>
      if negb (IsSystemValue (semantic varDecl)) then true
      else has_non_system_value vars'
  end.

Fixpoint has_non_system_value_member (stmnts : list VarDeclStmnt) : bool :=
  match stmnts with
  | [] => false
  | member :: stmnts' =>
      if has_non_system_value (varDecls member) then true
      else has_non_system_value_member stmnts'
  end.

(** [StructDecl::HasNonSystemValueMembers]. *)
Fixpoint HasNonSystemValueMembers (s : StructDecl) : bool :=
  match s with
  | Build_StructDecl _ _ base stmnts =>
      if match base with
         | Some b => HasNonSystemValueMembers b
         | None => false
         end
      then true
      else has_non_system_value_member stmnts
  end.

(** [FunctionDecl::ParameterSemantics] and its [Add]; the argument is a
    pointer that may be null. *)
Record ParameterSemantics : Type := {
  varDeclRefs : list VarDecl;
  varDeclRefsSV : list VarDecl
}.

Definition ParameterSemantics_Add (varDecl : option VarDecl)
           (ps : ParameterSemantics) : ParameterSemantics :=
  match varDecl with
  | Some v =>
      if flag_isSystemValue v
      then {| varDeclRefs := varDeclRefs ps;
              varDeclRefsSV := (varDeclRefsSV ps ++ [v])%list |}
      else {| varDeclRefs := (varDeclRefs ps ++ [v])%list;
              varDeclRefsSV := varDeclRefsSV ps |}
  | None => ps
  end.

(** The declarations among some pointers, nulls dropped. *)
Fixpoint non_null (ptrs : list (option VarDecl)) : list VarDecl :=
  match ptrs with
  | [] => []
  | Some v :: ptrs' => v :: non_null ptrs'
  | None :: ptrs' => non_null ptrs'
  end.
End System_values.

(* ================================================================= *)
(** ** Properties: Targets.h *)

(** C7: every [OutputShaderVersion] value fits 32 bits and splits as
    family tag * 2^16 + numeric version, where the upper 16 bits are the tag
    of the family the enumerator is named after (0 for GLSL, 1 for ESSL, 2 for
    VKSL), the lower 16 bits are the version number in the enumerator's name,
    and the auto-detect enumerators GLSL, ESSL and VKSL (and only they) have
    exactly 0xFFFF in the lower 16 bits. *)
Theorem OutputShaderVersion_encoding :
  forall v : OutputShaderVersion,
    let x := OutputShaderVersion_value v in
    (0 <= x < 2 ^ 32)%Z /\
    x = (family_tag (family_of v) * 2 ^ 16 + version_number v)%Z /\
    upper16 x = family_tag (family_of v) /\
    lower16 x = version_number v /\
    (0 <= version_number v < 2 ^ 16)%Z /\
    (if is_auto_detect v
     then lower16 x = 0xFFFF%Z
     else (lower16 x < 0xFFFF)%Z).
Proof.
  intros v x; subst x.
  destruct v;
    cbv [OutputShaderVersion_value family_of family_tag is_auto_detect
         version_number upper16 lower16];
    repeat split; try reflexivity; intro Habs; discriminate Habs.
Qed.

(* ================================================================= *)
(** ** Properties: tool/main.cpp *)

(** The four ways through [BoolArg]. *)
Lemma BoolArg_step (i argc : nat) (argv : list string) (flag : string) :
  (argc <= i + 1 -> BoolArg i argc argv flag = (true, i)) /\
  (i + 1 < argc -> argv_at argv (i + 1) = "on" ->
   BoolArg i argc argv flag = (true, S i)) /\
  (i + 1 < argc -> argv_at argv (i + 1) = "off" ->
   BoolArg i argc argv flag = (false, S i)) /\
  (i + 1 < argc ->
   argv_at argv (i + 1) <> "on" -> argv_at argv (i + 1) <> "off" ->
   BoolArg i argc argv flag = (true, i)).
Proof.
  unfold BoolArg.
  destruct (Nat.ltb_spec (i + 1) argc) as [Hlt | Hge];
    [ destruct (String.eqb_spec (argv_at argv (i + 1)) "on") as [Hon | Hon];
      [ | destruct (String.eqb_spec (argv_at argv (i + 1)) "off")
            as [Hoff | Hoff] ] | ];
    repeat split; intros; try reflexivity; try lia; congruence.
Qed.

(** C9: [BoolArg] yields true when the flag is the last argument, yields true
    and leaves the index alone when the next argument is neither [on] nor
    [off], and steps over the next argument yielding true for [on] and false
    for [off]; so it yields false exactly on a following [off]. *)
Theorem BoolArg_cases :
  forall (i argc : nat) (argv : list string) (flag : string),
    (argc <= i + 1 -> BoolArg i argc argv flag = (true, i)) /\
    (i + 1 < argc -> argv_at argv (i + 1) = "on" ->
     BoolArg i argc argv flag = (true, S i)) /\
    (i + 1 < argc -> argv_at argv (i + 1) = "off" ->
     BoolArg i argc argv flag = (false, S i)) /\
    (i + 1 < argc ->
     argv_at argv (i + 1) <> "on" -> argv_at argv (i + 1) <> "off" ->
     BoolArg i argc argv flag = (true, i)) /\
    (fst (BoolArg i argc argv flag) = false <->
     i + 1 < argc /\ argv_at argv (i + 1) = "off").
Proof.
  intros i argc argv flag.
  destruct (BoolArg_step i argc argv flag) as (Hlast & Hon & Hoff & Hother).
  repeat (split; [ assumption | ]).
  destruct (Nat.lt_ge_cases (i + 1) argc) as [Hlt | Hge].
  - destruct (String.eqb_spec (argv_at argv (i + 1)) "off") as [Eoff | Eoff].
    + rewrite (Hoff Hlt Eoff). now split.
    + destruct (String.eqb_spec (argv_at argv (i + 1)) "on") as [Eon | Eon].
      * rewrite (Hon Hlt Eon). split; [ discriminate | ]. now intros [_ Habs].
      * rewrite (Hother Hlt Eon Eoff).
        split; [ discriminate | ]. now intros [_ Habs].
  - rewrite (Hlast Hge). split; [ discriminate | ]. intros [Hlt _]. lia.
Qed.

Lemma BoolArg_cases_witness :
  BoolArg 1 2 ["xsc"; "-warn"] "-warn" = (true, 1) /\
  BoolArg 1 3 ["xsc"; "-warn"; "on"] "-warn" = (true, 2) /\
  BoolArg 1 3 ["xsc"; "-warn"; "off"] "-warn" = (false, 2) /\
  BoolArg 1 3 ["xsc"; "-warn"; "a.hlsl"] "-warn" = (true, 1).
Proof.
  split; [ | split; [ | split ] ].
  - apply (proj1 (BoolArg_cases 1 2 ["xsc"; "-warn"] "-warn")). simpl. lia.
  - apply (proj1 (proj2 (BoolArg_cases 1 3 ["xsc"; "-warn"; "on"] "-warn"))).
    + simpl. lia.
    + reflexivity.
  - apply (proj1 (proj2 (proj2
             (BoolArg_cases 1 3 ["xsc"; "-warn"; "off"] "-warn")))).
    + simpl. lia.
    + reflexivity.
  - apply (proj1 (proj2 (proj2 (proj2
             (BoolArg_cases 1 3 ["xsc"; "-warn"; "a.hlsl"] "-warn"))))).
    + simpl. lia.
    + discriminate.
    + discriminate.
Defined.

(** *** The argument loop, branch by branch *)

Lemma loop_body_plain (i argc : nat) (argv : list string) (st : MainState) :
  is_plain_flag (argv_at argv i) = true ->
  exists st', loop_body i argc argv st = Return (st', i, []).
Proof.
  unfold is_plain_flag. intros Hflag.
  repeat (apply orb_true_iff in Hflag; destruct Hflag as [Hflag | Hflag]);
    apply String.eqb_eq in Hflag; unfold loop_body; rewrite Hflag; cbn;
    eexists; reflexivity.
Qed.

Lemma loop_body_bool (i argc : nat) (argv : list string) (st : MainState) :
  is_bool_flag (argv_at argv i) = true ->
  exists st',
    loop_body i argc argv st =
    Return (st', snd (BoolArg i argc argv (argv_at argv i)), []).
Proof.
  unfold is_bool_flag. intros Hflag.
  repeat (apply orb_true_iff in Hflag; destruct Hflag as [Hflag | Hflag]);
    apply String.eqb_eq in Hflag; unfold loop_body; rewrite Hflag; cbn;
    unfold bool_option;
    match goal with
    | |- context [BoolArg ?a ?b ?c ?d] => destruct (BoolArg a b c d)
    end; cbn; eexists; reflexivity.
Qed.

Lemma loop_body_valued (i argc : nat) (argv : list string) (st : MainState) :
  is_valued_flag (argv_at argv i) = true ->
  (S i < argc -> exists st', loop_body i argc argv st = Return (st', S i, [])) /\
  (argc <= S i -> exists w, loop_body i argc argv st = Throw w).
Proof.
  unfold is_valued_flag. intros Hflag.
  repeat (apply orb_true_iff in Hflag; destruct Hflag as [Hflag | Hflag]);
    apply String.eqb_eq in Hflag; unfold loop_body; rewrite Hflag; cbn;
    unfold valued_option, NextArg;
    (split; intros Hi;
     [ destruct (Nat.leb_spec argc (i + 1)); [ lia | eexists; reflexivity ]
     | destruct (Nat.leb_spec argc (i + 1)); [ eexists; reflexivity | lia ] ]).
Qed.

Lemma macro_flag_shape (arg : string) :
  is_macro_flag arg = true ->
  exists rest, arg = String "-" (String "D" rest).
Proof.
  unfold is_macro_flag. intros Hflag.
  apply andb_true_iff in Hflag. destruct Hflag as [_ Hpre].
  apply String.eqb_eq in Hpre.
  destruct arg as [ | a [ | b rest ] ]; simpl in Hpre; try discriminate Hpre.
  injection Hpre as Ha Hb. subst a b. now exists rest.
Qed.

Lemma loop_body_macro (i argc : nat) (argv : list string) (st : MainState) :
  is_macro_flag (argv_at argv i) = true ->
  exists st', loop_body i argc argv st = Return (st', i, []).
Proof.
  intros Hflag. destruct (macro_flag_shape _ Hflag) as [rest Harg].
  unfold loop_body. fold (is_macro_flag (argv_at argv i)).
  rewrite Hflag. rewrite Harg. cbn. eexists; reflexivity.
Qed.

Lemma loop_body_file (i argc : nat) (argv : list string) (st : MainState) :
  is_flag (argv_at argv i) = false ->
  loop_body i argc argv st =
  Return (fst (translate_branch (argv_at argv i) st), i,
          snd (translate_branch (argv_at argv i) st)).
Proof.
  unfold is_flag, is_plain_flag, is_bool_flag, is_valued_flag. intros Hflag.
  repeat match goal with
         | Hor : _ || _ = false |- _ =>
             apply orb_false_iff in Hor; destruct Hor
         end.
  unfold loop_body. fold (is_macro_flag (argv_at argv i)).
  repeat match goal with
         | Heq : _ = false |- _ => rewrite Heq; clear Heq
         end.
  cbn [orb]. destruct (translate_branch (argv_at argv i) st). reflexivity.
Qed.

Lemma skipn_argv_at (argv : list string) (i : nat) :
  i < List.length argv ->
  skipn i argv = argv_at argv i :: skipn (S i) argv.
Proof.
  revert i. induction argv as [ | a argv IH ]; intros i Hi; simpl in Hi.
  - lia.
  - destruct i as [ | i ]; [ reflexivity | ].
    change (skipn i argv = argv_at argv i :: skipn (S i) argv).
    apply IH. lia.
Qed.

Lemma skipn_beyond (argv : list string) (i : nat) :
  List.length argv <= i -> skipn i argv = [].
Proof. intros Hi. now apply skipn_all2. Qed.

Lemma is_flag_cases (arg : string) :
  is_flag arg =
  is_plain_flag arg || is_bool_flag arg || is_valued_flag arg || is_macro_flag arg.
Proof. reflexivity. Qed.

(** Started at any index with at least [argc - i] iterations allowed, the
    loop ends by itself and translates the positional files of the
    remaining arguments, in order. *)
Lemma for_loop_positional_files (argv : list string) :
  forall (fuel i : nat) (st : MainState),
    List.length argv - i <= fuel ->
    let r := for_loop fuel i (List.length argv) argv st in
    map tr_filename (translations r) = positional_files (skipn i argv) /\
    loop_end r <> OutOfFuel.
Proof.
  induction fuel as [ | fuel IH ]; intros i st Hfuel r; subst r.
  - simpl. destruct (Nat.ltb_spec i (List.length argv)); [ lia | ].
    rewrite skipn_beyond by assumption. simpl. split; [ reflexivity | discriminate ].
  - cbn [for_loop].
    destruct (Nat.ltb_spec i (List.length argv)) as [Hi | Hi].
    2:{ rewrite skipn_beyond by assumption. simpl.
        split; [ reflexivity | discriminate ]. }
    rewrite (skipn_argv_at argv i Hi). cbn [positional_files].
    destruct (is_valued_flag (argv_at argv i)) eqn:Hval.
    { destruct (loop_body_valued i (List.length argv) argv st Hval)
        as [Hnext Hlast].
      destruct (Nat.lt_ge_cases (S i) (List.length argv)) as [Hsi | Hsi].
      - destruct (Hnext Hsi) as [st' ->].
        rewrite (skipn_argv_at argv (S i) Hsi).
        destruct (IH (S (S i)) st') as [Hfiles Hend]; [ lia | ].
        cbn [add_translations translations loop_end app]. now split.
      - destruct (Hlast Hsi) as [w ->].
        rewrite skipn_beyond by assumption. simpl.
        split; [ reflexivity | discriminate ]. }
    destruct (is_bool_flag (argv_at argv i)) eqn:Hbool.
    { destruct (loop_body_bool i (List.length argv) argv st Hbool)
        as [st' ->].
      pose proof (BoolArg_step i (List.length argv) argv (argv_at argv i))
        as (Hlast & Hon & Hoff & Hother).
      rewrite Nat.add_1_r in Hlast, Hon, Hoff, Hother.
      destruct (Nat.lt_ge_cases (S i) (List.length argv)) as [Hsi | Hsi].
      - rewrite (skipn_argv_at argv (S i) Hsi).
        destruct (String.eqb_spec (argv_at argv (S i)) "on") as [Eon | Eon].
        + rewrite (Hon Hsi Eon). cbn [snd orb].
          destruct (IH (S (S i)) st') as [Hfiles Hend]; [ lia | ].
          cbn [add_translations translations loop_end app]. now split.
        + destruct (String.eqb_spec (argv_at argv (S i)) "off")
            as [Eoff | Eoff].
          * rewrite (Hoff Hsi Eoff). cbn [snd orb].
            destruct (IH (S (S i)) st') as [Hfiles Hend]; [ lia | ].
            cbn [add_translations translations loop_end app]. now split.
          * rewrite (Hother Hsi Eon Eoff). cbn [snd orb].
            destruct (IH (S i) st') as [Hfiles Hend]; [ lia | ].
            rewrite (skipn_argv_at argv (S i)) in Hfiles by lia.
            cbn [add_translations translations loop_end app]. now split.
      - rewrite Hlast by lia. cbn [snd].
        rewrite skipn_beyond by assumption.
        destruct (IH (S i) st') as [Hfiles Hend]; [ lia | ].
        rewrite skipn_beyond in Hfiles by assumption.
        cbn [add_translations translations loop_end app]. now split. }
    destruct (is_flag (argv_at argv i)) eqn:Hflag.
    { assert (Hstep : exists st',
                 loop_body i (List.length argv) argv st = Return (st', i, [])).
      { rewrite is_flag_cases, Hval, Hbool in Hflag.
        rewrite !orb_false_r in Hflag.
        apply orb_true_iff in Hflag. destruct Hflag as [Hplain | Hmacro].
        - now apply loop_body_plain.
        - now apply loop_body_macro. }
      destruct Hstep as [st' ->].
      destruct (IH (S i) st') as [Hfiles Hend]; [ lia | ].
      cbn [add_translations translations loop_end app]. now split. }
    rewrite (loop_body_file i (List.length argv) argv st Hflag).
    destruct (IH (S i) (fst (translate_branch (argv_at argv i) st)))
      as [Hfiles Hend]; [ lia | ].
    cbn [add_translations translations loop_end translate_branch snd app map
         tr_filename].
    split; [ now rewrite Hfiles | assumption ].
Qed.

(** When no argument is a flag, every argument is a positional file. *)
Lemma positional_files_no_flags (args : list string) :
  Forall (fun a => is_flag a = false) args -> positional_files args = args.
Proof.
  induction 1 as [ | a args Ha _ IH ]; [ reflexivity | ].
  cbn [positional_files]. rewrite Ha.
  rewrite is_flag_cases in Ha.
  repeat match goal with
         | Hor : _ || _ = false |- _ =>
             apply orb_false_iff in Hor; destruct Hor
         end.
  repeat match goal with
         | Heq : _ = false |- _ => rewrite Heq; clear Heq
         end.
  now rewrite IH.
Qed.

(** The per-file fields a translation starts from do not survive it. *)
Lemma translate_branch_forgets (arg e t o : string) (st : MainState) :
  fst (translate_branch arg
         (with_config (fun c => set_entry e (set_target t (set_output o c))) st))
  = fst (translate_branch arg st).
Proof.
  destruct st as [ [ce ct ci co cout cm [oi op ow ob ol od opp ok] ] n sh sv pa ].
  unfold translate_branch, with_config, incr_translationCounter,
    reset_translation_options, Translate_config.
  cbn [g_config translationCounter showHelp showVersion pauseApp fst
       set_entry set_target set_output entry target shaderIn shaderOut output
       predefinedMacros options].
  destruct (string_empty o), (string_empty cout), (string_empty t),
    (string_empty ct), (string_empty e), (string_empty ce);
    cbn [negb set_output set_options set_prefix set_entry set_target
         entry target shaderIn shaderOut output predefinedMacros options
         prefix indent warnings blanks lineMarks dumpAST preprocessOnly
         keepComments orb];
    destruct (op =? "<none>");
    cbn [negb set_output set_options set_prefix set_entry set_target
         entry target shaderIn shaderOut output predefinedMacros options
         prefix indent warnings blanks lineMarks dumpAST preprocessOnly
         keepComments orb];
    repeat match goal with
           | |- context [string_empty ?s] => destruct (string_empty s)
           end;
    reflexivity.
Qed.

(** C8: the argument loop translates every positional (non-flag) argument as
    an input file, in command-line order; translating one counts it and
    leaves [entry], [target] and [output] empty, so the values these fields
    had before a file do not reach the translations of the files after it. *)
Theorem main_translates_positional_files :
  forall (defaults : Options) (argv : list string),
    map tr_filename (translations (main defaults argv))
      = positional_files (tl argv) /\
    loop_end (main defaults argv) <> OutOfFuel /\
    (forall (i : nat) (st : MainState),
        is_flag (argv_at argv i) = false ->
        (exists st',
            loop_body i (List.length argv) argv st =
              Return (st', i,
                      [ {| tr_filename := argv_at argv i;
                           tr_config := Translate_config (argv_at argv i)
                                                         (g_config st) |} ]) /\
            translationCounter st' = S (translationCounter st) /\
            entry (g_config st') = "" /\
            target (g_config st') = "" /\
            output (g_config st') = "") /\
        (forall (fuel : nat) (e t o : string),
            tl (translations
                  (for_loop fuel i (List.length argv) argv
                     (with_config
                        (fun c => set_entry e (set_target t (set_output o c)))
                        st)))
            = tl (translations (for_loop fuel i (List.length argv) argv st)))).
Proof.
  intros defaults argv.
  destruct (for_loop_positional_files argv (List.length argv) 1
              (initial_state defaults)) as [Hfiles Hend]; [ lia | ].
  split; [ | split ].
  - unfold main. rewrite Hfiles. destruct argv; reflexivity.
  - exact Hend.
  - intros i st Hfile. split.
    + rewrite (loop_body_file i (List.length argv) argv st Hfile).
      eexists. split; [ reflexivity | ].
      repeat split.
    + intros fuel e t o.
      destruct fuel as [ | fuel ]; cbn [for_loop].
      * destruct (i <? List.length argv)%nat; reflexivity.
      * destruct (i <? List.length argv)%nat; [ | reflexivity ].
        rewrite !loop_body_file by assumption.
        rewrite translate_branch_forgets.
        reflexivity.
Qed.

Lemma main_translates_positional_files_witness :
  map tr_filename (translations (main sample_options sample_argv))
    = [ "a.hlsl"; "b.hlsl" ] /\
  is_flag (argv_at sample_argv 5) = false /\
  exists st',
    loop_body 5 (List.length sample_argv) sample_argv
              (with_config (fun c => set_entry "VS" (set_target "vertex" c))
                           (initial_state sample_options))
      = Return (st', 5,
                [ {| tr_filename := "a.hlsl";
                     tr_config :=
                       set_output "a.vertex.glsl"
                         (set_entry "VS"
                            (set_target "vertex"
                               (initial_config sample_options))) |} ]) /\
    translationCounter st' = 1 /\
    entry (g_config st') = "" /\
    target (g_config st') = "" /\
    output (g_config st') = "".
Proof.
  destruct (main_translates_positional_files sample_options sample_argv)
    as (Hfiles & _ & Hfile).
  split; [ exact Hfiles | ].
  split; [ reflexivity | ].
  exact (proj1 (Hfile 5 (with_config
                           (fun c => set_entry "VS" (set_target "vertex" c))
                           (initial_state sample_options))
                      eq_refl)).
Defined.

(** The sample command line, run: the second file starts from empty
    [entry], [target] and [output]. *)
Example main_sample_run :
  map (fun t => (tr_filename t, entry (tr_config t), target (tr_config t),
                 output (tr_config t)))
      (translations (main sample_options sample_argv))
  = [ ("a.hlsl", "VS", "vertex", "a.vertex.glsl");
      ("b.hlsl", "", "", "b.glsl") ] /\
  loop_end (main sample_options sample_argv) = Completed /\
  loop_end (main sample_options [ "xsc"; "a.hlsl"; "-entry" ])
  = ReturnedEarly ("missing next argument after flag " ++ dquote ++ "-entry"
                   ++ dquote).
Proof. repeat split. Qed.

(* ================================================================= *)
(** ** Properties: the type-denoter memo *)

Section TypedAST_memo.
Context {Node : Type} `{TypedAST Node}.

(** A call that returns a denoter leaves it in the memo. *)
Lemma GetTypeDenoter_fills (n n' : Node) (h h' : Heap) (p : TypeDenoterPtr) :
  GetTypeDenoter n h = (Return p, n', h') ->
  bufferedTypeDenoter_ n' = Some p.
Proof.
  unfold GetTypeDenoter, TypedAST_GetTypeDenoter.
  destruct (bufferedTypeDenoter_ n) as [q | ] eqn:Hbuf.
  - intros Hcall. injection Hcall as Hq Hn _. now subst.
  - destruct (DeriveTypeDenoter n h) as [[[q | w] n1] h1]; intros Hcall.
    + injection Hcall as Hq Hn _. subst.
      apply bufferedTypeDenoter_set.
    + discriminate Hcall.
Qed.

(** With the memo filled, the call returns it whatever the derivation would
    do: the derivation is not run. *)
Lemma GetTypeDenoter_hit (n : Node) (p : TypeDenoterPtr)
      (derive' : Node -> Heap -> Derived Node) (h : Heap) :
  bufferedTypeDenoter_ n = Some p ->
  TypedAST_GetTypeDenoter bufferedTypeDenoter_ set_bufferedTypeDenoter_
                          derive' n h = (Return p, n, h).
Proof.
  intros Hbuf. unfold TypedAST_GetTypeDenoter. now rewrite Hbuf.
Qed.

(** A call never empties a filled memo. *)
Lemma GetTypeDenoter_keeps (n : Node) (p : TypeDenoterPtr) (h : Heap) :
  bufferedTypeDenoter_ n = Some p ->
  GetTypeDenoter n h = (Return p, n, h).
Proof. intros Hbuf. now apply GetTypeDenoter_hit. Qed.

(** With the memo filled, any number of calls return the memoized instance
    and leave node and allocator alone. *)
Lemma GetTypeDenoter_times_hit (k : nat) (n : Node) (p : TypeDenoterPtr)
      (h : Heap) :
  bufferedTypeDenoter_ n = Some p ->
  GetTypeDenoter_times k n h = (repeat (Return p) k, n, h).
Proof.
  intros Hbuf. induction k as [ | k IH ]; [ reflexivity | ].
  cbn [GetTypeDenoter_times repeat].
  now rewrite (GetTypeDenoter_keeps n p h Hbuf), IH.
Qed.

(** In any run of calls, the calls that return all return one instance. *)
Lemma GetTypeDenoter_times_same (k : nat) :
  forall (n n2 : Node) (h h2 : Heap) (rs : list (outcome TypeDenoterPtr))
         (p q : TypeDenoterPtr),
    GetTypeDenoter_times k n h = (rs, n2, h2) ->
    In (Return p) rs -> In (Return q) rs -> p = q.
Proof.
  induction k as [ | k IH ]; intros n n2 h h2 rs p q Hrun Hp Hq.
  - cbn in Hrun. injection Hrun as <- _ _. contradiction.
  - cbn [GetTypeDenoter_times] in Hrun.
    destruct (GetTypeDenoter n h) as [[r n1] h1] eqn:Hcall.
    destruct r as [p0 | w].
    + rewrite (GetTypeDenoter_times_hit k n1 p0 h1
                 (GetTypeDenoter_fills n n1 h h1 p0 Hcall)) in Hrun.
      injection Hrun as <- _ _.
      change (In (Return p) (repeat (Return p0) (S k))) in Hp.
      change (In (Return q) (repeat (Return p0) (S k))) in Hq.
      apply repeat_spec in Hp. apply repeat_spec in Hq. congruence.
    + destruct (GetTypeDenoter_times k n1 h1) as [[rs' n3] h3] eqn:Hrest.
      injection Hrun as <- _ _.
      destruct Hp as [Hp | Hp]; [ discriminate Hp | ].
      destruct Hq as [Hq | Hq]; [ discriminate Hq | ].
      exact (IH n1 n3 h1 h3 rs' p q Hrest Hp Hq).
Qed.

Lemma ResetBufferedTypeDenoter_clears (n : Node) :
  bufferedTypeDenoter_ (ResetBufferedTypeDenoter n) = None.
Proof.
  unfold ResetBufferedTypeDenoter, TypedAST_ResetBufferedTypeDenoter.
  apply bufferedTypeDenoter_set.
Qed.

End TypedAST_memo.

Lemma DataType_eqb_eq (a b : DataType.t) : DataType.eqb a b = true <-> a = b.
Proof.
  unfold DataType.eqb. destruct (DataType.eq_dec a b); split;
    intros; try assumption; try reflexivity; try discriminate; contradiction.
Qed.

Lemma DataType_eqb_refl (a : DataType.t) : DataType.eqb a a = true.
Proof. now apply DataType_eqb_eq. Qed.

Lemma DataType_eqb_neq (a b : DataType.t) : DataType.eqb a b = false <-> a <> b.
Proof.
  unfold DataType.eqb. destruct (DataType.eq_dec a b); split;
    intros; try assumption; try reflexivity; try discriminate; contradiction.
Qed.

Section LiteralExpr_memo.
Context `{VariantOps}.

Lemma ConvertDataType_same (e : LiteralExpr) :
  ConvertDataType (dataType e) e = e.
Proof. unfold ConvertDataType. now rewrite DataType_eqb_refl. Qed.

Lemma ConvertDataType_other (type : DataType.t) (e : LiteralExpr) :
  type <> dataType e ->
  LiteralExpr_bufferedTypeDenoter_ (ConvertDataType type e) = None /\
  dataType (ConvertDataType type e) = type.
Proof.
  intros Hneq. unfold ConvertDataType.
  assert (Hb : DataType.eqb (dataType e) type = false)
    by (apply DataType_eqb_neq; congruence).
  rewrite Hb. cbn. now split.
Qed.

Lemma ConvertDataType_dataType (type : DataType.t) (e : LiteralExpr) :
  dataType (ConvertDataType type e) = type.
Proof.
  destruct (DataType.eq_dec type (dataType e)) as [-> | Hneq].
  - now rewrite ConvertDataType_same.
  - now apply ConvertDataType_other.
Qed.

End LiteralExpr_memo.

Section Derivation_counter_properties.
Context {Node : Type} `{TypedAST Node}.

(** A call on the counted node is the call on the node, and the counter
    goes up exactly when the call found the memo empty. *)
Lemma counted_GetTypeDenoter (n : Node) (c : nat) (h : Heap) :
  @GetTypeDenoter (Node * nat) counted_TypedAST (n, c) h
  = (let '(r, n1, h1) := GetTypeDenoter n h in
     (r, (n1, match bufferedTypeDenoter_ n with
              | Some _ => c
              | None => S c
              end), h1)).
Proof.
  unfold GetTypeDenoter, TypedAST_GetTypeDenoter.
  cbn [bufferedTypeDenoter_ set_bufferedTypeDenoter_ DeriveTypeDenoter
       counted_TypedAST counted_DeriveTypeDenoter fst snd].
  destruct (bufferedTypeDenoter_ n) as [p | ]; [ reflexivity | ].
  unfold counted_DeriveTypeDenoter. cbn [fst snd].
  destruct (DeriveTypeDenoter n h) as [[[p | w] n1] h1]; reflexivity.
Qed.

Lemma counted_times_hit (k : nat) (n : Node) (c : nat) (p : TypeDenoterPtr)
      (h : Heap) :
  bufferedTypeDenoter_ n = Some p ->
  GetTypeDenoter_times_counted k n c h = (repeat (Return p) k, (n, c), h).
Proof.
  intros Hbuf. unfold GetTypeDenoter_times_counted.
  apply (@GetTypeDenoter_times_hit (Node * nat) counted_TypedAST).
  exact Hbuf.
Qed.

Lemma count_throws_repeat (k : nat) (p : TypeDenoterPtr) :
  count_throws (repeat (Return p) k) = 0.
Proof. induction k as [ | k IH ]; [ reflexivity | exact IH ]. Qed.

(** A counted run is the run on the node, and it entered the derivation
    once for every call that threw and at most once more. *)
Lemma counted_run (k : nat) :
  forall (n n2 : Node) (c c2 : nat) (h h2 : Heap)
         (rs : list (outcome TypeDenoterPtr)),
    GetTypeDenoter_times_counted k n c h = (rs, (n2, c2), h2) ->
    GetTypeDenoter_times k n h = (rs, n2, h2) /\
    (c + count_throws rs <= c2 <= c + count_throws rs + 1)%nat.
Proof.
  induction k as [ | k IH ]; intros n n2 c c2 h h2 rs Hrun.
  - cbn in Hrun. injection Hrun as <- <- <- <-. cbn. split; [ reflexivity | lia ].
  - unfold GetTypeDenoter_times_counted in Hrun.
    cbn [GetTypeDenoter_times] in Hrun |- *.
    rewrite counted_GetTypeDenoter in Hrun.
    destruct (GetTypeDenoter n h) as [[r n1] h1] eqn:Hcall.
    destruct r as [p | w].
    + pose proof (GetTypeDenoter_fills n n1 h h1 p Hcall) as Hmemo.
      fold (GetTypeDenoter_times_counted k n1
              (match bufferedTypeDenoter_ n with
               | Some _ => c
               | None => S c
               end) h1) in Hrun.
      rewrite (counted_times_hit k n1 _ p h1 Hmemo) in Hrun.
      rewrite (GetTypeDenoter_times_hit k n1 p h1 Hmemo).
      injection Hrun as <- <- <- <-.
      split; [ reflexivity | ].
      change (count_throws (Return p :: repeat (Return p) k))
        with (count_throws (repeat (Return p) k)).
      rewrite count_throws_repeat.
      destruct (bufferedTypeDenoter_ n); lia.
    + assert (Hempty : bufferedTypeDenoter_ n = None).
      { revert Hcall. unfold GetTypeDenoter, TypedAST_GetTypeDenoter.
        destruct (bufferedTypeDenoter_ n); [ discriminate | reflexivity ]. }
      rewrite Hempty in Hrun.
      fold (GetTypeDenoter_times_counted k n1 (S c) h1) in Hrun.
      destruct (GetTypeDenoter_times_counted k n1 (S c) h1)
        as [[rs' [n3 c3]] h3] eqn:Hrest.
      injection Hrun as <- <- <- <-.
      destruct (IH n1 n3 (S c) c3 h1 h3 rs' Hrest) as (Hplain & Hcount).
      rewrite Hplain. split; [ reflexivity | ].
      cbn [count_throws]. lia.
Qed.

(** With the memo empty, the call is the derivation: what it returns is
    stored and returned, what it throws is thrown with nothing stored. *)
Lemma GetTypeDenoter_miss (n : Node) (h : Heap) :
  bufferedTypeDenoter_ n = None ->
  GetTypeDenoter n h =
    match DeriveTypeDenoter n h with
    | (Return p, n', h') => (Return p, set_bufferedTypeDenoter_ (Some p) n', h')
    | (Throw w, n', h') => (Throw w, n', h')
    end.
Proof.
  intros Hbuf. unfold GetTypeDenoter, TypedAST_GetTypeDenoter.
  now rewrite Hbuf.
Qed.

End Derivation_counter_properties.

(** C1 as the code has it.  With the memo filled, [GetTypeDenoter] returns
    the memoized instance whatever the derivation would do, and leaves node
    and allocator alone; with the memo empty it is [DeriveTypeDenoter]: a
    denoter that returns is stored in the memo and returned, a throw is
    passed on with nothing stored.  So after a call that returned, every
    later call returns that instance and enters no derivation; in any run
    of calls the calls that return all return one instance, and the
    derivation is entered once for every call that throws and at most once
    more.  The memo is emptied by [ResetBufferedTypeDenoter], and among the
    calls on a literal with a filled memo exactly by
    [ResetBufferedTypeDenoter] and by [ConvertDataType] to a type other
    than the literal's; [ConvertDataType] to the literal's own type leaves
    the literal as it is. *)
Theorem GetTypeDenoter_memo :
  forall (Node : Type) (T : TypedAST Node) (V : VariantOps)
         (n : Node) (h : Heap) (lit : LiteralExpr),
    (forall p derive',
        bufferedTypeDenoter_ n = Some p ->
        TypedAST_GetTypeDenoter bufferedTypeDenoter_ set_bufferedTypeDenoter_
                                derive' n h = (Return p, n, h)) /\
    (bufferedTypeDenoter_ n = None ->
     GetTypeDenoter n h =
       match DeriveTypeDenoter n h with
       | (Return p, n', h') =>
           (Return p, set_bufferedTypeDenoter_ (Some p) n', h')
       | (Throw w, n', h') => (Throw w, n', h')
       end) /\
    (forall p n' h',
        GetTypeDenoter n h = (Return p, n', h') ->
        bufferedTypeDenoter_ n' = Some p /\
        forall k c h2,
          GetTypeDenoter_times_counted k n' c h2
          = (repeat (Return p) k, (n', c), h2)) /\
    (forall k c rs n2 c2 h2,
        GetTypeDenoter_times_counted k n c h = (rs, (n2, c2), h2) ->
        GetTypeDenoter_times k n h = (rs, n2, h2) /\
        (forall p1 p2, In (Return p1) rs -> In (Return p2) rs -> p1 = p2) /\
        (c + count_throws rs <= c2 <= c + count_throws rs + 1)%nat) /\
    bufferedTypeDenoter_ (ResetBufferedTypeDenoter n) = None /\
    (bufferedTypeDenoter_ lit <> None ->
     forall (c : LiteralExpr_call) (h2 : Heap),
       bufferedTypeDenoter_ (fst (LiteralExpr_run c lit h2)) = None <->
       c = Call_ResetBufferedTypeDenoter \/
       exists type, c = Call_ConvertDataType type /\ type <> dataType lit) /\
    ConvertDataType (dataType lit) lit = lit.
Proof.
  intros Node T V n h lit.
  split; [ intros p derive' Hbuf; now apply GetTypeDenoter_hit | ].
  split; [ apply GetTypeDenoter_miss | ].
  split.
  { intros p n' h' Hcall.
    pose proof (GetTypeDenoter_fills n n' h h' p Hcall) as Hmemo.
    split; [ exact Hmemo | ].
    intros k c h2. now apply counted_times_hit. }
  split.
  { intros k c rs n2 c2 h2 Hrun.
    destruct (counted_run k n n2 c c2 h h2 rs Hrun) as (Hplain & Hcount).
    split; [ exact Hplain | ]. split; [ | exact Hcount ].
    intros p1 p2. exact (GetTypeDenoter_times_same k n n2 h h2 rs p1 p2 Hplain). }
  split; [ apply ResetBufferedTypeDenoter_clears | ].
  split; [ | apply ConvertDataType_same ].
  intros Hfilled c h2.
  destruct (bufferedTypeDenoter_ lit) as [q | ] eqn:Hlit;
    [ clear Hfilled | now elim Hfilled ].
  destruct c as [ | | type | ]; cbn [LiteralExpr_run fst].
  - rewrite (GetTypeDenoter_keeps lit q h2 Hlit). cbn [fst].
    rewrite Hlit. split; [ discriminate | ].
    intros [Hc | [type [Hc _]]]; discriminate Hc.
  - split; [ now left | intros _; apply ResetBufferedTypeDenoter_clears ].
  - destruct (DataType.eq_dec type (dataType lit)) as [-> | Hneq].
    + rewrite ConvertDataType_same, Hlit. split; [ discriminate | ].
      intros [Hc | [type [Hc Hneq]]]; [ discriminate Hc | ].
      injection Hc as <-. now elim Hneq.
    + split.
      * intros _. right. now exists type.
      * intros _. now apply ConvertDataType_other.
  - rewrite Hlit. split; [ discriminate | ].
    intros [Hc | [type [Hc _]]]; discriminate Hc.
Qed.

Lemma GetTypeDenoter_memo_witness :
  let n := int_literal "1" in
  let p := SharedPtr 0 (BaseTypeDenoter DataType.Int) in
  let n' := LiteralExpr_set_buffered (Some p) n in
  GetTypeDenoter n 0 = (Return p, n', 1) /\
  GetTypeDenoter_times_counted 2 n' 0 1 = ([Return p; Return p], (n', 0), 1) /\
  GetTypeDenoter_times_counted 3 n 0 0
    = ([Return p; Return p; Return p], (n', 1), 1) /\
  bufferedTypeDenoter_ (ConvertDataType DataType.Float n') = None.
Proof.
  intros n p n'.
  pose proof (GetTypeDenoter_memo LiteralExpr LiteralExpr_TypedAST
                sample_VariantOps n 0 n')
    as (_ & Hmiss & Hfilled & _ & _ & Hclear & _).
  assert (Hcall : GetTypeDenoter n 0 = (Return p, n', 1)).
  { rewrite (Hmiss eq_refl). reflexivity. }
  split; [ exact Hcall | ].
  split; [ exact (proj2 (Hfilled p n' 1 Hcall) 2 0 1) | ].
  split; [ reflexivity | ].
  assert (Hn' : bufferedTypeDenoter_ n' <> None) by discriminate.
  apply (proj2 (Hclear Hn' (Call_ConvertDataType DataType.Float) 0)).
  right. exists DataType.Float. split; [ reflexivity | discriminate ].
Defined.

(** C1 as stated fails for a node whose derivation throws: an initializer
    with no elements never gets a memo, so three calls of [GetTypeDenoter]
    on it enter its derivation three times and throw three times. *)
Lemma GetTypeDenoter_rederives_counterexample :
  let n := InitializerExpr None [] in
  GetTypeDenoter_times_counted 3 n 0 0
  = ([Throw initializer_error; Throw initializer_error;
      Throw initializer_error], (n, 3), 0).
Proof. intros n. reflexivity. Qed.

(** C6: converting a literal to a type twice in a row leaves it as converting
    it once does (data type, text and memo alike): after the first call the
    literal's data type is the requested one, so the second call changes
    nothing. *)
Theorem ConvertDataType_idempotent :
  forall (V : VariantOps) (type : DataType.t) (e : LiteralExpr),
    dataType (ConvertDataType type e) = type /\
    ConvertDataType type (ConvertDataType type e) = ConvertDataType type e.
Proof.
  intros V type e. split; [ apply ConvertDataType_dataType | ].
  rewrite <- (ConvertDataType_dataType type e) at 1.
  apply ConvertDataType_same.
Qed.

(* ================================================================= *)
(** ** Properties: type derivation of expressions *)

Section Expr_derivation.
Context `{ASTEnums} `{TypeDenoterOps}.

(** [x->GetTypeDenoter()] on a sub-expression, as the derivations use it. *)
Lemma Expr_GetTypeDenoter_unfold (x : Expr) (h : Heap) :
  GetTypeDenoter x h =
  TypedAST_GetTypeDenoter Expr_bufferedTypeDenoter_ Expr_set_buffered
                          Expr_DeriveTypeDenoter x h.
Proof. reflexivity. Qed.

Lemma UnaryExpr_derive (buf : option TypeDenoterPtr) (op : UnaryOp)
      (x : Expr) (h : Heap) :
  Expr_DeriveTypeDenoter (UnaryExpr buf op x) h =
  match GetTypeDenoter x h with
  | (Return typeDen, x', h1) =>
      if IsLogicalOp op
      then (Return (SharedPtr h1 (BaseTypeDenoter DataType.Bool)),
            UnaryExpr buf op x', S h1)
      else (Return typeDen, UnaryExpr buf op x', h1)
  | (Throw w, x', h1) => (Throw w, UnaryExpr buf op x', h1)
  end.
Proof.
  rewrite Expr_GetTypeDenoter_unfold. cbn [Expr_DeriveTypeDenoter].
  destruct (TypedAST_GetTypeDenoter _ _ _ x h) as [[[typeDen | w] x'] h1];
    [ destruct (IsLogicalOp op) | ]; reflexivity.
Qed.

Lemma PostUnaryExpr_derive (buf : option TypeDenoterPtr) (x : Expr)
      (op : UnaryOp) (h : Heap) :
  Expr_DeriveTypeDenoter (PostUnaryExpr buf x op) h =
  let '(r, x', h1) := GetTypeDenoter x h in (r, PostUnaryExpr buf x' op, h1).
Proof. reflexivity. Qed.

Lemma InitializerExpr_derive (buf : option TypeDenoterPtr) (front : Expr)
      (others : list Expr) (h : Heap) :
  Expr_DeriveTypeDenoter (InitializerExpr buf (front :: others)) h =
  match GetTypeDenoter front h with
  | (Return frontTypeDen, front', h1) =>
      (Return (SharedPtr h1 (ArrayTypeDenoter frontTypeDen [None])),
       InitializerExpr buf (front' :: others), S h1)
  | (Throw w, front', h1) =>
      (Throw w, InitializerExpr buf (front' :: others), h1)
  end.
Proof.
  rewrite Expr_GetTypeDenoter_unfold. cbn [Expr_DeriveTypeDenoter].
  destruct (TypedAST_GetTypeDenoter _ _ _ front h)
    as [[[frontTypeDen | w] front'] h1]; reflexivity.
Qed.

Lemma NumElements_flat (buf : option TypeDenoterPtr) (exprs : list Expr) :
  NumElements (InitializerExpr buf exprs) = list_sum (map element_count exprs).
Proof.
  cbn [NumElements].
  enough (Hloop : forall es n,
             (fix loop (es : list Expr) (n : nat) {struct es} : nat :=
                match es with
                | [] => n
                | x :: es' =>
                    match x with
                    | InitializerExpr _ _ => loop es' (n + NumElements x)
                    | _ => loop es' (n + 1)
                    end
                end) es n = n + list_sum (map element_count es))
    by (rewrite Hloop; reflexivity).
  induction es as [ | x es IH ]; intros n.
  - cbn. lia.
  - change (list_sum (map element_count (x :: es)))
      with (element_count x + list_sum (map element_count es)).
    destruct x; cbn [element_count]; rewrite IH; lia.
Qed.

End Expr_derivation.

(** C5 as the code has it: when the operand's [GetTypeDenoter] returns a
    denoter, a [UnaryExpr] derives a new [Base(bool)] for a logical operator
    and the operand's denoter otherwise, while a [PostUnaryExpr] derives the
    operand's denoter whatever its operator is; when the operand's
    [GetTypeDenoter] throws, both throw the same. *)
Theorem unary_type_derivation :
  forall (E : ASTEnums) (O : TypeDenoterOps)
         (buf : option TypeDenoterPtr) (op : UnaryOp) (x x' : Expr)
         (h h1 : Heap) (r : outcome TypeDenoterPtr),
    GetTypeDenoter x h = (r, x', h1) ->
    Expr_DeriveTypeDenoter (UnaryExpr buf op x) h =
      match r with
      | Return typeDen =>
          if IsLogicalOp op
          then (Return (SharedPtr h1 (BaseTypeDenoter DataType.Bool)),
                UnaryExpr buf op x', S h1)
          else (Return typeDen, UnaryExpr buf op x', h1)
      | Throw w => (Throw w, UnaryExpr buf op x', h1)
      end /\
    Expr_DeriveTypeDenoter (PostUnaryExpr buf x op) h =
      (r, PostUnaryExpr buf x' op, h1).
Proof.
  intros E O buf op x x' h h1 r Hoperand.
  rewrite UnaryExpr_derive, PostUnaryExpr_derive, Hoperand.
  destruct r; split; reflexivity.
Qed.

Lemma unary_type_derivation_witness :
  let x := Literal (int_literal "1") in
  let int := SharedPtr 0 (BaseTypeDenoter DataType.Int) in
  let x' := Literal (LiteralExpr_set_buffered (Some int) (int_literal "1")) in
  Expr_DeriveTypeDenoter (UnaryExpr None LogicalNot x) 0 =
    (Return (SharedPtr 1 (BaseTypeDenoter DataType.Bool)),
     UnaryExpr None LogicalNot x', 2) /\
  Expr_DeriveTypeDenoter (PostUnaryExpr None x Inc) 0 =
    (Return int, PostUnaryExpr None x' Inc, 1).
Proof.
  intros x int x'. split.
  - exact (proj1 (unary_type_derivation sample_ASTEnums sample_TypeDenoterOps
                    None LogicalNot x x' 0 1 (Return int) eq_refl)).
  - exact (proj2 (unary_type_derivation sample_ASTEnums sample_TypeDenoterOps
                    None Inc x x' 0 1 (Return int) eq_refl)).
Defined.

(** C5 as stated fails: a [PostUnaryExpr] with a logical operator over an
    [int] literal derives the literal's [Base(int)], not [Base(bool)]. *)
Lemma PostUnaryExpr_logical_counterexample :
  let x := Literal (int_literal "1") in
  let int := SharedPtr 0 (BaseTypeDenoter DataType.Int) in
  IsLogicalOp LogicalNot = true /\
  fst (fst (Expr_DeriveTypeDenoter (PostUnaryExpr None x LogicalNot) 0))
    = Return int /\
  pointee_of int <> BaseTypeDenoter DataType.Bool.
Proof.
  intros x int. split; [ reflexivity | ]. split; [ reflexivity | ].
  discriminate.
Qed.

(** C4 as the code has it: an initializer with no elements throws; otherwise
    the derivation asks the first element for its type, throws what that
    throws, and else returns a new array denoter over the first element's
    denoter with one unspecified dimension.  [NumElements] is the sum of the
    elements' counts, a nested initializer counting by its own elements. *)
Theorem InitializerExpr_type_derivation :
  forall (E : ASTEnums) (O : TypeDenoterOps)
         (buf : option TypeDenoterPtr) (front front' : Expr)
         (others : list Expr) (h h1 : Heap) (r : outcome TypeDenoterPtr),
    GetTypeDenoter front h = (r, front', h1) ->
    Expr_DeriveTypeDenoter (InitializerExpr buf []) h =
      (Throw initializer_error, InitializerExpr buf [], h) /\
    Expr_DeriveTypeDenoter (InitializerExpr buf (front :: others)) h =
      match r with
      | Return frontTypeDen =>
          (Return (SharedPtr h1 (ArrayTypeDenoter frontTypeDen [None])),
           InitializerExpr buf (front' :: others), S h1)
      | Throw w => (Throw w, InitializerExpr buf (front' :: others), h1)
      end /\
    NumElements (InitializerExpr buf (front :: others)) =
      list_sum (map element_count (front :: others)).
Proof.
  intros E O buf front front' others h h1 r Hfront.
  split; [ reflexivity | ].
  split; [ | apply NumElements_flat ].
  rewrite InitializerExpr_derive, Hfront. destruct r; reflexivity.
Qed.

Lemma InitializerExpr_type_derivation_witness :
  let one := Literal (int_literal "1") in
  let int := SharedPtr 0 (BaseTypeDenoter DataType.Int) in
  let one' := Literal (LiteralExpr_set_buffered (Some int) (int_literal "1")) in
  let nested := InitializerExpr None [one; one] in
  Expr_DeriveTypeDenoter (InitializerExpr None [one; nested]) 0 =
    (Return (SharedPtr 1 (ArrayTypeDenoter int [None])),
     InitializerExpr None [one'; nested], 2) /\
  NumElements (InitializerExpr None [one; nested]) = 3.
Proof.
  intros one int one' nested.
  destruct (InitializerExpr_type_derivation
              sample_ASTEnums sample_TypeDenoterOps
              None one one' [nested] 0 1 (Return int) eq_refl)
    as (_ & Hderive & Hcount).
  split; [ exact Hderive | exact Hcount ].
Defined.

(** C4 as stated fails twice: an initializer whose only element is an empty
    initializer is not empty, yet its derivation throws; and initializers
    with one and with two elements derive the same array denoter, with one
    unspecified dimension, so the denoter does not carry the element
    count. *)
Lemma InitializerExpr_counterexample :
  let one := Literal (int_literal "1") in
  let two := Literal (int_literal "2") in
  let int := SharedPtr 0 (BaseTypeDenoter DataType.Int) in
  let array := SharedPtr 1 (ArrayTypeDenoter int [None]) in
  fst (fst (Expr_DeriveTypeDenoter
              (InitializerExpr None [InitializerExpr None []]) 0))
    = Throw initializer_error /\
  NumElements (InitializerExpr None [one]) = 1 /\
  NumElements (InitializerExpr None [one; two]) = 2 /\
  fst (fst (Expr_DeriveTypeDenoter (InitializerExpr None [one]) 0))
    = Return array /\
  fst (fst (Expr_DeriveTypeDenoter (InitializerExpr None [one; two]) 0))
    = Return array.
Proof.
  intros one two int array. repeat split; reflexivity.
Qed.

(* ================================================================= *)
(** ** Properties: identifiers and declarations *)

Section Declaration_properties.
Context `{ASTEnums}.

(** Induction along the chain of base structures. *)
Lemma StructDecl_chain_ind (P : StructDecl -> Prop) :
  (forall buf ident stmnts, P (Build_StructDecl buf ident None stmnts)) ->
  (forall buf ident base stmnts,
      P base -> P (Build_StructDecl buf ident (Some base) stmnts)) ->
  forall s, P s.
Proof.
  intros Hroot Hderived. fix IH 1.
  intros [buf ident [base | ] stmnts].
  - apply Hderived. apply IH.
  - apply Hroot.
Qed.

Lemma find_append {A : Type} (f : A -> bool) (l1 l2 : list A) :
  find f (l1 ++ l2)%list =
  match find f l1 with
  | Some x => Some x
  | None => find f l2
  end.
Proof.
  induction l1 as [ | a l1 IH ]; [ reflexivity | ].
  cbn. destruct (f a); [ reflexivity | exact IH ].
Qed.

Lemma VarDeclStmnt_Fetch_find (stmnt : VarDeclStmnt) (name : string) :
  VarDeclStmnt_Fetch stmnt name = find (has_ident name) (varDecls stmnt).
Proof.
  unfold VarDeclStmnt_Fetch.
  induction (varDecls stmnt) as [ | v vars IH ]; [ reflexivity | ].
  cbn. unfold has_ident at 1.
  destruct (VarDecl_ident v =? name); [ reflexivity | exact IH ].
Qed.

Lemma StructDecl_Fetch_members_find (stmnts : list VarDeclStmnt) (name : string) :
  StructDecl_Fetch_members stmnts name =
  find (has_ident name) (flat_map varDecls stmnts).
Proof.
  induction stmnts as [ | stmnt stmnts IH ]; [ reflexivity | ].
  cbn [StructDecl_Fetch_members flat_map].
  rewrite find_append, VarDeclStmnt_Fetch_find, IH. reflexivity.
Qed.

Lemma StructDecl_Fetch_find (s : StructDecl) (name : string) :
  StructDecl_Fetch s name = find (has_ident name) (all_members s).
Proof.
  induction s as [buf ident stmnts | buf ident base stmnts IH]
    using StructDecl_chain_ind;
    cbn [StructDecl_Fetch all_members].
  - apply StructDecl_Fetch_members_find.
  - rewrite find_append, IH, StructDecl_Fetch_members_find. reflexivity.
Qed.

(** What [find] finds is the first match. *)
Lemma find_first {A : Type} (f : A -> bool) (l : list A) :
  match find f l with
  | Some x =>
      exists before after,
        l = (before ++ x :: after)%list /\ f x = true /\
        Forall (fun y => f y = false) before
  | None => Forall (fun y => f y = false) l
  end.
Proof.
  induction l as [ | a l IH ]; cbn.
  - constructor.
  - destruct (f a) eqn:Hfa.
    + exists [], l. repeat split; [ assumption | constructor ].
    + destruct (find f l) as [x | ].
      * destruct IH as (before & after & -> & Hx & Hbefore).
        exists (a :: before), after.
        repeat split; [ assumption | now constructor ].
      * now constructor.
Qed.

Lemma NumMinArgs_loop_spec (params : list VarDeclStmnt) (n : nat) :
  exists k,
    NumMinArgs_loop params n = n + k /\
    k <= List.length params /\
    Forall (fun p => has_default_argument p = false) (firstn k params) /\
    match nth_error params k with
    | Some p => has_default_argument p = true
    | None => k = List.length params
    end.
Proof.
  revert n. induction params as [ | param params IH ]; intros n.
  - exists 0. cbn. split; [ lia | ]. split; [ lia | ].
    split; [ constructor | reflexivity ].
  - cbn [NumMinArgs_loop].
    destruct (has_default_argument param) eqn:Hdefault.
    + exists 0. cbn. split; [ lia | ]. split; [ lia | ].
      split; [ constructor | assumption ].
    + destruct (IH (S n)) as (k & Hloop & Hk & Hbefore & Hat).
      exists (S k). cbn [List.length firstn nth_error].
      split; [ lia | ]. split; [ lia | ].
      split; [ now constructor | ].
      destruct (nth_error params k); [ assumption | lia ].
Qed.

Lemma has_default_argument_carries (param : VarDeclStmnt) :
  has_default_argument param = true <-> carries_initializer param.
Proof.
  unfold has_default_argument, carries_initializer.
  destruct (varDecls param) as [ | front others ].
  - split; [ discriminate | ].
    intros (f & o & i & Habs & _). discriminate Habs.
  - destruct (initializer front) as [init | ] eqn:Hinit.
    + split; [ | reflexivity ].
      intros _. now exists front, others, init.
    + split; [ discriminate | ].
      intros (f & o & i & Hcons & Hi). injection Hcons as <- <-.
      rewrite Hinit in Hi. discriminate Hi.
Qed.

End Declaration_properties.

(** C2: [StructDecl::Fetch] searches the members of the base chain first and
    then the structure's own member statements in declaration order; it
    returns the first declaration with the identifier, and null exactly when
    no member of the base chain or of the structure has it. *)
Theorem StructDecl_Fetch_first_match :
  forall (E : ASTEnums) (s : StructDecl) (name : string),
    all_members s =
      (match baseStructRef s with
       | Some base => all_members base
       | None => []
       end ++ flat_map varDecls (members s))%list /\
    match StructDecl_Fetch s name with
    | Some v =>
        VarDecl_ident v = name /\
        exists before after,
          all_members s = (before ++ v :: after)%list /\
          Forall (fun u => VarDecl_ident u <> name) before
    | None => Forall (fun u => VarDecl_ident u <> name) (all_members s)
    end /\
    (StructDecl_Fetch s name = None <->
     forall v, In v (all_members s) -> VarDecl_ident v <> name).
Proof.
  intros E s name.
  split; [ destruct s as [buf ident [base | ] stmnts]; reflexivity | ].
  rewrite StructDecl_Fetch_find.
  pose proof (find_first (has_ident name) (all_members s)) as Hfirst.
  assert (Hneq : forall l : list VarDecl,
             Forall (fun y => has_ident name y = false) l ->
             Forall (fun u => VarDecl_ident u <> name) l).
  { intros l. apply Forall_impl. intros u Hu. now apply String.eqb_neq. }
  destruct (find (has_ident name) (all_members s)) as [v | ].
  - destruct Hfirst as (before & after & Hsplit & Hv & Hbefore).
    split; [ split | ].
    + now apply String.eqb_eq.
    + exists before, after. split; [ assumption | now apply Hneq ].
    + split; [ discriminate | ].
      intros Hnone. exfalso. apply (Hnone v).
      * rewrite Hsplit. apply in_elt.
      * now apply String.eqb_eq.
  - split; [ now apply Hneq | ].
    split; [ | reflexivity ].
    intros _. apply Forall_forall. now apply Hneq.
Qed.

Lemma StructDecl_Fetch_first_match_witness :
  StructDecl_Fetch sample_derived "a" = Some (sample_var "a" "base" None) /\
  StructDecl_Fetch sample_derived "c" = Some (sample_var "c" "derived" None) /\
  StructDecl_Fetch sample_derived "d" = None.
Proof.
  split; [ reflexivity | ]. split; [ reflexivity | ].
  apply (proj2 (proj2 (StructDecl_Fetch_first_match
                         sample_ASTEnums sample_derived "d"))).
  intros v Hin. cbn in Hin.
  repeat (destruct Hin as [<- | Hin]; [ discriminate | ]).
  contradiction.
Defined.

(** C3: [NumMinArgs] is the index of the first parameter whose first
    variable declaration carries an initializer, and the number of
    parameters when there is none; [NumMaxArgs] is the number of parameters;
    so [NumMinArgs] is at most [NumMaxArgs]. *)
Theorem NumMinArgs_first_default :
  forall (E : ASTEnums) (f : FunctionDecl),
    NumMaxArgs f = List.length (parameters f) /\
    NumMinArgs f <= NumMaxArgs f /\
    Forall (fun p => ~ carries_initializer p)
           (firstn (NumMinArgs f) (parameters f)) /\
    match nth_error (parameters f) (NumMinArgs f) with
    | Some p => carries_initializer p
    | None => NumMinArgs f = List.length (parameters f)
    end /\
    (Forall (fun p => ~ carries_initializer p) (parameters f) ->
     NumMinArgs f = List.length (parameters f)).
Proof.
  intros E f. unfold NumMinArgs, NumMaxArgs.
  destruct (NumMinArgs_loop_spec (parameters f) 0)
    as (k & -> & Hk & Hbefore & Hat).
  cbn [Nat.add].
  split; [ reflexivity | ]. split; [ exact Hk | ]. split; [ | split ].
  - revert Hbefore. apply Forall_impl. intros p Hp Hcarries.
    apply has_default_argument_carries in Hcarries. congruence.
  - destruct (nth_error (parameters f) k) as [p | ];
      [ now apply has_default_argument_carries | exact Hat ].
  - intros Hnone.
    destruct (nth_error (parameters f) k) as [p | ] eqn:Hnth; [ | exact Hat ].
    exfalso. apply nth_error_In in Hnth.
    rewrite Forall_forall in Hnone. apply (Hnone p Hnth).
    now apply has_default_argument_carries.
Qed.

Lemma NumMinArgs_first_default_witness :
  NumMinArgs sample_function = 1 /\
  NumMaxArgs sample_function = 3 /\
  NumMinArgs sample_function <= NumMaxArgs sample_function.
Proof.
  split; [ reflexivity | ]. split; [ reflexivity | ].
  exact (proj1 (proj2 (NumMinArgs_first_default
                         sample_ASTEnums sample_function))).
Defined.

(** C10: [PopFront] leaves a [VarIdent] without a next segment exactly as it
    is, every field included; with a next segment it takes that segment's
    identifier, array indices, next link and symbol reference (and keeps its
    own memo); so it changes the node only when a next segment exists. *)
Theorem PopFront_frame :
  forall (E : ASTEnums) (v : VarIdent),
    (VarIdent_next v = None -> PopFront v = v) /\
    (forall n, VarIdent_next v = Some n ->
               VarIdent_ident (PopFront v) = VarIdent_ident n /\
               VarIdent_arrayIndices (PopFront v) = VarIdent_arrayIndices n /\
               VarIdent_next (PopFront v) = VarIdent_next n /\
               VarIdent_symbolRef (PopFront v) = VarIdent_symbolRef n /\
               VarIdent_bufferedTypeDenoter_ (PopFront v)
                 = VarIdent_bufferedTypeDenoter_ v) /\
    (PopFront v <> v -> exists n, VarIdent_next v = Some n).
Proof.
  intros E v. unfold PopFront.
  destruct (VarIdent_next v) as [n | ] eqn:Hnext.
  - split; [ discriminate | ]. split.
    + intros n' Hn'. injection Hn' as <-. repeat split.
    + intros _. now exists n.
  - split; [ reflexivity | ]. split.
    + intros n Hn. discriminate Hn.
    + intros Hchanged. now elim Hchanged.
Qed.

Lemma PopFront_frame_witness :
  PopFront (Build_VarIdent None "pos" [] None (Some 3))
    = Build_VarIdent None "pos" [] None (Some 3) /\
  VarIdent_ident (PopFront sample_ident) = "pos" /\
  VarIdent_symbolRef (PopFront sample_ident) = Some 3.
Proof.
  split.
  - apply (proj1 (PopFront_frame sample_ASTEnums
                    (Build_VarIdent None "pos" [] None (Some 3)))).
    reflexivity.
  - destruct (proj1 (proj2 (PopFront_frame sample_ASTEnums sample_ident))
                _ eq_refl) as (Hident & _ & _ & Hsym & _).
    split; [ exact Hident | exact Hsym ].
Defined.

(* ================================================================= *)
(** ** More properties: strings of the command line *)

Lemma string_length_append (s t : string) :
  String.length (s ++ t) = String.length s + String.length t.
Proof. induction s as [ | c s IH ]; cbn; [ reflexivity | now rewrite IH ]. Qed.

Lemma string_append_assoc (s t u : string) : (s ++ t) ++ u = s ++ (t ++ u).
Proof. induction s as [ | c s IH ]; cbn; [ reflexivity | now rewrite IH ]. Qed.

Lemma string_append_empty_r (s : string) : s ++ "" = s.
Proof. induction s as [ | c s IH ]; cbn; [ reflexivity | now rewrite IH ]. Qed.

Lemma substring_whole (s : string) : substring 0 (String.length s) s = s.
Proof. induction s as [ | c s IH ]; cbn; [ reflexivity | now rewrite IH ]. Qed.

Lemma substring_prefix (s t : string) :
  substring 0 (String.length s) (s ++ t) = s.
Proof.
  induction s as [ | c s IH ]; cbn.
  - destruct t; reflexivity.
  - now rewrite IH.
Qed.

Lemma substring_skip (s t : string) (n m : nat) :
  substring (String.length s + n) m (s ++ t) = substring n m t.
Proof. induction s as [ | c s IH ]; cbn; [ reflexivity | exact IH ]. Qed.

Lemma substring_suffix (s t : string) :
  substring (String.length s) (String.length t) (s ++ t) = t.
Proof.
  rewrite <- (Nat.add_0_r (String.length s)), substring_skip.
  apply substring_whole.
Qed.

Lemma string_find_append_miss (c : ascii) (s t : string) :
  no_char c s ->
  string_find c (s ++ t) =
  match string_find c t with
  | Some n => Some (String.length s + n)
  | None => None
  end.
Proof.
  unfold no_char. induction s as [ | d s IH ]; cbn.
  - intros _. destruct (string_find c t); reflexivity.
  - destruct (Ascii.eqb d c); [ discriminate | ].
    destruct (string_find c s); [ discriminate | ].
    intros _. rewrite IH by reflexivity.
    destruct (string_find c t); reflexivity.
Qed.

Lemma string_find_last_of_none (c : ascii) (s : string) :
  no_char c s -> string_find_last_of c s = None.
Proof.
  unfold no_char. induction s as [ | d s IH ]; cbn; [ reflexivity | ].
  destruct (Ascii.eqb d c); [ discriminate | ].
  destruct (string_find c s); [ discriminate | ].
  intros _. now rewrite IH.
Qed.

Lemma string_find_last_of_append (c : ascii) (s t : string) :
  no_char c t ->
  string_find_last_of c (s ++ String c t) = Some (String.length s).
Proof.
  intros Ht. induction s as [ | d s IH ]; cbn.
  - rewrite (string_find_last_of_none c t Ht), Ascii.eqb_refl. reflexivity.
  - now rewrite IH.
Qed.

Lemma string_empty_iff (s : string) : string_empty s = true <-> s = "".
Proof. destruct s; cbn; split; congruence. Qed.

Lemma string_empty_append_r (s t : string) :
  string_empty t = false -> string_empty (s ++ t) = false.
Proof. destruct s; cbn; [ trivial | reflexivity ]. Qed.

(** X1: [PredefinedMacroArg] takes [-D<ident>=<value>] apart into the
    identifier and the value when the value is not empty; a trailing [=]
    with nothing after it stays part of the identifier; without [=] the
    whole rest is the identifier and the value is empty. *)
Theorem PredefinedMacroArg_parts :
  forall ident val : string,
    no_char "="%char ident ->
    (val <> "" ->
     PredefinedMacroArg ("-D" ++ ident ++ "=" ++ val)
     = {| macro_ident := ident; macro_value := val |}) /\
    PredefinedMacroArg ("-D" ++ ident ++ "=")
    = {| macro_ident := ident ++ "="; macro_value := "" |} /\
    PredefinedMacroArg ("-D" ++ ident)
    = {| macro_ident := ident; macro_value := "" |}.
Proof.
  intros ident val Hident.
  assert (Hfind : forall rest,
             string_find "="%char ("-D" ++ ident ++ "=" ++ rest)
             = Some (2 + String.length ident)).
  { intros rest. change ("-D" ++ ident ++ "=" ++ rest)
      with (String "-" (String "D" (ident ++ String "=" rest))).
    cbn [string_find]. change (Ascii.eqb "-" "=") with false.
    change (Ascii.eqb "D" "=") with false. cbn iota.
    rewrite (string_find_append_miss "="%char ident _ Hident).
    cbn [string_find]. rewrite Ascii.eqb_refl, Nat.add_0_r. reflexivity. }
  assert (Hfrom : forall rest, substr_from 2 ("-D" ++ rest) = rest).
  { intros rest. unfold substr_from. cbn [append String.length Nat.sub substring].
    rewrite Nat.sub_0_r. apply substring_whole. }
  split; [ | split ].
  - intros Hval. unfold PredefinedMacroArg. rewrite Hfind.
    assert (Hlen : String.length ("-D" ++ ident ++ "=" ++ val)
                   = 3 + String.length ident + String.length val).
    { cbn [append String.length]. rewrite string_length_append.
      cbn [String.length]. lia. }
    rewrite Hlen.
    destruct val as [ | c val ]; [ now elim Hval | ].
    destruct (Nat.ltb_spec (2 + String.length ident + 1)
                (3 + String.length ident + String.length (String c val)))
      as [_ | Hge]; [ | cbn [String.length] in Hge; lia ].
    f_equal.
    + replace (2 + String.length ident - 2) with (String.length ident) by lia.
      cbn [append substring]. apply substring_prefix.
    + unfold substr_from. rewrite Hlen.
      replace (3 + String.length ident + String.length (String c val)
               - (2 + String.length ident + 1))
        with (String.length (String c val)) by lia.
      change ("-D" ++ ident ++ "=" ++ String c val)
        with ("-D" ++ (ident ++ "=" ++ String c val)).
      rewrite <- (string_append_assoc ident "=" (String c val)).
      rewrite <- (string_append_assoc "-D" (ident ++ "=") (String c val)).
      replace (2 + String.length ident + 1)
        with (String.length ("-D" ++ (ident ++ "="))).
      * apply substring_suffix.
      * cbn [append String.length]. rewrite string_length_append.
        cbn [String.length]. lia.
  - unfold PredefinedMacroArg.
    pose proof (Hfind "") as Hhere.
    change ("-D" ++ ident ++ "=" ++ "") with ("-D" ++ ident ++ "=") in Hhere.
    rewrite Hhere.
    destruct (Nat.ltb_spec (2 + String.length ident + 1)
                (String.length ("-D" ++ ident ++ "="))) as [Hlt | _].
    + cbn [append String.length] in Hlt. rewrite string_length_append in Hlt.
      cbn [String.length] in Hlt. lia.
    + now rewrite (Hfrom (ident ++ "=")).
  - unfold PredefinedMacroArg.
    assert (Hnone : string_find "="%char ("-D" ++ ident) = None).
    { change ("-D" ++ ident) with (String "-" (String "D" ident)).
      cbn [string_find]. change (Ascii.eqb "-" "=") with false.
      change (Ascii.eqb "D" "=") with false. cbn iota.
      unfold no_char in Hident. now rewrite Hident. }
    now rewrite Hnone, Hfrom.
Qed.

Lemma PredefinedMacroArg_parts_witness :
  PredefinedMacroArg "-DFOO=1" = {| macro_ident := "FOO"; macro_value := "1" |} /\
  PredefinedMacroArg "-DFOO=" = {| macro_ident := "FOO="; macro_value := "" |} /\
  PredefinedMacroArg "-DFOO" = {| macro_ident := "FOO"; macro_value := "" |}.
Proof.
  destruct (PredefinedMacroArg_parts "FOO" "1" eq_refl) as (Hfull & Hcut & Hbare).
  split; [ apply Hfull; discriminate | ]. split; [ exact Hcut | exact Hbare ].
Defined.

Lemma substring_is_prefix (n : nat) (s : string) :
  String.prefix (substring 0 n s) s = true.
Proof.
  revert n. induction s as [ | c s IH ]; intros [ | n ]; cbn; try reflexivity.
  destruct (ascii_dec c c) as [_ | Hneq]; [ apply IH | now elim Hneq ].
Qed.

(** X2: [ExtractFilename] cuts a name at its last dot: a name with an
    extension loses the dot and the extension, a name without a dot is
    returned whole, and the result is always a prefix of the name. *)
Theorem ExtractFilename_cuts_last_dot :
  forall base ext name : string,
    no_char "."%char ext ->
    no_char "."%char name ->
    ExtractFilename (base ++ "." ++ ext) = base /\
    ExtractFilename name = name /\
    String.prefix (ExtractFilename (base ++ "." ++ ext ++ name))
                  (base ++ "." ++ ext ++ name) = true.
Proof.
  intros base ext name Hext Hname. split; [ | split ].
  - unfold ExtractFilename.
    change (base ++ "." ++ ext) with (base ++ String "." ext).
    rewrite (string_find_last_of_append "."%char base ext Hext).
    apply substring_prefix.
  - unfold ExtractFilename.
    now rewrite (string_find_last_of_none "."%char name Hname).
  - unfold ExtractFilename.
    destruct (string_find_last_of "." (base ++ "." ++ ext ++ name)).
    + apply substring_is_prefix.
    + apply String.prefix_correct. apply substring_whole.
Qed.

Lemma ExtractFilename_cuts_last_dot_witness :
  ExtractFilename "shaders/a.v2.hlsl" = "shaders/a.v2" /\
  ExtractFilename "Makefile" = "Makefile".
Proof.
  destruct (ExtractFilename_cuts_last_dot "shaders/a.v2" "hlsl" "Makefile"
              eq_refl eq_refl) as (Hcut & Hwhole & _).
  split; [ exact Hcut | exact Hwhole ].
Defined.

Lemma string_eqb_empty_none : ("" =? "<none>") = false.
Proof. reflexivity. Qed.

(** X3: after the configuration step of [Translate] the output name is never
    empty (a given one is kept), [entry] and [target] are both empty or both
    set, the prefix is not the word [<none>], the versions and macros are
    untouched, and running the step again changes nothing. *)
Theorem Translate_config_normalizes :
  forall (filename : string) (c : Config),
    let c' := Translate_config filename c in
    string_empty (output c') = false /\
    (if string_empty (output c) then True else output c' = output c) /\
    string_empty (entry c') = string_empty (target c') /\
    (prefix (options c') =? "<none>") = false /\
    shaderIn c' = shaderIn c /\
    shaderOut c' = shaderOut c /\
    predefinedMacros c' = predefinedMacros c /\
    Translate_config filename c' = c'.
Proof.
  intros filename
         [ce ct ci co cout cm [oi op ow ob ol od opp ok]] c'; subst c'.
  unfold Translate_config.
  cbn [entry target shaderIn shaderOut output predefinedMacros options].
  destruct (string_empty cout) eqn:Hout;
    destruct (string_empty ct) eqn:Htarget;
    destruct (op =? "<none>") eqn:Hprefix;
    destruct (string_empty ce) eqn:Hentry;
    repeat (progress
              (cbn [negb orb set_output set_options set_prefix set_entry
                    set_target entry target shaderIn shaderOut output
                    predefinedMacros options prefix indent warnings blanks
                    lineMarks dumpAST preprocessOnly keepComments
                    string_empty];
               rewrite ?Hout, ?Htarget, ?Hprefix, ?Hentry,
                 ?string_eqb_empty_none, ?string_empty_append_r
                 by reflexivity));
    repeat split; reflexivity.
Qed.

(* ================================================================= *)
(** ** More properties: the argument loop *)

(** One pass through the loop body keeps the index inside the arguments,
    moves it by at most one, and counts exactly the translations it made. *)
Lemma loop_body_step (i argc : nat) (argv : list string)
      (st st' : MainState) (i' : nat) (trs : list Translation) :
  i < argc ->
  loop_body i argc argv st = Return (st', i', trs) ->
  i <= i' /\ i' <= S i /\ i' < argc /\
  translationCounter st' = translationCounter st + List.length trs /\
  List.length trs <= 1.
Proof.
  intros Hi. unfold loop_body, bool_option, valued_option, BoolArg, NextArg,
    translate_branch.
  split_ifs; intros Hbody; try discriminate Hbody;
    injection Hbody as <- <- <-;
    repeat match goal with
           | Hlt : (_ <? _)%nat = true |- _ => apply Nat.ltb_lt in Hlt
           | Hle : (_ <=? _)%nat = false |- _ => apply Nat.leb_gt in Hle
           end;
    cbn [translationCounter with_option with_config set_showHelp
         set_showVersion set_pauseApp incr_translationCounter List.length];
    repeat split; lia.
Qed.

(** The loop body throws only from [NextArg]: at a valued flag that is the
    last argument. *)
Lemma loop_body_throws (i argc : nat) (argv : list string)
      (st : MainState) (w : string) :
  loop_body i argc argv st = Throw w ->
  is_valued_flag (argv_at argv i) = true /\ argc <= i + 1 /\
  w = missing_argument (argv_at argv i).
Proof.
  unfold loop_body, bool_option, valued_option, BoolArg, NextArg,
    translate_branch, is_valued_flag, missing_argument.
  split_ifs; intros Hbody; try discriminate Hbody;
    injection Hbody as <-;
    match goal with
    | Hle : (_ <=? _)%nat = true |- _ => apply Nat.leb_le in Hle
    end;
    (split; [ | split; [ assumption | reflexivity ] ]);
    repeat match goal with
           | Heq : (_ =? _) = _ |- _ => rewrite Heq; clear Heq
           end;
    reflexivity.
Qed.

Lemma argv_at_last (argv : list string) (j : nat) :
  S j = List.length argv -> argv_at argv j = last_argument argv.
Proof.
  unfold argv_at, last_argument. revert j.
  induction argv as [ | a argv IH ]; intros j Hj; [ discriminate Hj | ].
  destruct argv as [ | b argv ].
  - cbn in Hj. injection Hj as ->. reflexivity.
  - destruct j as [ | j ]; [ discriminate Hj | ].
    change (nth j (b :: argv) "" = last (b :: argv) "").
    apply IH. cbn in *. lia.
Qed.

Lemma for_loop_invariants (argv : list string) :
  forall (fuel i : nat) (st : MainState),
    let r := for_loop fuel i (List.length argv) argv st in
    translationCounter (final_state r)
      = translationCounter st + List.length (translations r) /\
    (forall w, loop_end r = ReturnedEarly w ->
               is_valued_flag (last_argument argv) = true /\
               w = missing_argument (last_argument argv)).
Proof.
  induction fuel as [ | fuel IH ]; intros i st r; subst r; cbn [for_loop].
  - destruct (i <? List.length argv)%nat; cbn;
      (split; [ lia | intros w Habs; discriminate Habs ]).
  - destruct (Nat.ltb_spec i (List.length argv)) as [Hi | Hi].
    2:{ cbn. split; [ lia | intros w Habs; discriminate Habs ]. }
    destruct (loop_body i (List.length argv) argv st)
      as [[[st' i'] trs] | w0] eqn:Hbody.
    + destruct (loop_body_step _ _ _ _ _ _ _ Hi Hbody)
        as (_ & _ & _ & Hcount & _).
      destruct (IH (S i') st') as [Hrest Hearly].
      cbn [add_translations final_state translations loop_end].
      rewrite length_app. split; [ lia | exact Hearly ].
    + destruct (loop_body_throws _ _ _ _ _ Hbody) as (Hflag & Hlast & ->).
      cbn [final_state translations loop_end List.length].
      split; [ lia | ].
      intros w Hw. injection Hw as <-.
      rewrite <- (argv_at_last argv i) by lia. now split.
Qed.

(** X4: whenever the loop body returns, the index it leaves is still inside
    the arguments and at most one further, it made at most one translation,
    and [translationCounter] went up by the number of translations. *)
Theorem loop_body_in_bounds :
  forall (i argc : nat) (argv : list string)
         (st st' : MainState) (i' : nat) (trs : list Translation),
    i < argc ->
    loop_body i argc argv st = Return (st', i', trs) ->
    i <= i' /\ i' <= S i /\ i' < argc /\
    translationCounter st' = translationCounter st + List.length trs /\
    List.length trs <= 1.
Proof. exact loop_body_step. Qed.

Lemma loop_body_in_bounds_witness :
  let st := initial_state sample_options in
  exists st',
    loop_body 1 7 sample_argv st = Return (st', 2, []) /\
    translationCounter st' = translationCounter st + 0.
Proof.
  intros st. eexists. split; [ reflexivity | ].
  exact (proj1 (proj2 (proj2 (proj2
           (loop_body_in_bounds 1 7 sample_argv st _ 2 []
              ltac:(lia) eq_refl))))).
Defined.

(** X5: at the end of the argument loop [translationCounter] is the number
    of translations made, and the loop returns early only when the last
    argument is a valued flag with nothing after it, with [NextArg]'s
    message for that flag. *)
Theorem main_counts_translations :
  forall (defaults : Options) (argv : list string),
    translationCounter (final_state (main defaults argv))
      = List.length (translations (main defaults argv)) /\
    match loop_end (main defaults argv) with
    | ReturnedEarly w =>
        is_valued_flag (last_argument argv) = true /\
        w = missing_argument (last_argument argv)
    | Completed => True
    | OutOfFuel => False
    end.
Proof.
  intros defaults argv. unfold main.
  destruct (for_loop_invariants argv (List.length argv) 1
              (initial_state defaults)) as [Hcount Hearly].
  split; [ exact Hcount | ].
  destruct (for_loop_positional_files argv (List.length argv) 1
              (initial_state defaults)) as [_ Hend]; [ lia | ].
  destruct (loop_end (for_loop (List.length argv) 1 (List.length argv) argv
                        (initial_state defaults))) as [ | w | ].
  - exact I.
  - now apply Hearly.
  - now elim Hend.
Qed.

(* ================================================================= *)
(** ** More properties: the string conversions *)

(** X6: the command line's version words are exactly the enumerator names:
    [OutputVersionFromString] returns a version for its name and only for
    the explicit GLSL versions (never an auto-detect, ESSL or VKSL one),
    [InputVersionFromString] returns a version exactly for its name, and
    the configuration's default versions are accepted. *)
Theorem version_names_accepted :
  forall (s : string) (v : OutputShaderVersion) (u : InputShaderVersion)
         (defaults : Options),
    (OutputVersionFromString s = Return v <->
     family_of v = FamilyGLSL /\ is_auto_detect v = false /\
     s = OutputShaderVersion_name v) /\
    (InputVersionFromString s = Return u <-> s = InputShaderVersion_name u) /\
    OutputVersionFromString (shaderOut (initial_config defaults))
      = Return GLSL330 /\
    InputVersionFromString (shaderIn (initial_config defaults))
      = Return HLSL5.
Proof.
  intros s v u defaults. split; [ | split; [ | split; reflexivity ] ].
  - split.
    + unfold OutputVersionFromString. name_cases; intros Hv;
        try discriminate Hv; injection Hv as <-; subst s;
        repeat split.
    + intros (Hfamily & Hauto & ->).
      destruct v; try discriminate Hfamily; try discriminate Hauto;
        reflexivity.
  - split.
    + unfold InputVersionFromString. name_cases; intros Hu;
        try discriminate Hu; injection Hu as <-; subst s; reflexivity.
    + intros ->. destruct u; reflexivity.
Qed.

Lemma version_names_accepted_witness :
  OutputVersionFromString "GLSL450" = Return GLSL450 /\
  (forall v, OutputVersionFromString "ESSL300" <> Return v).
Proof.
  split.
  - apply (proj1 (version_names_accepted "GLSL450" GLSL450 HLSL5
                    sample_options)).
    repeat split.
  - intros v Hv.
    apply (proj1 (version_names_accepted "ESSL300" v HLSL5 sample_options))
      in Hv.
    destruct Hv as (Hfamily & _ & Hname).
    destruct v; try discriminate Hfamily; discriminate Hname.
Defined.

(** X7: [TargetFromString] returns a target exactly for its word, with the
    empty word for [CommonShader]; and since [Translate] empties [target]
    when [entry] or [target] is empty, the target it converts is
    [CommonShader] then, so a wrong target word is reported only together
    with an entry point. *)
Theorem TargetFromString_after_Translate :
  forall (s filename : string) (t : CommandLineTarget) (c : Config),
    (TargetFromString s = Return t <-> s = CommandLineTarget_name t) /\
    TargetFromString (target (Translate_config filename c)) =
      (if string_empty (entry c) || string_empty (target c)
       then Return CommonShader
       else TargetFromString (target c)).
Proof.
  intros s filename t c. split.
  - split.
    + unfold TargetFromString.
      destruct s as [ | a s ]; cbn [string_empty].
      * intros Ht. injection Ht as <-. reflexivity.
      * name_cases; intros Ht; try discriminate Ht; injection Ht as <-;
          assumption.
    + intros ->. destruct t; reflexivity.
  - destruct c as [ce ct ci co cout cm [oi op ow ob ol od opp ok]].
    unfold Translate_config.
    cbn [entry target shaderIn shaderOut output predefinedMacros options].
    destruct (string_empty cout) eqn:Hout;
      destruct (string_empty ct) eqn:Htarget;
      destruct (op =? "<none>") eqn:Hprefix;
      destruct (string_empty ce) eqn:Hentry;
      repeat (progress
                (cbn [negb orb set_output set_options set_prefix set_entry
                      set_target entry target shaderIn shaderOut output
                      predefinedMacros options prefix];
                 rewrite ?Hout, ?Htarget, ?Hprefix, ?Hentry));
      try reflexivity;
      unfold TargetFromString; now rewrite Htarget.
Qed.

Lemma TargetFromString_after_Translate_witness :
  TargetFromString "tess-control" = Return GLSLTessControlShader /\
  TargetFromString
    (target (Translate_config "a.hlsl"
               (set_target "pixel" (initial_config sample_options))))
  = Return CommonShader.
Proof.
  split.
  - apply (proj1 (TargetFromString_after_Translate
                    "tess-control" "a.hlsl" GLSLTessControlShader
                    (initial_config sample_options))).
    reflexivity.
  - exact (proj2 (TargetFromString_after_Translate
                    "" "a.hlsl" CommonShader
                    (set_target "pixel" (initial_config sample_options)))).
Defined.

(* ================================================================= *)
(** ** More properties: Targets.h *)

(** X8: the [OutputShaderVersion] values identify the enumerator, order the
    families (every GLSL value is below every ESSL value, every ESSL value
    below every VKSL value), and inside a family the auto-detect enumerator
    has the largest value. *)
Theorem OutputShaderVersion_value_order :
  forall v w : OutputShaderVersion,
    (OutputShaderVersion_value v = OutputShaderVersion_value w -> v = w) /\
    ((family_tag (family_of v) < family_tag (family_of w))%Z ->
     (OutputShaderVersion_value v < OutputShaderVersion_value w)%Z) /\
    (family_of v = family_of w -> is_auto_detect w = true ->
     (OutputShaderVersion_value v <= OutputShaderVersion_value w)%Z).
Proof.
  intros v w.
  destruct v, w;
    (split; [ | split ]); intros;
    try reflexivity; try discriminate; try (cbv in *; congruence).
Qed.

Lemma OutputShaderVersion_value_order_witness :
  (OutputShaderVersion_value GLSL450 < OutputShaderVersion_value ESSL100)%Z /\
  (OutputShaderVersion_value ESSL320 <= OutputShaderVersion_value ESSL)%Z.
Proof.
  split.
  - apply (proj1 (proj2 (OutputShaderVersion_value_order GLSL450 ESSL100))).
    reflexivity.
  - apply (proj2 (proj2 (OutputShaderVersion_value_order ESSL320 ESSL)));
      reflexivity.
Defined.

(* ================================================================= *)
(** ** More properties: structures, registers and parameters *)

Section More_declaration_properties.
Context `{ASTEnums}.

Lemma fold_left_count_members (stmnts : list VarDeclStmnt) (n : nat) :
  fold_left (fun n member => n + List.length (varDecls member)) stmnts n
  = n + List.length (flat_map varDecls stmnts).
Proof.
  revert n. induction stmnts as [ | stmnt stmnts IH ]; intros n; cbn.
  - lia.
  - rewrite IH, length_app. lia.
Qed.

Lemma NumMembers_all_members (s : StructDecl) :
  NumMembers s = List.length (all_members s).
Proof.
  induction s as [buf ident stmnts | buf ident base stmnts IH]
    using StructDecl_chain_ind;
    cbn [NumMembers all_members];
    rewrite fold_left_count_members, length_app; [ reflexivity | now rewrite IH ].
Qed.

Lemma push_back_times_repeat (count : nat) (typeDen : TypeDenoterPtr)
      (memberTypeDens : list TypeDenoterPtr) :
  push_back_times count typeDen memberTypeDens
  = (memberTypeDens ++ repeat typeDen count)%list.
Proof.
  revert memberTypeDens. induction count as [ | count IH ]; intros acc; cbn.
  - now rewrite app_nil_r.
  - rewrite IH, <- app_assoc. reflexivity.
Qed.

(** The denoters one structure's own statements contribute. *)
Lemma fold_left_collect (stmnts : list VarDeclStmnt)
      (acc : list TypeDenoterPtr) :
  exists added,
    fold_left (fun acc member =>
                 push_back_times (List.length (varDecls member))
                                 (varType member) acc) stmnts acc
    = (acc ++ added)%list /\
    List.length added = List.length (flat_map varDecls stmnts) /\
    Forall (fun p => exists member, In member stmnts /\ p = varType member)
           added /\
    forall acc',
      fold_left (fun acc member =>
                   push_back_times (List.length (varDecls member))
                                   (varType member) acc) stmnts acc'
      = (acc' ++ added)%list.
Proof.
  revert acc. induction stmnts as [ | stmnt stmnts IH ]; intros acc.
  - exists []. cbn. rewrite app_nil_r. repeat split; [ constructor | ].
    intros acc'. now rewrite app_nil_r.
  - cbn [fold_left flat_map]. rewrite push_back_times_repeat.
    destruct (IH (acc ++ repeat (varType stmnt) (List.length (varDecls stmnt)))%list)
      as (added & Hfold & Hlen & Hfrom & Hany).
    exists (repeat (varType stmnt) (List.length (varDecls stmnt)) ++ added)%list.
    split; [ now rewrite Hfold, app_assoc | ].
    split; [ rewrite !length_app, repeat_length; lia | ].
    split.
    + apply Forall_app. split.
      * apply Forall_forall. intros p Hp. apply repeat_spec in Hp.
        exists stmnt. split; [ now left | assumption ].
      * revert Hfrom. apply Forall_impl. intros p (member & Hin & Hp).
        exists member. split; [ now right | assumption ].
    + intros acc'. rewrite push_back_times_repeat, Hany, app_assoc.
      reflexivity.
Qed.

Lemma CollectMemberTypeDenoters_appends (s : StructDecl) :
  exists added,
    List.length added = NumMembers s /\
    forall acc, CollectMemberTypeDenoters s acc = (acc ++ added)%list.
Proof.
  induction s as [buf ident stmnts | buf ident base stmnts IH]
    using StructDecl_chain_ind.
  - destruct (fold_left_collect stmnts []) as (added & _ & Hlen & _ & Hany).
    exists added. split.
    + now rewrite NumMembers_all_members.
    + intros acc. apply Hany.
  - destruct IH as (inherited & Hbase & Hinherit).
    destruct (fold_left_collect stmnts []) as (added & _ & Hlen & _ & Hany).
    exists (inherited ++ added)%list. split.
    + rewrite NumMembers_all_members in *. cbn [all_members].
      rewrite !length_app. lia.
    + intros acc. cbn [CollectMemberTypeDenoters].
      rewrite Hinherit, Hany, app_assoc. reflexivity.
Qed.

Lemma inherited_member_wins (s b : StructDecl) (name : string) (v : VarDecl) :
  inherits_from s b ->
  StructDecl_Fetch b name = Some v ->
  StructDecl_Fetch s name = Some v.
Proof.
  induction s as [buf ident stmnts | buf ident base stmnts IH]
    using StructDecl_chain_ind; intros Hinherits Hfound.
  - destruct Hinherits as [<- | []]. exact Hfound.
  - destruct Hinherits as [<- | Hbase]; [ exact Hfound | ].
    cbn [StructDecl_Fetch]. now rewrite (IH Hbase Hfound).
Qed.

End More_declaration_properties.

Lemma nodup_length_le {A : Type} (dec : forall x y : A, {x = y} + {x <> y})
      (l : list A) :
  List.length (nodup dec l) <= List.length l.
Proof.
  induction l as [ | a l IH ]; [ cbn; lia | ].
  cbn [nodup]. destruct (in_dec dec a l); cbn [List.length]; lia.
Qed.

Lemma nodup_length_NoDup {A : Type} (dec : forall x y : A, {x = y} + {x <> y})
      (l : list A) :
  NoDup l <-> List.length (nodup dec l) = List.length l.
Proof.
  split.
  - intros Hnodup. now rewrite (nodup_fixed_point dec Hnodup).
  - induction l as [ | a l IH ]; [ constructor | ].
    cbn [nodup]. pose proof (nodup_length_le dec l) as Hle.
    destruct (in_dec dec a l) as [Hin | Hout]; cbn [List.length]; intros Hlen.
    + lia.
    + constructor; [ exact Hout | apply IH; lia ].
Qed.

Section Declared_names.
Context `{ASTEnums}.

(** A search finds something exactly for the declared identifiers. *)
Lemma find_has_ident_names (name : string) (vars : list VarDecl) :
  find (has_ident name) vars <> None <-> In name (map VarDecl_ident vars).
Proof.
  induction vars as [ | v vars IH ]; cbn [find map In].
  - split; [ intros Hnone; now elim Hnone | intros [] ].
  - unfold has_ident at 1. destruct (String.eqb_spec (VarDecl_ident v) name).
    + split; [ now left | discriminate ].
    + rewrite IH. split; [ now right | ]. intros [Heq | Hin]; [ | exact Hin ].
      contradiction.
Qed.

(** With no identifier declared twice, every declaration is the one found
    under its identifier. *)
Lemma find_has_ident_NoDup (vars : list VarDecl) (v : VarDecl) :
  NoDup (map VarDecl_ident vars) ->
  In v vars ->
  find (has_ident (VarDecl_ident v)) vars = Some v.
Proof.
  induction vars as [ | u vars IH ]; intros Hnodup Hin; [ destruct Hin | ].
  cbn [map] in Hnodup. inversion Hnodup as [ | ? ? Hout Hrest ]; subst.
  cbn [find]. unfold has_ident at 1.
  destruct (String.eqb_spec (VarDecl_ident u) (VarDecl_ident v)) as [Heq | Hneq].
  - destruct Hin as [-> | Hin]; [ reflexivity | ].
    elim Hout. rewrite Heq. now apply in_map.
  - destruct Hin as [-> | Hin]; [ now elim Hneq | ].
    now apply IH.
Qed.

End Declared_names.

(** X9: [NumMembers] counts every variable declared in the structure and
    in its base structures, a redeclaration that a base member hides
    included: it is the length of the list [Fetch] searches.  The
    identifiers [Fetch] finds are the identifiers declared there, so
    [NumMembers] is at least their number, and equal to it exactly when no
    identifier is declared twice; then [Fetch] returns every counted
    declaration under its own identifier. *)
Theorem NumMembers_counts_declarations :
  forall (E : ASTEnums) (s : StructDecl),
    let names := map VarDecl_ident (all_members s) in
    NumMembers s = List.length (all_members s) /\
    (forall name, StructDecl_Fetch s name <> None <-> In name names) /\
    List.length (nodup string_dec names) <= NumMembers s /\
    (NoDup names <-> List.length (nodup string_dec names) = NumMembers s) /\
    (NoDup names ->
     forall v, In v (all_members s) ->
               StructDecl_Fetch s (VarDecl_ident v) = Some v).
Proof.
  intros E s names.
  pose proof (NumMembers_all_members s) as Hcount.
  assert (Hnames : List.length names = NumMembers s)
    by (unfold names; now rewrite length_map, Hcount).
  split; [ exact Hcount | ].
  split; [ intros name; rewrite StructDecl_Fetch_find;
           apply find_has_ident_names | ].
  split; [ rewrite <- Hnames; apply nodup_length_le | ].
  split; [ rewrite <- Hnames; apply nodup_length_NoDup | ].
  intros Hnodup v Hin. rewrite StructDecl_Fetch_find.
  now apply find_has_ident_NoDup.
Qed.

Lemma NumMembers_counts_declarations_witness :
  NumMembers sample_derived = 4 /\
  List.length (nodup string_dec
                 (map VarDecl_ident (all_members sample_derived))) = 3 /\
  StructDecl_Fetch sample_base "b" = Some (sample_var "b" "base" None).
Proof.
  split; [ reflexivity | ]. split; [ reflexivity | ].
  change (StructDecl_Fetch sample_base
            (VarDecl_ident (sample_var "b" "base" None))
          = Some (sample_var "b" "base" None)).
  apply (proj2 (proj2 (proj2 (proj2
           (NumMembers_counts_declarations sample_ASTEnums sample_base))))).
  - cbn. repeat constructor; cbn; intuition discriminate.
  - right. now left.
Defined.

(** X10: [CollectMemberTypeDenoters] keeps what the vector holds and appends
    exactly [NumMembers] denoters, the same ones whatever the vector held
    before. *)
Theorem CollectMemberTypeDenoters_appends_NumMembers :
  forall (E : ASTEnums) (s : StructDecl)
         (memberTypeDens : list TypeDenoterPtr),
    CollectMemberTypeDenoters s memberTypeDens
      = (memberTypeDens ++ CollectMemberTypeDenoters s [])%list /\
    List.length (CollectMemberTypeDenoters s memberTypeDens)
      = List.length memberTypeDens + NumMembers s.
Proof.
  intros E s acc.
  destruct (CollectMemberTypeDenoters_appends s) as (added & Hlen & Hany).
  rewrite (Hany acc), (Hany []). cbn [app].
  split; [ reflexivity | ]. rewrite length_app. lia.
Qed.

(** X11: a member found in a base structure is what every structure that
    inherits from it fetches under that name: a redeclaration further down
    never hides it, and a name the derived structure cannot fetch is in none
    of its bases. *)
Theorem Fetch_inherited_member_wins :
  forall (E : ASTEnums) (s b : StructDecl) (name : string),
    inherits_from s b ->
    match StructDecl_Fetch b name with
    | Some v => StructDecl_Fetch s name = Some v
    | None => True
    end /\
    (StructDecl_Fetch s name = None -> StructDecl_Fetch b name = None).
Proof.
  intros E s b name Hinherits.
  destruct (StructDecl_Fetch b name) as [v | ] eqn:Hfound.
  - pose proof (inherited_member_wins s b name v Hinherits Hfound) as Hwins.
    split; [ exact Hwins | ]. intros Hnone. congruence.
  - split; [ exact I | reflexivity ].
Qed.

Lemma Fetch_inherited_member_wins_witness :
  StructDecl_Fetch sample_derived "a" = Some (sample_var "a" "base" None).
Proof.
  exact (proj1 (Fetch_inherited_member_wins sample_ASTEnums
                  sample_derived sample_base "a"
                  (or_intror (or_introl eq_refl)))).
Defined.

Lemma NumMinArgs_loop_shift `{ASTEnums} (params : list VarDeclStmnt) (n : nat) :
  NumMinArgs_loop params n = n + NumMinArgs_loop params 0.
Proof.
  revert n. induction params as [ | param params IH ]; intros n; cbn.
  - lia.
  - destruct (has_default_argument param); [ lia | ].
    rewrite (IH (S n)), (IH 1). lia.
Qed.

Lemma NumMinArgs_loop_append `{ASTEnums} (params extra : list VarDeclStmnt) :
  NumMinArgs_loop (params ++ extra) 0 =
  if (NumMinArgs_loop params 0 <? List.length params)%nat
  then NumMinArgs_loop params 0
  else List.length params + NumMinArgs_loop extra 0.
Proof.
  induction params as [ | param params IH ]; [ reflexivity | ].
  cbn [app NumMinArgs_loop List.length].
  destruct (has_default_argument param); [ reflexivity | ].
  rewrite (NumMinArgs_loop_shift (params ++ extra) 1),
    (NumMinArgs_loop_shift params 1), IH.
  change (1 + NumMinArgs_loop params 0 <? S (List.length params))%nat
    with (NumMinArgs_loop params 0 <? List.length params)%nat.
  destruct (NumMinArgs_loop params 0 <? List.length params)%nat; lia.
Qed.

(** X12: parameters declared after the first defaulted one never count as
    required: appending parameters to a function that has a defaulted
    parameter leaves [NumMinArgs] as it is, while for a function without one
    the appended parameters count up to their own first defaulted one. *)
Theorem NumMinArgs_appended_parameters :
  forall (E : ASTEnums) (f g : FunctionDecl) (extra : list VarDeclStmnt),
    parameters g = (parameters f ++ extra)%list ->
    NumMaxArgs g = NumMaxArgs f + List.length extra /\
    NumMinArgs g =
      (if (NumMinArgs f <? NumMaxArgs f)%nat
       then NumMinArgs f
       else NumMaxArgs f + NumMinArgs_loop extra 0).
Proof.
  intros E f g extra Hparams. unfold NumMinArgs, NumMaxArgs.
  rewrite Hparams, length_app. split; [ reflexivity | ].
  apply NumMinArgs_loop_append.
Qed.

Lemma NumMinArgs_appended_parameters_witness :
  let g := {| returnType := returnType sample_function;
              FunctionDecl_ident := "g";
              parameters := (parameters sample_function
                             ++ [ sample_stmnt [ sample_var "w" "" None ] ])%list |} in
  NumMaxArgs g = 4 /\ NumMinArgs g = 1.
Proof.
  intros g.
  exact (NumMinArgs_appended_parameters sample_ASTEnums sample_function g
           [ sample_stmnt [ sample_var "w" "" None ] ] eq_refl).
Defined.

(** X13: [Register::GetForTarget] returns the first register that is bound
    to the asked target or to no target, and null when there is none; so a
    register without a target in front answers for every target, and asking
    for the undefined target only ever yields a register without one. *)
Theorem GetForTarget_first_serving :
  forall (RegisterType : Type) (registers : list (Register RegisterType))
         (shaderTarget : ShaderTarget),
    match GetForTarget registers shaderTarget with
    | Some r =>
        (Register_shaderTarget r = ShaderTarget_Undefined \/
         Register_shaderTarget r = shaderTarget) /\
        exists before after,
          registers = (before ++ r :: after)%list /\
          Forall (fun x => Register_shaderTarget x <> ShaderTarget_Undefined /\
                           Register_shaderTarget x <> shaderTarget) before
    | None =>
        Forall (fun x => Register_shaderTarget x <> ShaderTarget_Undefined /\
                         Register_shaderTarget x <> shaderTarget) registers
    end /\
    match registers with
    | r :: _ =>
        if ShaderTarget_eqb (Register_shaderTarget r) ShaderTarget_Undefined
        then GetForTarget registers shaderTarget = Some r
        else True
    | [] => GetForTarget registers shaderTarget = None
    end.
Proof.
  intros RegisterType registers shaderTarget.
  assert (Hserves : forall x : Register RegisterType,
             serves_target shaderTarget x = false ->
             Register_shaderTarget x <> ShaderTarget_Undefined /\
             Register_shaderTarget x <> shaderTarget).
  { intros x. unfold serves_target, ShaderTarget_eqb.
    destruct (ShaderTarget_eq_dec (Register_shaderTarget x)
                                  ShaderTarget_Undefined);
      destruct (ShaderTarget_eq_dec (Register_shaderTarget x) shaderTarget);
      cbn; intros Hs; try discriminate Hs; now split. }
  assert (Hfind : GetForTarget registers shaderTarget
                  = find (serves_target shaderTarget) registers).
  { induction registers as [ | r registers IH ]; [ reflexivity | ].
    cbn [GetForTarget find]. unfold serves_target at 1.
    now rewrite IH. }
  split.
  - rewrite Hfind.
    pose proof (find_first (serves_target shaderTarget) registers) as Hfirst.
    destruct (find (serves_target shaderTarget) registers) as [r | ].
    + destruct Hfirst as (before & after & Hsplit & Hr & Hbefore).
      split.
      * unfold serves_target, ShaderTarget_eqb in Hr.
        destruct (ShaderTarget_eq_dec (Register_shaderTarget r)
                                      ShaderTarget_Undefined);
          [ now left | ].
        destruct (ShaderTarget_eq_dec (Register_shaderTarget r) shaderTarget);
          [ now right | discriminate Hr ].
      * exists before, after. split; [ assumption | ].
        revert Hbefore. apply Forall_impl. exact Hserves.
    + revert Hfirst. apply Forall_impl. exact Hserves.
  - destruct registers as [ | r registers ]; [ reflexivity | ].
    cbn [GetForTarget].
    destruct (ShaderTarget_eqb (Register_shaderTarget r)
                               ShaderTarget_Undefined);
      [ reflexivity | exact I ].
Qed.

(* ================================================================= *)
(** ** More properties: identifier chains *)

Section VarIdent_properties.
Context `{ASTEnums}.

(** Induction along the chain of segments. *)
Lemma VarIdent_chain_ind (P : VarIdent -> Prop) :
  (forall buf ident indices ref,
      P (Build_VarIdent buf ident indices None ref)) ->
  (forall buf ident indices n ref,
      P n -> P (Build_VarIdent buf ident indices (Some n) ref)) ->
  forall v, P v.
Proof.
  intros Hlast Hmore. fix IH 1.
  intros [buf ident indices [n | ] ref].
  - apply Hmore. apply IH.
  - apply Hlast.
Qed.

Lemma VarIdent_ToString_loop_shift (v : VarIdent) (name : string) :
  VarIdent_ToString_loop v name = name ++ VarIdent_ToString_loop v "".
Proof.
  revert name.
  induction v as [buf ident indices ref | buf ident indices n ref IH]
    using VarIdent_chain_ind; intros name; cbn [VarIdent_ToString_loop].
  - reflexivity.
  - rewrite (IH ((name ++ ident) ++ ".")), (IH (("" ++ ident) ++ ".")).
    cbn [append]. now rewrite !string_append_assoc.
Qed.

Lemma VarIdent_ToString_while_concat (v : VarIdent) :
  VarIdent_ToString_while v = String.concat "." (segments v).
Proof.
  unfold VarIdent_ToString_while.
  induction v as [buf ident indices ref | buf ident indices n ref IH]
    using VarIdent_chain_ind; cbn [VarIdent_ToString_loop segments].
  - reflexivity.
  - rewrite VarIdent_ToString_loop_shift, IH. cbn [append].
    rewrite string_append_assoc.
    destruct n as [b i a nx r]. reflexivity.
Qed.

Lemma VarIdent_ToString_while_rec (v : VarIdent) :
  VarIdent_ToString_while v = VarIdent_ToString v.
Proof.
  unfold VarIdent_ToString_while.
  induction v as [buf ident indices ref | buf ident indices n ref IH]
    using VarIdent_chain_ind;
    cbn [VarIdent_ToString_loop VarIdent_ToString].
  - reflexivity.
  - rewrite VarIdent_ToString_loop_shift, IH. cbn [append].
    now rewrite string_append_assoc.
Qed.

Lemma LastVarIdent_is_last (v : VarIdent) :
  VarIdent_next (LastVarIdent v) = None /\
  VarIdent_ident (LastVarIdent v) = last (segments v) "" /\
  In (LastVarIdent v) (chain v).
Proof.
  induction v as [buf ident indices ref | buf ident indices n ref IH]
    using VarIdent_chain_ind; cbn [LastVarIdent segments chain].
  - repeat split. now left.
  - destruct IH as (Hnext & Hident & Hin).
    split; [ exact Hnext | ]. split.
    + rewrite Hident. destruct n as [b i a nx r]. reflexivity.
    + now right.
Qed.

End VarIdent_properties.

Lemma no_char_cons (c d : ascii) (s : string) :
  no_char c (String d s) -> Ascii.eqb d c = false /\ no_char c s.
Proof.
  unfold no_char. cbn. destruct (Ascii.eqb d c); [ discriminate | ].
  destruct (string_find c s); [ discriminate | ]. now split.
Qed.

Lemma split_dots_plain (s : string) :
  no_char "."%char s -> split_dots s = [ s ].
Proof.
  induction s as [ | c s IH ]; intros Hs; [ reflexivity | ].
  apply no_char_cons in Hs. destruct Hs as [Hc Hs].
  cbn [split_dots]. now rewrite Hc, (IH Hs).
Qed.

Lemma split_dots_append (s t : string) :
  no_char "."%char s ->
  split_dots (s ++ String "." t) = s :: split_dots t.
Proof.
  induction s as [ | c s IH ]; intros Hs; [ reflexivity | ].
  apply no_char_cons in Hs. destruct Hs as [Hc Hs].
  cbn [append split_dots]. now rewrite Hc, (IH Hs).
Qed.

Lemma split_dots_concat (names : list string) :
  names <> [] ->
  Forall (no_char "."%char) names ->
  split_dots (String.concat "." names) = names.
Proof.
  induction names as [ | name names IH ]; intros Hne Hnames;
    [ now elim Hne | ].
  inversion Hnames as [ | x l Hname Hrest ]; subst.
  destruct names as [ | name' names ].
  - cbn. now apply split_dots_plain.
  - change (String.concat "." (name :: name' :: names))
      with (name ++ String "." (String.concat "." (name' :: names))).
    rewrite (split_dots_append _ _ Hname), IH; [ reflexivity | discriminate | assumption ].
Qed.

(** X14: the loop of [VarIdent::ToString] writes the identifiers of the
    chain joined by dots; when no identifier contains a dot, cutting the
    text at its dots gives the identifiers back, so two such chains with the
    same text have the same identifiers. *)
Theorem VarIdent_ToString_round_trip :
  forall (E : ASTEnums) (v w : VarIdent),
    Forall (no_char "."%char) (segments v) ->
    Forall (no_char "."%char) (segments w) ->
    VarIdent_ToString_while v = String.concat "." (segments v) /\
    split_dots (VarIdent_ToString_while v) = segments v /\
    (VarIdent_ToString_while v = VarIdent_ToString_while w ->
     segments v = segments w).
Proof.
  intros E v w Hv Hw.
  assert (Hback : forall u, Forall (no_char "."%char) (segments u) ->
                            split_dots (VarIdent_ToString_while u) = segments u).
  { intros u Hu. rewrite VarIdent_ToString_while_concat.
    apply split_dots_concat; [ | assumption ].
    destruct u as [b i a nx r]. discriminate. }
  split; [ apply VarIdent_ToString_while_concat | ].
  split; [ now apply Hback | ].
  intros Hsame. rewrite <- (Hback v Hv), <- (Hback w Hw). now rewrite Hsame.
Qed.

Lemma VarIdent_ToString_round_trip_witness :
  VarIdent_ToString_while sample_ident = "s.pos" /\
  split_dots (VarIdent_ToString_while sample_ident) = [ "s"; "pos" ].
Proof.
  assert (Hdots : Forall (no_char "."%char) (segments sample_ident)).
  { repeat constructor. }
  destruct (VarIdent_ToString_round_trip sample_ASTEnums
              sample_ident sample_ident Hdots Hdots) as (Htext & Hback & _).
  split; [ exact Htext | exact Hback ].
Defined.

(** X15: on a chain with a next segment, [PopFront] drops exactly the first
    identifier: the text of the chain is the first identifier, a dot and the
    text after [PopFront]; the last segment keeps its identifier; and
    [LastVarIdent] always is a segment of the chain without a next one. *)
Theorem PopFront_drops_first_segment :
  forall (E : ASTEnums) (v n : VarIdent),
    VarIdent_next v = Some n ->
    VarIdent_ToString_while v
      = VarIdent_ident v ++ "." ++ VarIdent_ToString_while (PopFront v) /\
    segments (PopFront v) = tl (segments v) /\
    VarIdent_ident (LastVarIdent (PopFront v))
      = VarIdent_ident (LastVarIdent v) /\
    VarIdent_next (LastVarIdent v) = None /\
    In (LastVarIdent v) (chain v).
Proof.
  intros E v n Hnext.
  destruct v as [buf ident indices nx ref]. cbn in Hnext. subst nx.
  destruct n as [b i a nx r].
  unfold PopFront, VarIdent_ToString_while.
  cbn [VarIdent_next VarIdent_ident VarIdent_arrayIndices VarIdent_symbolRef
       VarIdent_bufferedTypeDenoter_].
  split; [ | split; [ | split; [ | split ] ] ].
  - cbn [VarIdent_ToString_loop append].
    destruct nx as [m | ].
    + rewrite (VarIdent_ToString_loop_shift m (((ident ++ ".") ++ i) ++ ".")),
        (VarIdent_ToString_loop_shift m (i ++ ".")).
      rewrite !string_append_assoc. reflexivity.
    + rewrite !string_append_assoc. reflexivity.
  - reflexivity.
  - cbn [LastVarIdent]. destruct nx; reflexivity.
  - apply LastVarIdent_is_last.
  - apply LastVarIdent_is_last.
Qed.

Lemma PopFront_drops_first_segment_witness :
  VarIdent_ToString_while sample_ident
    = "s" ++ "." ++ VarIdent_ToString_while (PopFront sample_ident) /\
  segments (PopFront sample_ident) = [ "pos" ].
Proof.
  destruct (PopFront_drops_first_segment sample_ASTEnums sample_ident
              _ eq_refl) as (Htext & Hsegments & _).
  split; [ exact Htext | exact Hsegments ].
Defined.

(** X16: [FirstConstVarIdent] returns the first segment of the chain that
    refers to a constant variable, provided every segment before it refers
    to a variable that is not constant; it returns null when the chain has
    no such segment (also when a segment without a symbol, or with a symbol
    that is no variable, comes first). *)
Theorem FirstConstVarIdent_first_constant :
  forall (E : ASTEnums) (symbol_IsConst : Handle -> option bool)
         (v : VarIdent),
    match FirstConstVarIdent symbol_IsConst v with
    | Some w =>
        refers_to_variable symbol_IsConst true w /\
        exists before after,
          chain v = (before ++ w :: after)%list /\
          Forall (refers_to_variable symbol_IsConst false) before
    | None =>
        ~ exists before w after,
            chain v = (before ++ w :: after)%list /\
            Forall (refers_to_variable symbol_IsConst false) before /\
            refers_to_variable symbol_IsConst true w
    end.
Proof.
  intros E isc.
  assert (Hhead : forall buf ident indices nx ref before w after,
             chain (Build_VarIdent buf ident indices nx ref)
             = (before ++ w :: after)%list ->
             Forall (refers_to_variable isc false) before ->
             refers_to_variable isc true w ->
             exists r b, ref = Some r /\ isc r = Some b /\
                         (b = true \/ before <> [])).
  { intros buf ident indices nx ref before w after Hchain Hbefore Hw.
    destruct before as [ | x before ]; cbn [chain app] in Hchain.
    - injection Hchain as <- _. destruct Hw as (r & Hr & Hc).
      cbn in Hr. exists r, true. repeat split; [ assumption .. | now left ].
    - injection Hchain as <- _. inversion Hbefore as [ | ? ? Hx _ ]; subst.
      destruct Hx as (r & Hr & Hc). cbn in Hr.
      exists r, false. repeat split; [ assumption .. | right; discriminate ]. }
  induction v as [buf ident indices ref | buf ident indices n ref IH]
    using VarIdent_chain_ind; cbn [FirstConstVarIdent].
  - destruct ref as [r | ].
    2:{ intros (before & w & after & Hchain & Hbefore & Hw).
        destruct (Hhead _ _ _ _ _ _ _ _ Hchain Hbefore Hw)
          as (r & b & Habs & _). discriminate Habs. }
    destruct (isc r) as [[ | ] | ] eqn:Hr.
    + split; [ now exists r | ].
      exists [], []. split; [ reflexivity | constructor ].
    + intros (before & w & after & Hchain & Hbefore & Hw).
      destruct (Hhead _ _ _ _ _ _ _ _ Hchain Hbefore Hw)
        as (r' & b & Hr' & Hb & Hcase).
      injection Hr' as <-. rewrite Hr in Hb. injection Hb as <-.
      destruct Hcase as [Habs | Hne]; [ discriminate Habs | ].
      destruct before as [ | x [ | y before ] ]; [ now elim Hne | | ];
        cbn in Hchain; discriminate Hchain.
    + intros (before & w & after & Hchain & Hbefore & Hw).
      destruct (Hhead _ _ _ _ _ _ _ _ Hchain Hbefore Hw)
        as (r' & b & Hr' & Hb & _).
      injection Hr' as <-. rewrite Hr in Hb. discriminate Hb.
  - destruct ref as [r | ].
    2:{ intros (before & w & after & Hchain & Hbefore & Hw).
        destruct (Hhead _ _ _ _ _ _ _ _ Hchain Hbefore Hw)
          as (r & b & Habs & _). discriminate Habs. }
    destruct (isc r) as [[ | ] | ] eqn:Hr.
    + split; [ now exists r | ].
      exists [], (chain n). split; [ reflexivity | constructor ].
    + assert (Hself : refers_to_variable isc false
                        (Build_VarIdent buf ident indices (Some n) (Some r)))
        by now exists r.
      destruct (FirstConstVarIdent isc n) as [w | ].
      * destruct IH as (Hw & before & after & Hchain & Hbefore).
        split; [ exact Hw | ].
        exists (Build_VarIdent buf ident indices (Some n) (Some r) :: before),
          after.
        split; [ cbn [chain app]; now rewrite Hchain | now constructor ].
      * intros (before & w & after & Hchain & Hbefore & Hw).
        destruct (Hhead _ _ _ _ _ _ _ _ Hchain Hbefore Hw)
          as (r' & b & Hr' & Hb & Hcase).
        injection Hr' as <-. rewrite Hr in Hb. injection Hb as <-.
        destruct Hcase as [Habs | Hne]; [ discriminate Habs | ].
        destruct before as [ | x before ]; [ now elim Hne | ].
        cbn [chain app] in Hchain. injection Hchain as _ Hchain.
        inversion Hbefore as [ | ? ? _ Hrest ]; subst.
        apply IH. now exists before, w, after.
    + intros (before & w & after & Hchain & Hbefore & Hw).
      destruct (Hhead _ _ _ _ _ _ _ _ Hchain Hbefore Hw)
        as (r' & b & Hr' & Hb & _).
      injection Hr' as <-. rewrite Hr in Hb. discriminate Hb.
Qed.

(* ================================================================= *)
(** ** More properties: function signatures *)

Section Signature_properties.
Context `{ASTEnums} `{TypeDenoterOps} `{TypeDenoterEquals}.

(** The denoters [EqualsSignature] looks at. *)
Lemma EqualsSignature_loop_types (lhs lhs' rhs rhs' : list VarDeclStmnt) :
  map (fun p => pointee_of (varType p)) lhs
  = map (fun p => pointee_of (varType p)) lhs' ->
  map (fun p => pointee_of (varType p)) rhs
  = map (fun p => pointee_of (varType p)) rhs' ->
  EqualsSignature_loop lhs rhs = EqualsSignature_loop lhs' rhs'.
Proof.
  revert lhs' rhs rhs'.
  induction lhs as [ | l lhs IH ]; intros [ | l' lhs' ] rhs rhs' Hl Hr;
    try discriminate Hl.
  - reflexivity.
  - destruct rhs as [ | r rhs ], rhs' as [ | r' rhs' ];
      try discriminate Hr; [ reflexivity | ].
    cbn in Hl, Hr. injection Hl as Hl Hls. injection Hr as Hr Hrs.
    cbn [EqualsSignature_loop]. rewrite Hl, Hr, (IH lhs' rhs rhs' Hls Hrs).
    reflexivity.
Qed.

Lemma EqualsSignature_loop_refl (params : list VarDeclStmnt) :
  (forall a, Equals a a = true) ->
  EqualsSignature_loop params params = true.
Proof.
  intros Hrefl. induction params as [ | p params IH ]; [ reflexivity | ].
  cbn [EqualsSignature_loop]. now rewrite Hrefl.
Qed.

Lemma EqualsSignature_loop_sym (lhs rhs : list VarDeclStmnt) :
  (forall a b, Equals a b = Equals b a) ->
  List.length lhs = List.length rhs ->
  EqualsSignature_loop lhs rhs = EqualsSignature_loop rhs lhs.
Proof.
  intros Hsym. revert rhs.
  induction lhs as [ | l lhs IH ]; intros [ | r rhs ] Hlen;
    try discriminate Hlen; [ reflexivity | ].
  cbn [EqualsSignature_loop]. rewrite (Hsym (pointee_of (varType l))).
  rewrite IH by (cbn in Hlen; lia). reflexivity.
Qed.

Lemma EqualsSignature_loop_trans (a b c : list VarDeclStmnt) :
  (forall x y z, Equals x y = true -> Equals y z = true -> Equals x z = true) ->
  List.length a = List.length b -> List.length b = List.length c ->
  EqualsSignature_loop a b = true -> EqualsSignature_loop b c = true ->
  EqualsSignature_loop a c = true.
Proof.
  intros Htrans. revert b c.
  induction a as [ | x a IH ]; intros [ | y b ] [ | z c ] Hab Hbc;
    try discriminate Hab; try discriminate Hbc; [ reflexivity | ].
  cbn [EqualsSignature_loop].
  destruct (Equals (pointee_of (varType x)) (pointee_of (varType y))) eqn:Hxy;
    [ | discriminate ].
  destruct (Equals (pointee_of (varType y)) (pointee_of (varType z))) eqn:Hyz;
    [ | discriminate ].
  rewrite (Htrans _ _ _ Hxy Hyz). cbn [negb].
  apply IH; cbn in *; lia.
Qed.

Lemma EqualsSignature_sizes (f g : FunctionDecl) :
  EqualsSignature f g = true ->
  List.length (parameters f) = List.length (parameters g).
Proof.
  unfold EqualsSignature.
  destruct (Nat.eqb_spec (List.length (parameters f))
                         (List.length (parameters g)));
    [ trivial | discriminate ].
Qed.

End Signature_properties.

(** X17: when [TypeDenoter::Equals] is reflexive, symmetric and transitive,
    so is [EqualsSignature]; and functions with equal signatures take the
    same maximal number of arguments. *)
Theorem EqualsSignature_equivalence :
  forall (E : ASTEnums) (Q : TypeDenoterEquals) (f g h : FunctionDecl),
    (forall a, Equals a a = true) ->
    (forall a b, Equals a b = Equals b a) ->
    (forall a b c, Equals a b = true -> Equals b c = true ->
                   Equals a c = true) ->
    EqualsSignature f f = true /\
    EqualsSignature f g = EqualsSignature g f /\
    (EqualsSignature f g = true -> EqualsSignature g h = true ->
     EqualsSignature f h = true) /\
    (EqualsSignature f g = true -> NumMaxArgs f = NumMaxArgs g).
Proof.
  intros E Q f g h Hrefl Hsym Htrans.
  split; [ | split; [ | split ] ].
  - unfold EqualsSignature. rewrite Nat.eqb_refl. cbn [negb].
    now apply EqualsSignature_loop_refl.
  - unfold EqualsSignature.
    rewrite (Nat.eqb_sym (List.length (parameters g))).
    destruct (Nat.eqb_spec (List.length (parameters f))
                           (List.length (parameters g))) as [Hlen | _];
      [ | reflexivity ].
    cbn [negb]. now apply EqualsSignature_loop_sym.
  - intros Hfg Hgh.
    pose proof (EqualsSignature_sizes f g Hfg) as Hlfg.
    pose proof (EqualsSignature_sizes g h Hgh) as Hlgh.
    unfold EqualsSignature in Hfg, Hgh |- *.
    rewrite Hlfg, Nat.eqb_refl in Hfg. rewrite Hlgh, Nat.eqb_refl in Hgh.
    rewrite Hlfg, Hlgh, Nat.eqb_refl. cbn [negb] in Hfg, Hgh |- *.
    now apply (EqualsSignature_loop_trans _ (parameters g)).
  - apply EqualsSignature_sizes.
Qed.

Lemma EqualsSignature_equivalence_witness :
  EqualsSignature sample_function sample_function = true.
Proof.
  refine (proj1 (EqualsSignature_equivalence sample_ASTEnums
                   sample_TypeDenoterEquals
                   sample_function sample_function sample_function _ _ _)).
  - intros a. apply Nat.eqb_refl.
  - intros a b. apply Nat.eqb_sym.
  - intros a b c Hab Hbc. cbn in *.
    apply Nat.eqb_eq in Hab. apply Nat.eqb_eq in Hbc.
    apply Nat.eqb_eq. congruence.
Defined.

(** X18: [EqualsSignature] looks at nothing but the type denoters of the
    parameter statements, in order: functions whose parameters have the same
    denoters are interchangeable on either side, whatever their names,
    return types, variable names and default values are. *)
Theorem EqualsSignature_only_parameter_types :
  forall (E : ASTEnums) (Q : TypeDenoterEquals) (f f' g : FunctionDecl),
    map (fun p => pointee_of (varType p)) (parameters f)
    = map (fun p => pointee_of (varType p)) (parameters f') ->
    EqualsSignature f g = EqualsSignature f' g /\
    EqualsSignature g f = EqualsSignature g f'.
Proof.
  intros E Q f f' g Htypes.
  assert (Hlen : List.length (parameters f) = List.length (parameters f')).
  { rewrite <- (length_map (fun p => pointee_of (varType p)) (parameters f)),
      Htypes. apply length_map. }
  unfold EqualsSignature. rewrite Hlen. split.
  - now rewrite (EqualsSignature_loop_types (parameters f) (parameters f')
                   (parameters g) (parameters g) Htypes eq_refl).
  - now rewrite (EqualsSignature_loop_types (parameters g) (parameters g)
                   (parameters f) (parameters f') eq_refl Htypes).
Qed.

Lemma EqualsSignature_only_parameter_types_witness :
  let f' := {| returnType := SharedPtr 9 (BaseTypeDenoter DataType.Int);
               FunctionDecl_ident := "other";
               parameters :=
                 [ sample_stmnt [ sample_var "p" "" None ];
                   sample_stmnt [ sample_var "q" "" None ];
                   sample_stmnt [] ] |} in
  EqualsSignature sample_function sample_function
  = EqualsSignature f' sample_function.
Proof.
  intros f'.
  exact (proj1 (EqualsSignature_only_parameter_types sample_ASTEnums
                  sample_TypeDenoterEquals sample_function f'
                  sample_function eq_refl)).
Defined.

(** X19: [MatchParameterWithTypeDenoter] is false for an index that is no
    parameter; without implicit conversion it holds exactly when the
    argument type equals the parameter's, with implicit conversion exactly
    when it equals it or casts to it; so an explicit match is always an
    implicit match too. *)
Theorem MatchParameterWithTypeDenoter_cases :
  forall (E : ASTEnums) (O : TypeDenoterOps) (Q : TypeDenoterEquals)
         (f : FunctionDecl) (paramIndex : nat) (argType : TypeDenoter),
    match nth_error (parameters f) paramIndex with
    | None =>
        NumMaxArgs f <= paramIndex /\
        MatchParameterWithTypeDenoter f paramIndex argType false = false /\
        MatchParameterWithTypeDenoter f paramIndex argType true = false
    | Some param =>
        paramIndex < NumMaxArgs f /\
        MatchParameterWithTypeDenoter f paramIndex argType false
        = Equals argType (pointee_of (varType param)) /\
        MatchParameterWithTypeDenoter f paramIndex argType true
        = Equals argType (pointee_of (varType param))
          || IsCastableTo argType (pointee_of (varType param))
    end /\
    (if MatchParameterWithTypeDenoter f paramIndex argType false
     then MatchParameterWithTypeDenoter f paramIndex argType true = true
     else True).
Proof.
  intros E O Q f paramIndex argType.
  unfold MatchParameterWithTypeDenoter, NumMaxArgs.
  destruct (nth_error (parameters f) paramIndex) as [param | ] eqn:Hnth.
  - assert (Hin : paramIndex < List.length (parameters f))
      by (apply nth_error_Some; congruence).
    destruct (Equals argType (pointee_of (varType param)));
      destruct (IsCastableTo argType (pointee_of (varType param)));
      cbn; repeat split; assumption.
  - apply nth_error_None in Hnth. repeat split; assumption.
Qed.

(* ================================================================= *)
(** ** More properties: literals *)

Section Literal_properties.
Context `{VariantOps}.

Lemma LiteralExpr_GetTypeDenoter_returns (lit : LiteralExpr) (h : Heap) :
  memo_consistent lit ->
  exists p lit' h',
    GetTypeDenoter lit h = (Return p, lit', h') /\
    pointee_of p = BaseTypeDenoter (dataType lit) /\
    dataType lit' = dataType lit /\ value lit' = value lit /\
    memo_consistent lit'.
Proof.
  intros Hlit. unfold GetTypeDenoter, TypedAST_GetTypeDenoter.
  cbn [bufferedTypeDenoter_ set_bufferedTypeDenoter_ DeriveTypeDenoter
       LiteralExpr_TypedAST].
  destruct (LiteralExpr_bufferedTypeDenoter_ lit) as [p | ] eqn:Hbuf.
  - exists p, lit, h. repeat split; [ now apply Hlit | exact Hlit ].
  - unfold LiteralExpr_DeriveTypeDenoter, make_shared.
    eexists _, _, _. split; [ reflexivity | ].
    repeat split. intros p Hp. cbn in Hp. injection Hp as <-. reflexivity.
Qed.

Lemma LiteralExpr_run_consistent (c : LiteralExpr_call) (lit : LiteralExpr)
      (h : Heap) :
  memo_consistent lit -> memo_consistent (fst (LiteralExpr_run c lit h)).
Proof.
  intros Hlit. destruct c as [ | | type | ]; cbn [LiteralExpr_run].
  - destruct (LiteralExpr_GetTypeDenoter_returns lit h Hlit)
      as (p & lit' & h' & -> & _ & _ & _ & Hlit'). exact Hlit'.
  - intros p Hp. cbn in Hp. discriminate Hp.
  - cbn [fst]. destruct (DataType.eq_dec type (dataType lit)) as [-> | Hneq].
    + now rewrite ConvertDataType_same.
    + intros p Hp.
      rewrite (proj1 (ConvertDataType_other type lit Hneq)) in Hp.
      discriminate Hp.
  - exact Hlit.
Qed.

End Literal_properties.

(** X20: a literal's memo never holds the denoter of an older data type:
    starting from a literal whose memo is empty or agrees with its data
    type, after any calls of [GetTypeDenoter], [ResetBufferedTypeDenoter],
    [ConvertDataType] and [GetStringValue] in any order the memo still
    agrees, and [GetTypeDenoter] always returns (never throws) the base
    denoter of the literal's current data type, also right after a
    conversion. *)
Theorem LiteralExpr_memo_agrees :
  forall (V : VariantOps) (calls : list LiteralExpr_call)
         (lit : LiteralExpr) (h : Heap) (type : DataType.t),
    memo_consistent lit ->
    let after := fold_left (fun state c =>
                              LiteralExpr_run c (fst state) (snd state))
                           calls (lit, h) in
    memo_consistent (fst after) /\
    (exists p lit' h',
        GetTypeDenoter (fst after) (snd after) = (Return p, lit', h') /\
        pointee_of p = BaseTypeDenoter (dataType (fst after))) /\
    (exists p lit' h',
        GetTypeDenoter (ConvertDataType type (fst after)) (snd after)
        = (Return p, lit', h') /\
        pointee_of p = BaseTypeDenoter type).
Proof.
  intros V calls. induction calls as [ | c calls IH ];
    intros lit h type Hlit after; subst after.
  - cbn [fold_left fst snd]. split; [ exact Hlit | ]. split.
    + destruct (LiteralExpr_GetTypeDenoter_returns lit h Hlit)
        as (p & lit' & h' & Hcall & Hp & _). now exists p, lit', h'.
    + pose proof (LiteralExpr_run_consistent (Call_ConvertDataType type)
                    lit h Hlit) as Hconv.
      cbn [LiteralExpr_run fst] in Hconv.
      destruct (LiteralExpr_GetTypeDenoter_returns _ h Hconv)
        as (p & lit' & h' & Hcall & Hp & _).
      rewrite ConvertDataType_dataType in Hp. now exists p, lit', h'.
  - pose proof (LiteralExpr_run_consistent c lit h Hlit) as Hlit1.
    change (fold_left (fun state c0 =>
                         LiteralExpr_run c0 (fst state) (snd state))
                      (c :: calls) (lit, h))
      with (fold_left (fun state c0 =>
                         LiteralExpr_run c0 (fst state) (snd state))
                      calls (LiteralExpr_run c lit h)).
    destruct (LiteralExpr_run c lit h) as [lit1 h1].
    now apply IH.
Qed.

Lemma LiteralExpr_memo_agrees_witness :
  exists p lit' h',
    GetTypeDenoter
      (fst (fold_left (fun state c =>
                         LiteralExpr_run c (fst state) (snd state))
                      [ Call_GetTypeDenoter;
                        Call_ConvertDataType DataType.Float ]
                      (int_literal "1", 0)))
      1
    = (Return p, lit', h') /\
    pointee_of p = BaseTypeDenoter DataType.Float.
Proof.
  assert (Hfresh : memo_consistent (int_literal "1")).
  { intros p Hp. discriminate Hp. }
  exact (proj1 (proj2 (LiteralExpr_memo_agrees sample_VariantOps
                         [ Call_GetTypeDenoter;
                           Call_ConvertDataType DataType.Float ]
                         (int_literal "1") 0 DataType.Bool Hfresh))).
Defined.

(** X21: [GetStringValue] of a string literal written between quotation
    marks is the text between them, and it is empty for a literal of any
    other data type and for a text shorter than two characters. *)
Theorem GetStringValue_unquotes :
  forall (buf : option TypeDenoterPtr) (text : string) (lit : LiteralExpr),
    GetStringValue {| LiteralExpr_bufferedTypeDenoter_ := buf;
                      dataType := DataType.String;
                      value := dquote ++ text ++ dquote |} = text /\
    (if DataType.eqb (dataType lit) DataType.String
     then True else GetStringValue lit = "") /\
    (if (String.length (value lit) <? 2)%nat
     then GetStringValue lit = "" else True).
Proof.
  intros buf text lit. split; [ | split ].
  - unfold GetStringValue. cbn [dataType value].
    assert (Hlen : String.length (dquote ++ text ++ dquote)
                   = S (S (String.length text))).
    { unfold dquote. cbn [append String.length].
      rewrite string_length_append. cbn [String.length]. lia. }
    rewrite Hlen. cbn [Nat.sub Nat.leb].
    rewrite Nat.sub_0_r.
    assert (Hfirst : substring 0 1 (dquote ++ text ++ dquote) = dquote).
    { unfold dquote. cbn [append substring].
      now destruct (text ++ String (ascii_of_nat 34) ""). }
    assert (Hlast : substring (S (String.length text)) 1
                              (dquote ++ text ++ dquote) = dquote).
    { unfold dquote. cbn [append substring].
      rewrite <- (Nat.add_0_r (String.length text)), substring_skip.
      reflexivity. }
    assert (Hmid : substring 1 (String.length text)
                             (dquote ++ text ++ dquote) = text).
    { unfold dquote. cbn [append substring]. apply substring_prefix. }
    rewrite Hfirst, Hlast, Hmid, String.eqb_refl.
    reflexivity.
  - unfold GetStringValue.
    destruct (DataType.eqb (dataType lit) DataType.String);
      [ exact I | reflexivity ].
  - unfold GetStringValue.
    destruct (Nat.ltb_spec (String.length (value lit)) 2) as [Hshort | _];
      [ | exact I ].
    destruct (Nat.leb_spec 2 (String.length (value lit))); [ lia | ].
    now rewrite andb_false_r.
Qed.

(* ================================================================= *)
(** ** More properties: what type derivation changes *)

Section Derivation_frame.
Context `{ASTEnums} `{TypeDenoterOps}.

(** Induction on expressions, with the elements of an initializer. *)
Lemma Expr_nested_ind (P : Expr -> Prop) :
  (forall buf, P (NullExpr buf)) ->
  (forall buf a b, P a -> P b -> P (ListExpr buf a b)) ->
  (forall lit, P (Literal lit)) ->
  (forall tn, P (TypeName tn)) ->
  (forall buf c t f, P c -> P t -> P f -> P (TernaryExpr buf c t f)) ->
  (forall buf l op r, P l -> P r -> P (BinaryExpr buf l op r)) ->
  (forall buf op x, P x -> P (UnaryExpr buf op x)) ->
  (forall buf x op, P x -> P (PostUnaryExpr buf x op)) ->
  (forall buf x, P x -> P (BracketExpr buf x)) ->
  (forall buf t x, P t -> P x -> P (CastExpr buf t x)) ->
  (forall buf xs, Forall P xs -> P (InitializerExpr buf xs)) ->
  forall e, P e.
Proof.
  intros Hnull Hlist Hlit Htn Htern Hbin Hun Hpost Hbr Hcast Hinit.
  fix IH 1. intros [ buf | buf a b | lit | tn | buf c t f | buf l op r
                   | buf op x | buf x op | buf x | buf t x | buf xs ].
  - apply Hnull.
  - apply Hlist; apply IH.
  - apply Hlit.
  - apply Htn.
  - apply Htern; apply IH.
  - apply Hbin; apply IH.
  - apply Hun; apply IH.
  - apply Hpost; apply IH.
  - apply Hbr; apply IH.
  - apply Hcast; apply IH.
  - apply Hinit. induction xs as [ | x xs IHxs ]; constructor;
      [ apply IH | exact IHxs ].
Qed.

Lemma memo_kept_refl (l : list (option TypeDenoterPtr)) :
  Forall2 memo_kept l l.
Proof. induction l; constructor; [ now right | assumption ]. Qed.

Lemma memos_head (e : Expr) :
  memos e = Expr_bufferedTypeDenoter_ e :: tl (memos e).
Proof. destruct e; reflexivity. Qed.

Lemma memos_set_buffered (p : option TypeDenoterPtr) (e : Expr) :
  memos (Expr_set_buffered p e) = p :: tl (memos e).
Proof. destruct e; reflexivity. Qed.

Lemma erase_memos_set_buffered (p : option TypeDenoterPtr) (e : Expr) :
  erase_memos (Expr_set_buffered p e) = erase_memos e.
Proof. destruct e; reflexivity. Qed.

Lemma only_memos_filled_same (e : Expr) (h : Heap)
      (r : outcome TypeDenoterPtr) :
  only_memos_filled e h (r, e, h).
Proof.
  unfold only_memos_filled. cbn [fst snd].
  split; [ reflexivity | ]. split; [ lia | apply memo_kept_refl ].
Qed.

(** [GetTypeDenoter] keeps the frame when the derivation does. *)
Lemma GetTypeDenoter_frame (e : Expr) :
  (forall h, only_memos_filled e h (Expr_DeriveTypeDenoter e h)) ->
  forall h,
    only_memos_filled e h
      (TypedAST_GetTypeDenoter Expr_bufferedTypeDenoter_ Expr_set_buffered
                               Expr_DeriveTypeDenoter e h).
Proof.
  intros Hderive h. unfold TypedAST_GetTypeDenoter.
  destruct (Expr_bufferedTypeDenoter_ e) as [p | ] eqn:Hbuf.
  - apply only_memos_filled_same.
  - specialize (Hderive h).
    destruct (Expr_DeriveTypeDenoter e h) as [[[p | w] e'] h'];
      [ | exact Hderive ].
    unfold only_memos_filled in *. cbn [fst snd] in *.
    destruct Hderive as (Herase & Hheap & Hmemos).
    split; [ now rewrite erase_memos_set_buffered | ].
    split; [ exact Hheap | ].
    rewrite memos_set_buffered.
    rewrite (memos_head e), Hbuf in *.
    rewrite (memos_head e') in Hmemos.
    inversion Hmemos; subst. constructor; [ now left | assumption ].
Qed.

(** Run the next [GetTypeDenoter] call on a sub-expression whose frame
    property [Q] is known, and split the tests that follow. *)
Ltac frame_steps :=
  repeat (cbv beta iota zeta;
          match goal with
          | Q : forall h, only_memos_filled ?x h
                            (TypedAST_GetTypeDenoter _ _ _ ?x h)
            |- context [TypedAST_GetTypeDenoter _ _ _ ?x ?h0] =>
              let F := fresh "F" in
              pose proof (Q h0) as F;
              destruct (TypedAST_GetTypeDenoter Expr_bufferedTypeDenoter_
                          Expr_set_buffered Expr_DeriveTypeDenoter x h0)
                as [[[?typeDen | ?w] ?x'] ?h'];
              unfold only_memos_filled in F; cbn [fst snd] in F;
              destruct F as (? & ? & ?)
          | |- context [if ?c then _ else _] => destruct c
          end).

Ltac frame_done :=
  unfold only_memos_filled, make_shared;
  cbn [fst snd erase_memos memos];
  split; [ congruence | split; [ lia | ] ];
  constructor; [ now right | ];
  repeat apply Forall2_app; assumption || apply memo_kept_refl.

Lemma Expr_DeriveTypeDenoter_frame (e : Expr) :
  forall h, only_memos_filled e h (Expr_DeriveTypeDenoter e h).
Proof.
  induction e as [ buf | buf a b IHa IHb | lit | tn
                 | buf c t f IHc IHt IHf | buf l op r IHl IHr
                 | buf op x IHx | buf x op IHx | buf x IHx
                 | buf t x IHt IHx | buf xs IHxs ]
    using Expr_nested_ind; intros h;
    repeat match goal with
           | IH : forall h, only_memos_filled ?x h (Expr_DeriveTypeDenoter ?x h)
             |- _ => let Q := fresh "Q" in
                     pose proof (GetTypeDenoter_frame x IH) as Q; clear IH
           end;
    cbn [Expr_DeriveTypeDenoter].
  - frame_done.
  - frame_steps; frame_done.
  - unfold LiteralExpr_DeriveTypeDenoter. frame_done.
  - apply only_memos_filled_same.
  - frame_steps; frame_done.
  - frame_steps; frame_done.
  - frame_steps; frame_done.
  - frame_steps; frame_done.
  - frame_steps; frame_done.
  - frame_steps; frame_done.
  - destruct xs as [ | front others ];
      [ apply only_memos_filled_same | ].
    inversion IHxs as [ | ? ? IHfront _ ]; subst.
    pose proof (GetTypeDenoter_frame front IHfront) as Qfront.
    frame_steps; frame_done.
Qed.

End Derivation_frame.

(** X22: in a tree built from the eleven expression classes of [Expr]
    (null, list, literal, type name, ternary, binary, unary, post-unary,
    bracket, cast and initializer expressions; trees with a function call,
    a suffix, an array access or a variable access are outside it),
    deriving a type changes nothing but memo fields, neither through
    [DeriveTypeDenoter] nor through [GetTypeDenoter], whether the call
    returns or throws; and the allocator only moves forward. *)
Theorem type_derivation_changes_only_memos :
  forall (E : ASTEnums) (O : TypeDenoterOps) (e : Expr) (h : Heap),
    erase_memos (snd (fst (Expr_DeriveTypeDenoter e h))) = erase_memos e /\
    h <= snd (Expr_DeriveTypeDenoter e h) /\
    erase_memos (snd (fst (GetTypeDenoter e h))) = erase_memos e /\
    h <= snd (GetTypeDenoter e h).
Proof.
  intros E O e h.
  destruct (Expr_DeriveTypeDenoter_frame e h) as (Herase & Hheap & _).
  destruct (GetTypeDenoter_frame e (Expr_DeriveTypeDenoter_frame e) h)
    as (Herase' & Hheap' & _).
  repeat split; assumption.
Qed.

(** X23: in a tree built from the eleven expression classes of [Expr]
    (as for X22, without function calls, suffixes, array and variable
    accesses), type derivation fills memos and never empties or replaces
    one: position by position, a memo of the expression or of any
    sub-expression is afterwards what it was, unless it was empty. *)
Theorem type_derivation_keeps_filled_memos :
  forall (E : ASTEnums) (O : TypeDenoterOps) (e : Expr) (h : Heap),
    Forall2 (fun before after => before = None \/ before = after)
            (memos e) (memos (snd (fst (Expr_DeriveTypeDenoter e h)))) /\
    Forall2 (fun before after => before = None \/ before = after)
            (memos e) (memos (snd (fst (GetTypeDenoter e h)))) /\
    List.length (memos (snd (fst (GetTypeDenoter e h))))
      = List.length (memos e).
Proof.
  intros E O e h.
  destruct (Expr_DeriveTypeDenoter_frame e h) as (_ & _ & Hmemos).
  destruct (GetTypeDenoter_frame e (Expr_DeriveTypeDenoter_frame e) h)
    as (_ & _ & Hmemos').
  split; [ exact Hmemos | ]. split; [ exact Hmemos' | ].
  symmetry. exact (Forall2_length Hmemos').
Qed.

Lemma wrapper_shares `{ASTEnums} `{TypeDenoterOps}
      (wrap : Expr -> Expr) (x : Expr) (h : Heap) :
  (forall y, Expr_bufferedTypeDenoter_ (wrap y) = None) ->
  Expr_DeriveTypeDenoter (wrap x) h
  = (let '(r, x', h1) := GetTypeDenoter x h in (r, wrap x', h1)) ->
  match GetTypeDenoter (wrap x) h with
  | (Return p, e', h') =>
      exists x', e' = Expr_set_buffered (Some p) (wrap x') /\
                 bufferedTypeDenoter_ x' = Some p /\
                 GetTypeDenoter x h = (Return p, x', h')
  | (Throw w, e', h') =>
      exists x', e' = wrap x' /\ GetTypeDenoter x h = (Throw w, x', h')
  end.
Proof.
  intros Hempty Hderive.
  unfold GetTypeDenoter at 1, TypedAST_GetTypeDenoter.
  cbn [bufferedTypeDenoter_ set_bufferedTypeDenoter_ DeriveTypeDenoter
       Expr_TypedAST].
  rewrite Hempty, Hderive.
  destruct (GetTypeDenoter x h) as [[[p | w] x'] h'] eqn:Hcall.
  - exists x'. split; [ reflexivity | ]. split; [ | reflexivity ].
    exact (GetTypeDenoter_fills x x' h h' p Hcall).
  - exists x'. split; reflexivity.
Qed.

(** X24: a bracket, a list expression and a post-unary expression have no
    denoter of their own: when [GetTypeDenoter] on one with an empty memo
    returns, it returns the very instance now in the memo of its (first)
    operand, and the node's own memo holds that instance too; when the
    operand's call throws, it throws the same. *)
Theorem wrappers_share_operand_denoter :
  forall (E : ASTEnums) (O : TypeDenoterOps) (x next : Expr) (op : UnaryOp)
         (h : Heap),
    let shares (wrap : Expr -> Expr) :=
      match GetTypeDenoter (wrap x) h with
      | (Return p, e', h') =>
          exists x', e' = Expr_set_buffered (Some p) (wrap x') /\
                     bufferedTypeDenoter_ x' = Some p /\
                     GetTypeDenoter x h = (Return p, x', h')
      | (Throw w, e', h') =>
          exists x', e' = wrap x' /\ GetTypeDenoter x h = (Throw w, x', h')
      end in
    shares (fun y => BracketExpr None y) /\
    shares (fun y => ListExpr None y next) /\
    shares (fun y => PostUnaryExpr None y op).
Proof.
  intros E O x next op h shares; subst shares.
  repeat split;
    apply (wrapper_shares (fun y => _) x h); intros; reflexivity.
Qed.

(* ================================================================= *)
(** ** More properties: system values *)

Section System_value_properties.
Context `{ASTEnums}.
Variable IsSystemValue : string -> bool.

Lemma has_non_system_value_exists (vars : list VarDecl) :
  has_non_system_value IsSystemValue vars
  = existsb (fun v => negb (IsSystemValue (semantic v))) vars.
Proof.
  induction vars as [ | v vars IH ]; [ reflexivity | ].
  cbn [has_non_system_value existsb]. rewrite IH.
  now destruct (negb (IsSystemValue (semantic v))).
Qed.

Lemma has_non_system_value_member_exists (stmnts : list VarDeclStmnt) :
  has_non_system_value_member IsSystemValue stmnts
  = existsb (fun v => negb (IsSystemValue (semantic v)))
            (flat_map varDecls stmnts).
Proof.
  induction stmnts as [ | member stmnts IH ]; [ reflexivity | ].
  cbn [has_non_system_value_member flat_map].
  rewrite existsb_app, IH, has_non_system_value_exists.
  now destruct (existsb _ (varDecls member)).
Qed.

Lemma HasNonSystemValueMembers_exists (s : StructDecl) :
  HasNonSystemValueMembers IsSystemValue s
  = existsb (fun v => negb (IsSystemValue (semantic v))) (all_members s).
Proof.
  induction s as [buf ident stmnts | buf ident base stmnts IH]
    using StructDecl_chain_ind;
    cbn [HasNonSystemValueMembers all_members];
    rewrite existsb_app, has_non_system_value_member_exists.
  - reflexivity.
  - rewrite IH. now destruct (existsb _ (all_members base)).
Qed.

Lemma HasNonSystemValueMembers_inherited (s b : StructDecl) :
  inherits_from s b ->
  HasNonSystemValueMembers IsSystemValue b = true ->
  HasNonSystemValueMembers IsSystemValue s = true.
Proof.
  induction s as [buf ident stmnts | buf ident base stmnts IH]
    using StructDecl_chain_ind; intros Hinherits Hb.
  - destruct Hinherits as [<- | []]. exact Hb.
  - destruct Hinherits as [<- | Hbase]; [ exact Hb | ].
    cbn [HasNonSystemValueMembers]. now rewrite (IH Hbase Hb).
Qed.

End System_value_properties.

(** X25: [HasNonSystemValueMembers] holds exactly when some variable
    declared in the structure or in one of its base structures has a
    semantic that is no system value, whether or not [Fetch] can reach that
    declaration: a redeclaration hidden by a base member counts.  A member
    [Fetch] returns that is no system value makes it hold; the converse
    needs that no identifier is declared twice.  It holds for every
    structure that inherits from one for which it holds. *)
Theorem HasNonSystemValueMembers_some_declaration :
  forall (E : ASTEnums) (IsSystemValue : string -> bool)
         (s b : StructDecl),
    (HasNonSystemValueMembers IsSystemValue s = true <->
     exists v, In v (all_members s) /\
               IsSystemValue (semantic v) = false) /\
    ((exists name v, StructDecl_Fetch s name = Some v /\
                     IsSystemValue (semantic v) = false) ->
     HasNonSystemValueMembers IsSystemValue s = true) /\
    (NoDup (map VarDecl_ident (all_members s)) ->
     HasNonSystemValueMembers IsSystemValue s = true ->
     exists name v, StructDecl_Fetch s name = Some v /\
                    IsSystemValue (semantic v) = false) /\
    (inherits_from s b ->
     HasNonSystemValueMembers IsSystemValue b = true ->
     HasNonSystemValueMembers IsSystemValue s = true).
Proof.
  intros E IsSystemValue s b.
  assert (Hiff : HasNonSystemValueMembers IsSystemValue s = true <->
                 exists v, In v (all_members s) /\
                           IsSystemValue (semantic v) = false).
  { rewrite HasNonSystemValueMembers_exists, existsb_exists.
    split; intros (v & Hin & Hv); exists v; split; try assumption;
      now apply negb_true_iff. }
  split; [ exact Hiff | ].
  split.
  { intros (name & v & Hfetch & Hv). apply Hiff. exists v.
    split; [ | exact Hv ].
    rewrite StructDecl_Fetch_find in Hfetch.
    now apply find_some in Hfetch. }
  split; [ | apply HasNonSystemValueMembers_inherited ].
  intros Hnodup Hholds. apply Hiff in Hholds.
  destruct Hholds as (v & Hin & Hv).
  exists (VarDecl_ident v), v. split; [ | exact Hv ].
  rewrite StructDecl_Fetch_find. now apply find_has_ident_NoDup.
Qed.

Lemma HasNonSystemValueMembers_some_declaration_witness :
  let IsSystemValue := fun sem => sem =? "base" in
  HasNonSystemValueMembers IsSystemValue sample_hiding = true /\
  StructDecl_Fetch sample_hiding "a" = Some (sample_var "a" "base" None) /\
  StructDecl_Fetch sample_hiding "b" = Some (sample_var "b" "base" None) /\
  HasNonSystemValueMembers IsSystemValue sample_base = false.
Proof.
  intros IsSystemValue.
  split; [ | repeat split; reflexivity ].
  apply (proj1 (HasNonSystemValueMembers_some_declaration sample_ASTEnums
                  IsSystemValue sample_hiding sample_base)).
  exists (sample_var "a" "derived" None). split; [ | reflexivity ].
  right. right. now left.
Defined.

(** X26: [ParameterSemantics::Add] sorts declarations into two lists: after
    adding any pointers, the system-value list has grown by exactly the
    added declarations with the system-value flag and the other list by
    exactly those without, both in the order added; null pointers add
    nothing and nothing already listed is lost. *)
Theorem ParameterSemantics_Add_partitions :
  forall (E : ASTEnums) (flag : VarDecl -> bool)
         (ptrs : list (option VarDecl)) (ps : ParameterSemantics),
    let ps' := fold_left (fun acc p => ParameterSemantics_Add flag p acc)
                         ptrs ps in
    varDeclRefsSV ps'
      = (varDeclRefsSV ps ++ filter flag (non_null ptrs))%list /\
    varDeclRefs ps'
      = (varDeclRefs ps
         ++ filter (fun v => negb (flag v)) (non_null ptrs))%list /\
    List.length (varDeclRefs ps') + List.length (varDeclRefsSV ps')
      = List.length (varDeclRefs ps) + List.length (varDeclRefsSV ps)
        + List.length (non_null ptrs).
Proof.
  intros E flag ptrs.
  induction ptrs as [ | [v | ] ptrs IH ]; intros ps ps'; subst ps'.
  - cbn. rewrite !app_nil_r. repeat split. lia.
  - cbn [fold_left non_null filter ParameterSemantics_Add].
    destruct (IH (ParameterSemantics_Add flag (Some v) ps))
      as (Hsv & Hrefs & Hlen).
    cbn [ParameterSemantics_Add] in Hsv, Hrefs, Hlen.
    rewrite Hsv, Hrefs. clear Hsv Hrefs Hlen IH.
    destruct (flag v); cbn [negb varDeclRefs varDeclRefsSV];
      rewrite <- ?app_assoc; cbn [app];
      (split; [ reflexivity | split; [ reflexivity | ] ]);
      rewrite ?length_app; cbn [List.length]; rewrite ?length_app;
      cbn [List.length];
      pose proof (filter_length flag (non_null ptrs)); lia.
  - cbn [fold_left non_null ParameterSemantics_Add]. apply IH.
Qed.
